(** * openclaw-mama: the lifecycle coordinator of the MAMA memory plugin

    A shallow embedding of [src/utils.ts] and of the event handlers of
    [src/index.ts], followed by the properties of the specification that
    are settled against them.

    JavaScript strings are sequences of UTF-16 code units, so a string is a
    [list N] of code units: [text.length] is [length], [substring(0, n)] is
    [take n], concatenation is [++].  Module-level variables of the plugin
    are the fields of a record that every handler threads through a small
    state-and-exception monad; the memory backend is an interface (a type
    class) whose calls may return or throw. *)

From Stdlib Require Import ZArith NArith QArith Qround Strings.String Strings.Ascii Bool Lia.
From Stdlib Require Import DecimalString.
From stdpp Require Import base list.

Set Default Proof Using "Type".
Set Warnings "-register-all".

(* ===================================================================== *)
(** * JavaScript strings                                                  *)
(* ===================================================================== *)

Definition jsstring : Type := list N.

(** An ASCII literal of the source as a sequence of code units. *)
Definition lit (s : string) : jsstring :=
  map N_of_ascii (list_ascii_of_string s).

Arguments lit s : simpl never.

(** The line feed of a ['\n'] escape. *)
Definition LF : jsstring := [10%N].

(** [s.startsWith(p)] *)
Fixpoint startsWith (s p : jsstring) : bool :=
  match p, s with
  | [], _ => true
  | _ :: _, [] => false
  | c :: p', d :: s' => N.eqb c d && startsWith s' p'
  end.

(** [s.includes(p)]: [p] occurs at some position of [s]. *)
Fixpoint includes (s p : jsstring) : bool :=
  startsWith s p ||
  match s with
  | [] => false
  | _ :: s' => includes s' p
  end.

(** Truthiness of a string: only the empty string is falsy. *)
Definition truthy (s : jsstring) : bool :=
  match s with [] => false | _ :: _ => true end.

(** Decimal text of a non-negative integer, as a template literal prints it. *)
Definition showNat (n : nat) : jsstring :=
  lit (NilZero.string_of_uint (Nat.to_uint n)).

Definition showZ (z : Z) : jsstring :=
  lit (NilZero.string_of_int (Z.to_int z)).

(* ===================================================================== *)
(** * utils.ts                                                            *)
(* ===================================================================== *)

(** [truncateText(text, maxLen)].  [maxLen] is a character budget; every
    call site passes a non-negative integer literal, hence [nat]. *)
Definition truncateText (text : jsstring) (maxLen : nat) : jsstring :=
  if length text <=? maxLen then text
  else take maxLen text ++ lit "...".

(** ** Values of unknown type

    Event payloads and thrown values have type [unknown] in the source and
    are narrowed by run-time guards. *)
Inductive jsval : Type :=
| JUndefined
| JNull
| JBool (b : bool)
| JNumber (z : Z)
| JString (s : jsstring)
| JArray (items : list jsval)
| JObject (fields : list (jsstring * jsval))
| JError (message : jsstring).

(** [isRecord(value)]: an object that is neither [null] nor an array. *)
Definition isRecord (value : jsval) : bool :=
  match value with
  | JObject _ | JError _ => true
  | _ => false
  end.

Fixpoint lookupField (fields : list (jsstring * jsval)) (key : jsstring) : jsval :=
  match fields with
  | [] => JUndefined
  | (k, v) :: rest => if decide (k = key) then v else lookupField rest key
  end.

(** [obj[key]] on a record. *)
Definition getField (obj : jsval) (key : jsstring) : jsval :=
  match obj with
  | JObject fields => lookupField fields key
  | JError message => if decide (key = lit "message") then JString message else JUndefined
  | _ => JUndefined
  end.

(** [getStringField(obj, key)] *)
Definition getStringField (obj : jsval) (key : jsstring) : option jsstring :=
  match getField obj key with
  | JString s => Some s
  | _ => None
  end.

(** ** Regular expressions

    The regular expressions of the plugin use literals, character classes,
    sequence, alternation and greedy repetition of a one-character atom;
    all of them carry the [i] flag and none the [u] flag.  The matcher is
    the backtracking matcher of the language: alternatives are tried left
    to right, a repetition first takes as many characters as it can and
    gives them back one at a time while the rest of the pattern fails. *)
Inductive regex : Type :=
| REps
| RChar (c : N)
| RClass (p : N -> bool)
| RSeq (r1 r2 : regex)
| RAlt (r1 r2 : regex)
| RStar (p : N -> bool).

(** Canonicalize of a code unit under [i] without [u]: the simple upper-case
    mapping, never from a non-ASCII to an ASCII character.  The table is
    exact on the code units below 256 and on the Greek mu; it is the
    identity on every other code unit, none of which canonicalizes to a
    character that occurs in a pattern of the plugin. *)
Definition canonicalize (c : N) : N :=
  if (97 <=? c)%N && (c <=? 122)%N then (c - 32)%N
  else if (c =? 181)%N || (c =? 956)%N then 924%N
  else if (224 <=? c)%N && (c <=? 254)%N && negb (c =? 247)%N then (c - 32)%N
  else if (c =? 255)%N then 376%N
  else c.

Definition charMatches (c d : N) : bool :=
  N.eqb (canonicalize c) (canonicalize d).

Fixpoint starMatch {A : Type} (p : N -> bool) (s : jsstring)
    (k : jsstring -> option A) : option A :=
  match s with
  | [] => k []
  | c :: s' =>
      if p c then
        match starMatch p s' k with
        | Some r => Some r
        | None => k s
        end
      else k s
  end.

Fixpoint rmatch {A : Type} (r : regex) (s : jsstring)
    (k : jsstring -> option A) : option A :=
  match r with
  | REps => k s
  | RChar c =>
      match s with
      | d :: s' => if charMatches c d then k s' else None
      | [] => None
      end
  | RClass p =>
      match s with
      | d :: s' => if p d then k s' else None
      | [] => None
      end
  | RSeq r1 r2 => rmatch r1 s (fun s' => rmatch r2 s' k)
  | RAlt r1 r2 =>
      match rmatch r1 s k with
      | Some x => Some x
      | None => rmatch r2 s k
      end
  | RStar p => starMatch p s k
  end.

(** The text matched at the start of [s], if the pattern matches there. *)
Definition matchAt (r : regex) (s : jsstring) : option jsstring :=
  rmatch r s (fun rest => Some (take (length s - length rest) s)).

(** [s.match(r)?.[0]] for a pattern without the [g] flag: the leftmost
    match. *)
Fixpoint regexMatch (r : regex) (s : jsstring) : option jsstring :=
  match matchAt r s with
  | Some m => Some m
  | None =>
      match s with
      | [] => None
      | _ :: s' => regexMatch r s'
      end
  end.

(** [r.test(s)] *)
Definition regexTest (r : regex) (s : jsstring) : bool :=
  match regexMatch r s with Some _ => true | None => false end.

(** A literal run of characters. *)
Fixpoint rlit (s : jsstring) : regex :=
  match s with
  | [] => REps
  | c :: s' => RSeq (RChar c) (rlit s')
  end.

(** [x+] is [x] followed by [x*]. *)
Definition RPlus (p : N -> bool) : regex := RSeq (RClass p) (RStar p).

Definition alternatives (rs : list regex) : regex :=
  match rs with
  | [] => REps
  | r :: rs' => fold_left RAlt rs' r
  end.

(** [\s] *)
Definition isWhiteSpace (c : N) : bool :=
  ((9 <=? c)%N && (c <=? 13)%N) || (c =? 32)%N || (c =? 160)%N
  || (c =? 5760)%N || ((8192 <=? c)%N && (c <=? 8202)%N)
  || (c =? 8232)%N || (c =? 8233)%N || (c =? 8239)%N || (c =? 8287)%N
  || (c =? 12288)%N || (c =? 65279)%N.

(** [[\w_-]] *)
Definition isLinkIdChar (c : N) : bool :=
  ((48 <=? c)%N && (c <=? 57)%N) || ((65 <=? c)%N && (c <=? 90)%N)
  || ((97 <=? c)%N && (c <=? 122)%N) || (c =? 95)%N || (c =? 45)%N.

(** [[^\]]] *)
Definition notCloseBracket (c : N) : bool := negb (c =? 93)%N.

(** [.]: anything but a line terminator. *)
Definition dot (c : N) : bool :=
  negb ((c =? 10)%N || (c =? 13)%N || (c =? 8232)%N || (c =? 8233)%N).

(** [/(builds_on|debates):\s*[\w_-]+|synthesizes:\s*\[[^\]]+\]/i] *)
Definition linkPattern : regex :=
  RAlt
    (RSeq (RAlt (rlit (lit "builds_on")) (rlit (lit "debates")))
       (RSeq (RChar 58) (RSeq (RStar isWhiteSpace) (RPlus isLinkIdChar))))
    (RSeq (rlit (lit "synthesizes:"))
       (RSeq (RStar isWhiteSpace)
          (RSeq (RChar 91) (RSeq (RPlus notCloseBracket) (RChar 93))))).

(** The glyph that prefixes an appended link, spelled as in the source
    file. *)
Definition linkGlyph : jsstring := [240%N; 376%N; 8221%N; 8212%N].

(** [formatReasoning(reasoning, maxLen)] *)
Definition formatReasoning (reasoning : jsstring) (maxLen : nat) : jsstring :=
  if negb (truthy reasoning) then []
  else
    let linkMatch := regexMatch linkPattern reasoning in
    let truncated :=
      if maxLen <? length reasoning
      then take maxLen reasoning ++ lit "..."
      else reasoning in
    match linkMatch with
    | Some m =>
        if negb (includes truncated m)
        then truncated ++ LF ++ lit "  " ++ linkGlyph ++ lit " " ++ m
        else truncated
    | None => truncated
    end.

(** [getErrorMessage(err)].  The last branch of the source serialises the
    value with [JSON.stringify] and falls back to [String(err)]; that text
    is supplied by the host as [fallback]. *)
Definition getErrorMessage (fallback : jsval -> jsstring) (err : jsval) : jsstring :=
  match err with
  | JError message => message
  | JString s => s
  | JUndefined => lit "undefined"
  | JNull => lit "null"
  | _ => fallback err
  end.

(** [isRecentCheckpoint(checkpointTimestamp, thresholdMs)].  [now] is the
    value of [Date.now()] and [checkpointTime] the value of
    [new Date(checkpointTimestamp).getTime()], [None] for an invalid date
    (NaN, for which every comparison is false).  The default threshold is
    [defaultThresholdMs]. *)
Definition defaultThresholdMs : Z := 5 * 60 * 1000.

Definition isRecentCheckpoint (now : Z) (checkpointTime : option Z)
    (thresholdMs : Z) : bool :=
  match checkpointTime with
  | Some t => (now - t <? thresholdMs)%Z
  | None => false
  end.

(* ===================================================================== *)
(** * index.ts: data                                                      *)
(* ===================================================================== *)

Record MAMADecision : Type := {
  dec_id : jsstring;
  dec_topic : jsstring;
  dec_decision : jsstring;
  dec_reasoning : jsstring;
  dec_outcome : option jsstring;
  dec_similarity : option Q;
}.

Record MAMASuggestResult : Type := {
  sr_query : jsstring;
  sr_results : list MAMADecision;
}.

Record MAMACheckpoint : Type := {
  cp_id : Z;
  cp_summary : jsstring;
  cp_next_steps : option jsstring;
  cp_timestamp : jsstring;
}.

Record PluginConfig : Type := { dbPath : option jsstring }.

Record SuggestOptions : Type := { so_limit : nat; so_threshold : Q }.

(** A call either returns a value or throws one. *)
Inductive outcome (A : Type) : Type :=
| Returns (a : A)
| Throws (e : jsval).
Arguments Returns {A} a.
Arguments Throws {A} e.

(** The memory backend ([MAMAApi] and the module loader it comes from), over
    a state [B] of everything outside the plugin, the clock included.  Each
    call may change that state and may throw. *)
Class MAMAApi (B : Type) : Type := {
  requireMamaApi : B -> outcome unit * B;
  requireMemoryStore : B -> outcome unit * B;
  initDB : B -> outcome unit * B;
  suggest : jsstring -> SuggestOptions -> B -> outcome (option MAMASuggestResult) * B;
  saveCheckpoint : jsstring -> list jsstring -> jsstring -> B -> outcome Z * B;
  loadCheckpoint : B -> outcome (option MAMACheckpoint) * B;
  listDecisions : nat -> B -> outcome (list MAMADecision) * B;
  dateNow : B -> Z;
}.

(** What the JavaScript runtime supplies and this development leaves
    abstract. *)
Class Host : Type := {
  (** [path.join(os.homedir(), '.claude/mama-memory.db')], never empty *)
  defaultDbPath : jsstring;
  defaultDbPath_truthy : truthy defaultDbPath = true;
  (** [new Date(s).getTime()], [None] for NaN *)
  dateParse : jsstring -> option Z;
  (** [new Date(ms).toISOString()] of a valid time *)
  toISOString : Z -> jsstring;
  (** the text of [Math.round((similarity || 0) * 100)] *)
  pctText : option Q -> jsstring;
  (** [JSON.stringify(err)], else [String(err)] *)
  stringifyFallback : jsval -> jsstring;
}.

(** The module-level variables of [index.ts].  [mama] records whether the
    backend module has been loaded. *)
Record PluginState : Type := {
  initialized : bool;
  mama : bool;
  initialDbPath : option jsstring;
  compactionOccurred : bool;
  sessionStartedAt : option jsstring;
  lastUserPrompt : option jsstring;
  lastCompactionAt : option jsstring;
  lastAutoCaptureCandidates : list jsstring;
}.

Definition initialState : PluginState :=
  {| initialized := false; mama := false; initialDbPath := None;
     compactionOccurred := false; sessionStartedAt := None;
     lastUserPrompt := None; lastCompactionAt := None;
     lastAutoCaptureCandidates := [] |}.

Definition set_initialized (v : bool) (s : PluginState) : PluginState :=
  {| initialized := v; mama := mama s; initialDbPath := initialDbPath s;
     compactionOccurred := compactionOccurred s;
     sessionStartedAt := sessionStartedAt s; lastUserPrompt := lastUserPrompt s;
     lastCompactionAt := lastCompactionAt s;
     lastAutoCaptureCandidates := lastAutoCaptureCandidates s |}.

Definition set_mama (v : bool) (s : PluginState) : PluginState :=
  {| initialized := initialized s; mama := v; initialDbPath := initialDbPath s;
     compactionOccurred := compactionOccurred s;
     sessionStartedAt := sessionStartedAt s; lastUserPrompt := lastUserPrompt s;
     lastCompactionAt := lastCompactionAt s;
     lastAutoCaptureCandidates := lastAutoCaptureCandidates s |}.

Definition set_initialDbPath (v : option jsstring) (s : PluginState) : PluginState :=
  {| initialized := initialized s; mama := mama s; initialDbPath := v;
     compactionOccurred := compactionOccurred s;
     sessionStartedAt := sessionStartedAt s; lastUserPrompt := lastUserPrompt s;
     lastCompactionAt := lastCompactionAt s;
     lastAutoCaptureCandidates := lastAutoCaptureCandidates s |}.

Definition set_compactionOccurred (v : bool) (s : PluginState) : PluginState :=
  {| initialized := initialized s; mama := mama s; initialDbPath := initialDbPath s;
     compactionOccurred := v;
     sessionStartedAt := sessionStartedAt s; lastUserPrompt := lastUserPrompt s;
     lastCompactionAt := lastCompactionAt s;
     lastAutoCaptureCandidates := lastAutoCaptureCandidates s |}.

Definition set_sessionStartedAt (v : option jsstring) (s : PluginState) : PluginState :=
  {| initialized := initialized s; mama := mama s; initialDbPath := initialDbPath s;
     compactionOccurred := compactionOccurred s;
     sessionStartedAt := v; lastUserPrompt := lastUserPrompt s;
     lastCompactionAt := lastCompactionAt s;
     lastAutoCaptureCandidates := lastAutoCaptureCandidates s |}.

Definition set_lastUserPrompt (v : option jsstring) (s : PluginState) : PluginState :=
  {| initialized := initialized s; mama := mama s; initialDbPath := initialDbPath s;
     compactionOccurred := compactionOccurred s;
     sessionStartedAt := sessionStartedAt s; lastUserPrompt := v;
     lastCompactionAt := lastCompactionAt s;
     lastAutoCaptureCandidates := lastAutoCaptureCandidates s |}.

Definition set_lastCompactionAt (v : option jsstring) (s : PluginState) : PluginState :=
  {| initialized := initialized s; mama := mama s; initialDbPath := initialDbPath s;
     compactionOccurred := compactionOccurred s;
     sessionStartedAt := sessionStartedAt s; lastUserPrompt := lastUserPrompt s;
     lastCompactionAt := v;
     lastAutoCaptureCandidates := lastAutoCaptureCandidates s |}.

Definition set_lastAutoCaptureCandidates (v : list jsstring) (s : PluginState) : PluginState :=
  {| initialized := initialized s; mama := mama s; initialDbPath := initialDbPath s;
     compactionOccurred := compactionOccurred s;
     sessionStartedAt := sessionStartedAt s; lastUserPrompt := lastUserPrompt s;
     lastCompactionAt := lastCompactionAt s;
     lastAutoCaptureCandidates := v |}.

Inductive LogLevel : Type := LevelLog | LevelWarn | LevelError.

(** One [console.log] / [console.warn] / [console.error] call with its
    arguments. *)
Record LogEntry : Type := { level : LogLevel; args : list jsstring }.

(** Everything a handler can read or change: the plugin's variables, the
    environment variable [MAMA_DB_PATH], the console (oldest entry first)
    and the world behind the backend. *)
Record World (B : Type) : Type := {
  vars : PluginState;
  envMamaDbPath : option jsstring;
  console : list LogEntry;
  backend : B;
}.
Arguments vars {B} w.
Arguments envMamaDbPath {B} w.
Arguments console {B} w.
Arguments backend {B} w.

(* ===================================================================== *)
(** * The handler monad: state and exceptions                             *)
(* ===================================================================== *)

Definition M (B A : Type) : Type := World B -> outcome A * World B.

Definition ret {B A : Type} (a : A) : M B A := fun w => (Returns a, w).

Definition bind {B A C : Type} (m : M B A) (k : A -> M B C) : M B C :=
  fun w =>
    match m w with
    | (Returns a, w') => k a w'
    | (Throws e, w') => (Throws e, w')
    end.

Definition throw {B A : Type} (e : jsval) : M B A := fun w => (Throws e, w).

(** [try { m } catch (err) { h err }] *)
Definition tryCatch {B A : Type} (m : M B A) (h : jsval -> M B A) : M B A :=
  fun w =>
    match m w with
    | (Returns a, w') => (Returns a, w')
    | (Throws e, w') => h e w'
    end.

Notation "x <- m ;; k" := (bind m (fun x => k))
  (at level 100, m at next level, right associativity).
Notation "m ;; k" := (bind m (fun _ => k))
  (at level 100, right associativity).

Definition gets {B A : Type} (f : PluginState -> A) : M B A :=
  fun w => (Returns (f (vars w)), w).

Definition modify {B : Type} (f : PluginState -> PluginState) : M B unit :=
  fun w =>
    (Returns tt,
     {| vars := f (vars w); envMamaDbPath := envMamaDbPath w;
        console := console w; backend := backend w |}).

Definition getEnv {B : Type} : M B (option jsstring) :=
  fun w => (Returns (envMamaDbPath w), w).

Definition setEnv {B : Type} (v : jsstring) : M B unit :=
  fun w =>
    (Returns tt,
     {| vars := vars w; envMamaDbPath := Some v;
        console := console w; backend := backend w |}).

Definition emit {B : Type} (l : LogLevel) (a : list jsstring) : M B unit :=
  fun w =>
    (Returns tt,
     {| vars := vars w; envMamaDbPath := envMamaDbPath w;
        console := console w ++ [{| level := l; args := a |}];
        backend := backend w |}).

Definition consoleLog {B : Type} (text : jsstring) : M B unit := emit LevelLog [text].
Definition consoleWarn {B : Type} (text : jsstring) : M B unit := emit LevelWarn [text].
Definition consoleError {B : Type} (label msg : jsstring) : M B unit :=
  emit LevelError [label; msg].

(** An awaited call into the backend. *)
Definition call {B A : Type} (op : B -> outcome A * B) : M B A :=
  fun w =>
    let (r, b') := op (backend w) in
    (r, {| vars := vars w; envMamaDbPath := envMamaDbPath w;
           console := console w; backend := b' |}).

(** [for (const x of xs) { body x }] *)
Fixpoint forEach {B A : Type} (xs : list A) (body : A -> M B unit) : M B unit :=
  match xs with
  | [] => ret tt
  | x :: xs' => body x ;; forEach xs' body
  end.

(** [parts.join(sep)] *)
Fixpoint join (sep : jsstring) (parts : list jsstring) : jsstring :=
  match parts with
  | [] => []
  | [p] => p
  | p :: rest => p ++ sep ++ join sep rest
  end.

(** Truthiness of an optional object: present. *)
Definition present {A : Type} (o : option A) : bool :=
  match o with Some _ => true | None => false end.

(** Truthiness of an optional string: present and not empty. *)
Definition truthyOpt (o : option jsstring) : bool :=
  match o with Some s => truthy s | None => false end.

(** [a || b] on optional strings with a string fallback. *)
Definition orElse (a : option jsstring) (b : jsstring) : jsstring :=
  match a with
  | Some s => if truthy s then s else b
  | None => b
  end.

(* ===================================================================== *)
(** * index.ts: decision detection                                        *)
(* ===================================================================== *)

(** The three [decisionPatterns].  The non-ASCII keywords are spelled with
    the code units of the source file. *)
Definition decisionPattern1 : regex :=
  alternatives
    [ rlit (lit "decided");
      rlit [205; 8804; 8734; 207; 8224; 239]%N;
      rlit [207; 209; 8224; 204; 201; 249]%N;
      rlit (lit "chose");
      RSeq (rlit (lit "use")) (RSeq (RStar dot) (rlit (lit "instead")));
      rlit (lit "going with") ].

Definition decisionPattern2 : regex :=
  alternatives
    [ rlit (lit "will use");
      rlit [207; 199; 168; 207; 246; 169; 204; 239; 8224]%N;
      rlit (lit "approach");
      rlit [206; 8734; 169; 207; 227; 249]%N;
      rlit (lit "strategy") ].

Definition decisionPattern3 : regex :=
  alternatives
    [ rlit (lit "remember");
      rlit [205; 8719; 8734; 207; 241; 181]%N;
      rlit (lit "learned");
      rlit [206; 8734; 8734; 207; 245; 8224]%N;
      rlit (lit "lesson") ].

Definition decisionPatterns : list regex :=
  [decisionPattern1; decisionPattern2; decisionPattern3].

(** [decisionPatterns.some((p) => p.test(text))] *)
Definition isDecision (text : jsstring) : bool :=
  existsb (fun p => regexTest p text) decisionPatterns.

(** The guards of the detection loop of [agent_end], in the order of the
    source: each [continue] rejects the text. *)
Definition isCandidate (text : jsstring) : bool :=
  if (length text <? 20) || (500 <? length text) then false
  else if includes text (lit "<relevant-memories>") then false
  else if startsWith text (lit "<") && includes text (lit "</") then false
  else isDecision text.

(** The update of [lastAutoCaptureCandidates] for one candidate:
    [[candidate, ...list].slice(0, 3)] unless the list includes it. *)
Definition insertCandidate (candidate : jsstring) (candidates : list jsstring)
    : list jsstring :=
  if bool_decide (candidate ∈ candidates) then candidates
  else take 3 (candidate :: candidates).

(** The texts of the user and assistant messages of an [agent_end] event. *)
Definition blockTexts (block : jsval) : list jsstring :=
  if negb (isRecord block) then []
  else
    match getField block (lit "type"), getField block (lit "text") with
    | JString ty, JString text =>
        if bool_decide (ty = lit "text") then [text] else []
    | _, _ => []
    end.

Definition messageTexts (msg : jsval) : list jsstring :=
  if negb (isRecord msg) then []
  else
    match getField msg (lit "role") with
    | JString role =>
        if bool_decide (role = lit "user") || bool_decide (role = lit "assistant")
        then
          match getField msg (lit "content") with
          | JString content => [content]
          | JArray blocks => flat_map blockTexts blocks
          | _ => []
          end
        else []
    | _ => []
    end.

Definition extractTexts (messages : list jsval) : list jsstring :=
  flat_map messageTexts messages.

(* ===================================================================== *)
(** * index.ts: rendering of the recalled memories                        *)
(* ===================================================================== *)

Section Rendering.
Context `{!Host}.

Definition outcomeSuffix (o : option jsstring) : jsstring :=
  match o with
  | Some s => if truthy s then lit " (" ++ s ++ lit ")" else []
  | None => []
  end.

Definition semanticLine (r : MAMADecision) : jsstring :=
  lit "- **" ++ dec_topic r ++ lit "** [" ++ pctText (dec_similarity r)
  ++ lit "%]: " ++ dec_decision r ++ outcomeSuffix (dec_outcome r)
  ++ LF ++ lit "  _" ++ formatReasoning (dec_reasoning r) 100 ++ lit "_" ++ LF
  ++ lit "  ID: `" ++ dec_id r ++ lit "`" ++ LF.

Definition semanticHeading : jsstring :=
  lit "## Relevant Decisions (semantic match)" ++ LF ++ LF.

Definition semanticSection (semanticResults : list MAMADecision) : jsstring :=
  if 0 <? length semanticResults
  then semanticHeading ++ concat (map semanticLine semanticResults) ++ LF
  else [].

Definition checkpointSection (checkpoint : MAMACheckpoint) (iso : jsstring) : jsstring :=
  lit "## Last Checkpoint (" ++ iso ++ lit ")" ++ LF ++ LF
  ++ lit "**Summary:** " ++ cp_summary checkpoint ++ LF ++ LF
  ++ (if truthyOpt (cp_next_steps checkpoint)
      then lit "**Next Steps:** " ++ default [] (cp_next_steps checkpoint) ++ LF ++ LF
      else []).

Definition recentLine (d : MAMADecision) : jsstring :=
  lit "- **" ++ dec_topic d ++ lit "**: " ++ dec_decision d
  ++ outcomeSuffix (dec_outcome d) ++ LF.

Definition recentHeading : jsstring := lit "## Recent Decisions" ++ LF ++ LF.

Definition recentSection (recentDecisions : list MAMADecision) : jsstring :=
  if 0 <? length recentDecisions
  then recentHeading ++ concat (map recentLine recentDecisions) ++ LF
  else [].

Definition contextHeader : jsstring :=
  lit "<relevant-memories>" ++ LF ++ lit "# MAMA Memory Context" ++ LF ++ LF.

Definition contextFooter : jsstring := lit "</relevant-memories>".

Definition compactionNoteText : jsstring :=
  LF ++ lit "**Note:** Context was recently compressed. Above memories help restore state."
  ++ LF.
End Rendering.

(* ===================================================================== *)
(** * index.ts: initialisation and the event handlers                     *)
(* ===================================================================== *)

(** The events of the host to which [register] subscribes. *)
Inductive HostEvent : Type :=
| SessionStart (event : jsval)
| BeforeAgentStart (event : jsval)
| AgentEnd (event : jsval)
| SessionEnd (event : jsval)
| BeforeCompaction (event : jsval)
| AfterCompaction (event : jsval).

(** What [before_agent_start] has collected when it decides whether to
    inject a context. *)
Record RecallInputs : Type := {
  semanticResults : list MAMADecision;
  checkpoint : option MAMACheckpoint;
  recentDecisions : list MAMADecision;
  compactionNote : jsstring;
}.

Section Plugin.
Context {B : Type} `{!MAMAApi B} `{!Host}.

Definition errorText (err : jsval) : jsstring :=
  getErrorMessage stringifyFallback err.

(** [getMAMA()] *)
Definition getMAMA : M B unit :=
  loaded <- gets mama ;;
  if loaded then ret tt
  else throw (JError (lit "MAMA not initialized. Call initMAMA() first.")).

(** [config?.dbPath || process.env.MAMA_DB_PATH || path.join(...)] *)
Definition resolveDbPath (config : option PluginConfig) (env : option jsstring)
    : jsstring :=
  orElse (config ≫= dbPath) (orElse env defaultDbPath).

Definition reinitWarning (requested original : jsstring) : jsstring :=
  lit "[MAMA Plugin] Warning: initMAMA called with different dbPath ("
  ++ requested ++ lit ") after initialization with (" ++ original
  ++ lit "). Using original path.".

(** [initMAMA(config)] *)
Definition initMAMA (config : option PluginConfig) : M B unit :=
  env <- getEnv ;;
  let dbPath := resolveDbPath config env in
  isInitialized <- gets initialized ;;
  if isInitialized then
    original <- gets initialDbPath ;;
    (if truthyOpt original && negb (bool_decide (Some dbPath = original))
     then consoleWarn (reinitWarning dbPath (default [] original))
     else ret tt)
  else
    setEnv dbPath ;;
    tryCatch
      (call requireMamaApi ;;
       modify (set_mama true) ;;
       call requireMemoryStore ;;
       call initDB ;;
       modify (set_initialized true) ;;
       modify (set_initialDbPath (Some dbPath)) ;;
       consoleLog (lit "[MAMA Plugin] Initialized with direct module integration (db: "
                   ++ dbPath ++ lit ")"))
      (fun err =>
         let msg := errorText err in
         consoleError (lit "[MAMA Plugin] Init failed:") msg ;;
         throw (match err with JError _ => err | _ => JError msg end)).

(** [new Date().toISOString()] *)
Definition nowISO : M B jsstring :=
  fun w => (Returns (toISOString (dateNow (backend w))), w).

(** [new Date(timestamp).toISOString()], which throws a RangeError on an
    invalid date. *)
Definition timestampISO (timestamp : jsstring) : M B jsstring :=
  match dateParse timestamp with
  | Some t => ret (toISOString t)
  | None => throw (JError (lit "Invalid time value"))
  end.

(** ** session_start *)
Definition session_start (config : option PluginConfig) (_event : jsval) : M B unit :=
  tryCatch
    (initMAMA config ;;
     now <- nowISO ;;
     modify (set_sessionStartedAt (Some now)) ;;
     modify (set_lastUserPrompt None) ;;
     modify (set_lastCompactionAt None) ;;
     modify (set_lastAutoCaptureCandidates []) ;;
     modify (set_compactionOccurred false) ;;
     getMAMA ;;
     checkpoint <- call loadCheckpoint ;;
     getMAMA ;;
     recentDecisions <- call (listDecisions 5) ;;
     match checkpoint with
     | Some c => consoleLog (lit "[MAMA] Session start: Loaded checkpoint from "
                             ++ cp_timestamp c)
     | None => ret tt
     end ;;
     if 0 <? length recentDecisions
     then consoleLog (lit "[MAMA] Session start: " ++ showNat (length recentDecisions)
                      ++ lit " recent decisions available")
     else ret tt)
    (fun err => consoleError (lit "[MAMA] Session start error:") (errorText err)).

(** ** before_agent_start *)

(** The prompt of the event: [''] unless the event is a record with a
    string field [prompt]. *)
Definition eventPrompt (event : jsval) : jsstring :=
  if isRecord event then default [] (getStringField event (lit "prompt")) else [].

(** Step 1: the semantic search, whose failure is logged and counts as no
    result. *)
Definition recallSearch (userPrompt : jsstring) : M B (list MAMADecision) :=
  if truthy userPrompt && (5 <=? length userPrompt) then
    tryCatch
      (searchResult <- call (suggest userPrompt {| so_limit := 3; so_threshold := 1 # 2 |}) ;;
       ret (match searchResult with Some r => sr_results r | None => [] end))
      (fun searchErr =>
         consoleError (lit "[MAMA] Semantic search error:") (errorText searchErr) ;;
         ret [])
  else ret [].

(** Step 4: the compaction note, which consumes the flag. *)
Definition takeCompactionNote : M B jsstring :=
  occurred <- gets compactionOccurred ;;
  if occurred then modify (set_compactionOccurred false) ;; ret compactionNoteText
  else ret [].

(** Steps 1 to 4. *)
Definition gatherRecall (userPrompt : jsstring) : M B RecallInputs :=
  semantic <- recallSearch userPrompt ;;
  cp <- call loadCheckpoint ;;
  recent <- (if length semantic =? 0 then call (listDecisions 3) else ret []) ;;
  note <- takeCompactionNote ;;
  ret {| semanticResults := semantic; checkpoint := cp;
         recentDecisions := recent; compactionNote := note |}.

Definition recallLogLine (inp : RecallInputs) : jsstring :=
  lit "[MAMA] Auto-recall: " ++ showNat (length (semanticResults inp))
  ++ lit " semantic matches, " ++ showNat (length (recentDecisions inp))
  ++ lit " recent, checkpoint: "
  ++ (if present (checkpoint inp) then lit "true" else lit "false")
  ++ (if truthy (compactionNote inp) then lit ", post-compaction" else []).

(** The text block for the collected memories. *)
Definition renderContext (inp : RecallInputs) : M B jsstring :=
  cpText <- match checkpoint inp with
            | Some c => iso <- timestampISO (cp_timestamp c) ;;
                        ret (checkpointSection c iso)
            | None => ret []
            end ;;
  ret (contextHeader ++ semanticSection (semanticResults inp) ++ cpText
       ++ recentSection (recentDecisions inp) ++ compactionNote inp
       ++ contextFooter).

(** Step 5: inject a context if there is anything to inject. *)
Definition injectContext (inp : RecallInputs) : M B (option jsstring) :=
  if present (checkpoint inp)
     || (0 <? length (semanticResults inp))
     || (0 <? length (recentDecisions inp))
  then
    content <- renderContext inp ;;
    consoleLog (recallLogLine inp) ;;
    ret (Some content)
  else ret None.

(** The start of the handler: initialise, record the prompt, fetch the
    backend handle. *)
Definition recallPrelude (config : option PluginConfig) (event : jsval) : M B jsstring :=
  initMAMA config ;;
  let userPrompt := eventPrompt event in
  modify (set_lastUserPrompt
            (if truthy userPrompt then Some (truncateText userPrompt 200) else None)) ;;
  getMAMA ;;
  ret userPrompt.

(** The [catch] block of the handler. *)
Definition recallFailed (err : jsval) : M B (option jsstring) :=
  consoleError (lit "[MAMA] Auto-recall error:") (errorText err) ;;
  ret None.

(** The handler returns [Some content] for [{ prependContext: content }]
    and [None] for [undefined]. *)
Definition before_agent_start (config : option PluginConfig) (event : jsval)
    : M B (option jsstring) :=
  tryCatch
    (userPrompt <- recallPrelude config event ;;
     inp <- gatherRecall userPrompt ;;
     injectContext inp)
    recallFailed.

(** ** agent_end *)

(** The body of the loop over the extracted texts. *)
Definition captureStep (text : jsstring) : M B unit :=
  if isCandidate text then
    let candidate := truncateText text 160 in
    modify (fun s => set_lastAutoCaptureCandidates
                       (insertCandidate candidate (lastAutoCaptureCandidates s)) s) ;;
    consoleLog (lit "[MAMA] Auto-capture candidate: " ++ candidate)
  else ret tt.

Definition agent_end (config : option PluginConfig) (event : jsval) : M B unit :=
  if negb (isRecord event) then ret tt
  else
    let success := match getField event (lit "success") with
                   | JBool true => true
                   | _ => false
                   end in
    let messages := match getField event (lit "messages") with
                    | JArray items => items
                    | _ => []
                    end in
    if negb success || (length messages =? 0) then ret tt
    else
      tryCatch
        (initMAMA config ;;
         forEach (extractTexts messages) captureStep)
        (fun err => consoleError (lit "[MAMA] Auto-capture error:") (errorText err)).

(** ** session_end *)

Definition notBlank (t : jsstring) : bool := existsb (fun c => negb (isWhiteSpace c)) t.

Definition optLine (label : jsstring) (v : option jsstring) : list jsstring :=
  if truthyOpt v then [label ++ default [] v] else [].

Definition sessionSummary (endedAt : jsstring) (s : PluginState)
    (recent : list MAMADecision) : jsstring :=
  let recentTopics := take 5 (filter (fun t => notBlank t = true) (map dec_topic recent)) in
  join LF
    ([lit "Session ended: " ++ endedAt]
     ++ optLine (lit "Session started: ") (sessionStartedAt s)
     ++ optLine (lit "Last user prompt: ") (lastUserPrompt s)
     ++ optLine (lit "Last compaction: ") (lastCompactionAt s)
     ++ [lit "Decisions recorded (recent): " ++ showNat (length recent)]
     ++ (if 0 <? length recentTopics
         then [lit "Recent topics: " ++ join (lit ", ") recentTopics]
         else [])).

Definition sessionNextSteps (s : PluginState) (recent : list MAMADecision) : jsstring :=
  join (LF ++ LF)
    ((if 0 <? length (lastAutoCaptureCandidates s)
      then [lit "Review auto-capture candidates:" ++ LF ++ lit "- "
            ++ join (LF ++ lit "- ") (lastAutoCaptureCandidates s)]
      else [])
     ++ (if 0 <? length recent
         then [lit "Review recent decisions (count: " ++ showNat (length recent)
               ++ lit "). Last topic: "
               ++ orElse (dec_topic <$> head recent) (lit "unknown")]
         else [lit "No new decisions recorded in this session."])
     ++ [lit "On next session start: load checkpoint and continue from the last prompt."]).

(** The condition under which [session_end] skips its auto-save:
    [existingCheckpoint && isRecentCheckpoint(existingCheckpoint.timestamp)]. *)
Definition shouldSkip (existingCheckpoint : option MAMACheckpoint) (now : Z) : bool :=
  match existingCheckpoint with
  | Some c => isRecentCheckpoint now (dateParse (cp_timestamp c)) defaultThresholdMs
  | None => false
  end.

Definition session_end (config : option PluginConfig) (_event : jsval) : M B unit :=
  tryCatch
    (initMAMA config ;;
     getMAMA ;;
     existingCheckpoint <- call loadCheckpoint ;;
     now <- (fun w => (Returns (dateNow (backend w)), w)) ;;
     if shouldSkip existingCheckpoint now then
       consoleLog (lit "[MAMA] Session end: Skipping auto-save (recent checkpoint exists)")
     else
       endedAt <- nowISO ;;
       getMAMA ;;
       recent <- call (listDecisions 10) ;;
       s <- gets (fun s => s) ;;
       getMAMA ;;
       checkpointId <- call (saveCheckpoint (sessionSummary endedAt s recent) []
                               (sessionNextSteps s recent)) ;;
       consoleLog (lit "[MAMA] Session end: Auto-saved checkpoint (id: "
                   ++ showZ checkpointId ++ lit ", decisions: "
                   ++ showNat (length recent) ++ lit ")"))
    (fun err => consoleError (lit "[MAMA] Session end error:") (errorText err)).

(** ** before_compaction *)
Definition before_compaction (config : option PluginConfig) (_event : jsval) : M B unit :=
  tryCatch
    (initMAMA config ;;
     now <- nowISO ;;
     modify (set_lastCompactionAt (Some now)) ;;
     let summary := lit "Pre-compaction checkpoint: " ++ now
                    ++ lit ". Context will be compressed." in
     getMAMA ;;
     checkpointId <- call (saveCheckpoint summary []
                             (lit "Resume after compaction - check previous context")) ;;
     modify (set_compactionOccurred true) ;;
     consoleLog (lit "[MAMA] Before compaction: Saved checkpoint (id: "
                 ++ showZ checkpointId ++ lit ")"))
    (fun err => consoleError (lit "[MAMA] Before compaction error:") (errorText err)).

(** ** after_compaction *)
Definition after_compaction (config : option PluginConfig) (_event : jsval) : M B unit :=
  tryCatch
    (initMAMA config ;;
     getMAMA ;;
     checkpoint <- call loadCheckpoint ;;
     getMAMA ;;
     recentDecisions <- call (listDecisions 5) ;;
     consoleLog (lit "[MAMA] After compaction: Context compressed") ;;
     match checkpoint with
     | Some c => consoleLog (lit "[MAMA] Checkpoint available: "
                             ++ take 50 (cp_summary c) ++ lit "...")
     | None => ret tt
     end ;;
     if 0 <? length recentDecisions
     then consoleLog (lit "[MAMA] " ++ showNat (length recentDecisions)
                      ++ lit " recent decisions ready for re-injection")
     else ret tt)
    (fun err => consoleError (lit "[MAMA] After compaction error:") (errorText err)).

(** A sequence of [initMAMA] calls, each with its own configuration. *)
Fixpoint initCalls (configs : list (option PluginConfig)) (w : World B) : World B :=
  match configs with
  | [] => w
  | config :: rest => initCalls rest (snd (initMAMA config w))
  end.

(** ** register

    [register(api)] installs one handler per event, each closed over the
    plugin's configuration; the host then delivers events one at a time. *)
Definition deliver (config : option PluginConfig) (ev : HostEvent) (w : World B)
    : World B :=
  match ev with
  | SessionStart event => snd (session_start config event w)
  | BeforeAgentStart event => snd (before_agent_start config event w)
  | AgentEnd event => snd (agent_end config event w)
  | SessionEnd event => snd (session_end config event w)
  | BeforeCompaction event => snd (before_compaction config event w)
  | AfterCompaction event => snd (after_compaction config event w)
  end.

Definition deliverAll (config : option PluginConfig) (events : list HostEvent)
    (w : World B) : World B :=
  foldl (fun w ev => deliver config ev w) w events.
End Plugin.

(* ===================================================================== *)
(** * A sample host and backend                                           *)
(* ===================================================================== *)

(** A small in-memory backend and host on which the handlers can be run:
    timestamps are decimal millisecond counts, the backend holds a fixed
    checkpoint, a fixed list of decisions and a fixed list of search hits,
    and its database or its checkpoint store can be made to fail. *)
Module Sample.

Definition digitValue (c : N) : option Z :=
  if (48 <=? c)%N && (c <=? 57)%N then Some (Z.of_N c - 48)%Z else None.

Fixpoint parseDigits (acc : Z) (s : jsstring) : option Z :=
  match s with
  | [] => Some acc
  | c :: s' =>
      match digitValue c with
      | Some d => parseDigits (acc * 10 + d)%Z s'
      | None => None
      end
  end.

Definition parseMs (s : jsstring) : option Z :=
  match s with
  | [] => None
  | _ :: _ => parseDigits 0 s
  end.

#[export] Instance host : Host := {|
  defaultDbPath := lit "/home/user/.claude/mama-memory.db";
  defaultDbPath_truthy := eq_refl;
  dateParse := parseMs;
  toISOString := showZ;
  pctText := fun q => showZ (Qfloor (default 0 q * 100 + (1 # 2))%Q);
  stringifyFallback := fun _ => lit "[object Object]";
|}.

Record Store : Type := {
  st_checkpoint : option MAMACheckpoint;
  st_decisions : list MAMADecision;
  st_hits : list MAMADecision;
  st_clock : Z;
  st_dbFails : bool;
  st_saveFails : bool;
}.

#[export] Instance api : MAMAApi Store := {|
  requireMamaApi := fun b => (Returns tt, b);
  requireMemoryStore := fun b => (Returns tt, b);
  initDB := fun b =>
    if st_dbFails b then (Throws (JError (lit "unable to open database file")), b)
    else (Returns tt, b);
  suggest := fun query opts b =>
    (Returns (Some {| sr_query := query; sr_results := take (so_limit opts) (st_hits b) |}), b);
  saveCheckpoint := fun summary files nextSteps b =>
    if st_saveFails b then (Throws (JError (lit "database is locked")), b)
    else (Returns 1%Z, b);
  loadCheckpoint := fun b => (Returns (st_checkpoint b), b);
  listDecisions := fun limit b => (Returns (take limit (st_decisions b)), b);
  dateNow := st_clock;
|}.

Definition authDecision : MAMADecision :=
  {| dec_id := lit "decision_auth_1"; dec_topic := lit "auth";
     dec_decision := lit "Use JWT with refresh tokens";
     dec_reasoning := lit "Stateless sessions scale better";
     dec_outcome := Some (lit "success"); dec_similarity := Some (87 # 100) |}.

Definition cacheDecision : MAMADecision :=
  {| dec_id := lit "decision_cache_2"; dec_topic := lit "cache";
     dec_decision := lit "Cache tokens in memory";
     dec_reasoning := lit "Fewer round trips. builds_on: decision_auth_1";
     dec_outcome := None; dec_similarity := Some (61 # 100) |}.

Definition doneCheckpoint : MAMACheckpoint :=
  {| cp_id := 7; cp_summary := lit "done"; cp_next_steps := None;
     cp_timestamp := lit "1705319400000" |}.

Definition emptyStore : Store :=
  {| st_checkpoint := None; st_decisions := []; st_hits := [];
     st_clock := 1705320000000; st_dbFails := false; st_saveFails := false |}.

Definition fullStore : Store :=
  {| st_checkpoint := Some doneCheckpoint;
     st_decisions := [cacheDecision; authDecision];
     st_hits := [authDecision; cacheDecision];
     st_clock := 1705320000000; st_dbFails := false; st_saveFails := false |}.

Definition failingSaveStore : Store :=
  {| st_checkpoint := None; st_decisions := []; st_hits := [];
     st_clock := 1705320000000; st_dbFails := false; st_saveFails := true |}.

(** The world of a freshly loaded plugin. *)
Definition fresh (b : Store) : World Store :=
  {| vars := initialState; envMamaDbPath := None; console := []; backend := b |}.

Definition promptEvent (prompt : jsstring) : jsval :=
  JObject [(lit "prompt", JString prompt)].

Definition configWith (path : string) : option PluginConfig :=
  Some {| dbPath := Some (lit path) |}.

End Sample.

Import Sample.

(* ===================================================================== *)
(** * Vocabulary of the properties                                        *)
(* ===================================================================== *)

(** The candidate list after a run of insertions, oldest insertion first. *)
Definition insertAll (inserted candidates : list jsstring) : list jsstring :=
  foldl (fun acc c => insertCandidate c acc) candidates inserted.

(** A recorded prompt is well formed: not empty, at most 203 characters. *)
Definition promptOk (o : option jsstring) : Prop :=
  ∀ stored, o = Some stored → truthy stored = true ∧ length stored ≤ 203.

(** The candidate list is well formed: at most three entries, no
    duplicate. *)
Definition candidatesOk (l : list jsstring) : Prop := length l ≤ 3 ∧ NoDup l.

(** The text of [formatReasoning] before any link is appended. *)
Definition truncatedReasoning (reasoning : jsstring) (maxLen : nat) : jsstring :=
  if maxLen <? length reasoning then take maxLen reasoning ++ lit "..." else reasoning.

(** The line that [formatReasoning] appends for a link. *)
Definition linkLine (link : jsstring) : jsstring :=
  LF ++ lit "  " ++ linkGlyph ++ lit " " ++ link.

(** [s] ends where a run of [p]-characters must end: at the end of the text
    or before a character outside [p]. *)
Definition stopsRun (p : N → bool) (s : jsstring) : Prop :=
  match s with
  | [] => True
  | c :: _ => p c = false
  end.

(** [kw] written in any letter case. *)
Definition spelled (kw text : jsstring) : Prop :=
  Forall2 (fun c d => charMatches c d = true) kw text.

(** The texts a pattern can match. *)
Inductive denotes : regex → jsstring → Prop :=
| denotes_eps : denotes REps []
| denotes_char c d : charMatches c d = true → denotes (RChar c) [d]
| denotes_class (p : N → bool) d : p d = true → denotes (RClass p) [d]
| denotes_seq r1 r2 s1 s2 :
    denotes r1 s1 → denotes r2 s2 → denotes (RSeq r1 r2) (s1 ++ s2)
| denotes_alt_l r1 r2 s : denotes r1 s → denotes (RAlt r1 r2) s
| denotes_alt_r r1 r2 s : denotes r2 s → denotes (RAlt r1 r2) s
| denotes_star (p : N → bool) s :
    Forall (fun c => p c = true) s → denotes (RStar p) s.

(** The two shapes of a link annotation: [keyword: identifier] and
    [synthesizes: [ids]]. *)
Definition isLinkAnnotation (m : jsstring) : Prop :=
  (∃ kw ws ident,
     m = kw ++ lit ":" ++ ws ++ ident
     ∧ (spelled (lit "builds_on") kw ∨ spelled (lit "debates") kw)
     ∧ Forall (fun c => isWhiteSpace c = true) ws
     ∧ ident ≠ [] ∧ Forall (fun c => isLinkIdChar c = true) ident)
  ∨ (∃ kw ws ids,
       m = kw ++ lit ":" ++ ws ++ lit "[" ++ ids ++ lit "]"
       ∧ spelled (lit "synthesizes") kw
       ∧ Forall (fun c => isWhiteSpace c = true) ws
       ∧ ids ≠ [] ∧ Forall (fun c => notCloseBracket c = true) ids).

(** Whether there is anything to inject. *)
Definition hasMemories (inp : RecallInputs) : bool :=
  present (checkpoint inp) || (0 <? length (semanticResults inp))
  || (0 <? length (recentDecisions inp)).

Section Vocabulary.
Context {B : Type} `{!MAMAApi B} `{!Host}.

(** [m] preserves a property of the plugin's variables and of the
    environment variable. *)
Definition preserves {A : Type} (P : PluginState → option jsstring → Prop)
    (m : M B A) : Prop :=
  ∀ w, P (vars w) (envMamaDbPath w) →
       P (vars (snd (m w))) (envMamaDbPath (snd (m w))).

(** A world in which [initMAMA] has succeeded with the storage path [p]. *)
Definition initializedWith (p : jsstring) (s : PluginState) (env : option jsstring)
    : Prop :=
  initialized s = true ∧ mama s = true ∧ initialDbPath s = Some p
  ∧ env = Some p ∧ truthy p = true.

(** What a call of [initMAMA] with [config] logs once the plugin is
    initialised with [p]: a warning if it asks for another path. *)
Definition reinitLog (p : jsstring) (config : option PluginConfig) : list LogEntry :=
  let requested := resolveDbPath config (Some p) in
  if bool_decide (requested = p) then []
  else [{| level := LevelWarn; args := [reinitWarning requested p] |}].

(** The text of the checkpoint section for the loaded checkpoint. *)
Definition checkpointTextOf (cp : option MAMACheckpoint) (cpText : jsstring) : Prop :=
  match cp with
  | None => cpText = []
  | Some c => ∃ t, dateParse (cp_timestamp c) = Some t
                   ∧ cpText = checkpointSection c (toISOString t)
  end.

(** What a property of the plugin's variables and of the environment
    variable must satisfy to hold through every event: [initMAMA] keeps it
    and so does each assignment that a handler makes. *)
Record PluginInvariant (P : PluginState → option jsstring → Prop) : Prop := {
  inv_init : ∀ config, preserves P (initMAMA config);
  inv_sessionStartedAt : ∀ v s env, P s env → P (set_sessionStartedAt v s) env;
  inv_promptCleared : ∀ s env, P s env → P (set_lastUserPrompt None s) env;
  inv_promptRecorded : ∀ prompt s env,
    truthy prompt = true → P s env →
    P (set_lastUserPrompt (Some (truncateText prompt 200)) s) env;
  inv_lastCompactionAt : ∀ v s env, P s env → P (set_lastCompactionAt v s) env;
  inv_candidatesCleared : ∀ s env, P s env → P (set_lastAutoCaptureCandidates [] s) env;
  inv_candidateInserted : ∀ c s env,
    P s env →
    P (set_lastAutoCaptureCandidates
         (insertCandidate c (lastAutoCaptureCandidates s)) s) env;
  inv_compactionOccurred : ∀ v s env, P s env → P (set_compactionOccurred v s) env;
}.

(** The world of a freshly loaded plugin. *)
Definition loaded (env : option jsstring) (b : B) : World B :=
  {| vars := initialState; envMamaDbPath := env; console := []; backend := b |}.

End Vocabulary.

(** ** Sample texts and runs *)

Definition exampleReasoning : jsstring :=
  lit "Some long preamble text that will be truncated. builds_on: base_idea and then more text".

(** A text of exactly 500 characters that matches a decision pattern and
    carries the marker of an injected context. *)
Definition injectedText : jsstring :=
  lit "<relevant-memories> we decided to keep the cache " ++ replicate 451 120%N.

Definition shortText : jsstring := lit "we decided to go on".

Definition boundaryText : jsstring := lit "we decided to use sqlite " ++ replicate 475 120%N.

Definition longText : jsstring := lit "we decided to use sqlite " ++ replicate 476 120%N.

Definition sampleRecall : outcome (option jsstring) :=
  fst (before_agent_start None (Sample.promptEvent (lit "auth strategy"))
         (Sample.fresh Sample.fullStore)).

Definition sampleContent : jsstring :=
  match sampleRecall with
  | Returns (Some content) => content
  | _ => []
  end.


(* ===================================================================== *)
(** * index.ts: the tools                                                 *)
(* ===================================================================== *)

(** Truthiness of a value. *)
Definition jsTruthy (v : jsval) : bool :=
  match v with
  | JUndefined | JNull => false
  | JBool b => b
  | JNumber z => negb (z =? 0)%Z
  | JString s => truthy s
  | JArray _ | JObject _ | JError _ => true
  end.

(** [v || ''] *)
Definition orEmpty (v : jsval) : jsval :=
  if jsTruthy v then v else JString [].

(** A number of the language: a finite value, NaN or an infinity. *)
Inductive jsnum : Type :=
| Finite (q : Q)
| NaN
| PosInfinity
| NegInfinity.

Definition numTruthy (n : jsnum) : bool :=
  match n with
  | Finite q => negb (Qeq_bool q 0)
  | NaN => false
  | PosInfinity | NegInfinity => true
  end.

(** [n || d] *)
Definition numOr (n d : jsnum) : jsnum := if numTruthy n then n else d.

(** [Math.min(a, b)] *)
Definition mathMin (a b : jsnum) : jsnum :=
  match a, b with
  | NaN, _ | _, NaN => NaN
  | NegInfinity, _ | _, NegInfinity => NegInfinity
  | PosInfinity, x | x, PosInfinity => x
  | Finite p, Finite q => if Qle_bool p q then Finite p else Finite q
  end.

(** [s.trim()]: white space and line terminators, the characters of [\s],
    are dropped at both ends. *)
Fixpoint trimStart (s : jsstring) : jsstring :=
  match s with
  | [] => []
  | c :: s' => if isWhiteSpace c then trimStart s' else s
  end.

Definition trimEnd (s : jsstring) : jsstring := reverse (trimStart (reverse s)).

Definition trim (s : jsstring) : jsstring := trimEnd (trimStart s).

(** The coercions of the runtime that the tools apply to their untyped
    parameters, left abstract; [jsnumber] is the type of numbers. *)
Class ToolRuntime : Type := {
  jsnumber : Type;
  (** [String(v)], the identity on strings *)
  stringOf : jsval -> jsstring;
  stringOf_string : ∀ s, stringOf (JString s) = s;
  (** [s.toUpperCase()] *)
  toUpperCase : jsstring -> jsstring;
  toUpperCase_empty : toUpperCase [] = [];
  (** [Number(v) || 0.8] *)
  confidenceOf : jsval -> jsnumber;
  (** [Number(v)], the value of a number and NaN for [undefined] *)
  numberOf : jsval -> jsnum;
  numberOf_number : ∀ z, numberOf (JNumber z) = Finite (inject_Z z);
  numberOf_undefined : numberOf JUndefined = NaN;
}.

(** The argument of [save]. *)
Record SaveParams `{!ToolRuntime} : Type := {
  sp_topic : jsstring;
  sp_decision : jsstring;
  sp_reasoning : jsstring;
  sp_confidence : jsnumber;
  sp_type : jsstring;
}.

(** [MAMASaveResult]; its field [reasoning_graph], of unknown type, is
    never read. *)
Record MAMASaveResult : Type := {
  sv_success : bool;
  sv_id : jsstring;
  sv_similar_decisions : option (list MAMADecision);
  sv_warning : option jsstring;
  sv_collaboration_hint : option jsstring;
}.

(** The options of [updateOutcome]. *)
Record OutcomeUpdate : Type := {
  ou_outcome : jsstring;
  ou_failure_reason : option jsstring;
  ou_limitation : option jsstring;
}.

(** The options that [mama_search] passes to [suggest]: its limit is any
    number. *)
Record SearchOptions : Type := { se_limit : jsnum; se_threshold : Q }.

(** The operations of [MAMAApi] as the tools call them: [save],
    [updateOutcome], and [suggest] at the options of [mama_search]. *)
Class MAMAToolsApi (B : Type) `{!ToolRuntime} : Type := {
  save : SaveParams -> B -> outcome MAMASaveResult * B;
  updateOutcome : jsstring -> OutcomeUpdate -> B -> outcome unit * B;
  suggestAt : jsstring -> SearchOptions -> B -> outcome (option MAMASuggestResult) * B;
}.

(** The glyphs before a warning and before a hint, spelled as in the source
    file. *)
Definition warningGlyph : jsstring := [8218; 246; 8224; 212; 8719; 232]%N.
Definition hintGlyph : jsstring := [63743; 252; 237; 176]%N.

Section Tools.
Context {B : Type} `{!MAMAApi B} `{!Host} `{!ToolRuntime} `{!MAMAToolsApi B}.

(** [String(params.key || '')] *)
Definition stringParam (params : jsval) (key : string) : jsstring :=
  stringOf (orEmpty (getField params (lit key))).

(** The [catch] block of every tool.  A tool returns the text of its
    single content item. *)
Definition toolFailed (err : jsval) : M B jsstring :=
  ret (lit "MAMA error: " ++ errorText err).

(** ** mama_search *)

(** [Math.min(Number(limit) || 5, 20)] *)
Definition searchLimit (limit : jsval) : jsnum :=
  mathMin (numOr (numberOf limit) (Finite (inject_Z 5))) (Finite (inject_Z 20)).

Definition noDecisionsText (query : jsstring) : jsstring :=
  lit "No decisions found for " ++ [34%N] ++ query ++ [34%N]
  ++ lit ". This may be a new topic.".

Definition searchEntry (idx : nat) (r : MAMADecision) : jsstring :=
  lit "**" ++ showNat (idx + 1) ++ lit ". " ++ dec_topic r ++ lit "** ["
  ++ pctText (dec_similarity r) ++ lit "% match]" ++ LF
  ++ lit "   Decision: " ++ dec_decision r ++ LF
  ++ lit "   Reasoning: " ++ formatReasoning (dec_reasoning r) 150 ++ LF
  ++ lit "   ID: `" ++ dec_id r ++ lit "` | Outcome: "
  ++ orElse (dec_outcome r) (lit "pending") ++ LF ++ LF.

Definition foundText (results : list MAMADecision) : jsstring :=
  lit "Found " ++ showNat (length results) ++ lit " related decisions:" ++ LF ++ LF
  ++ concat (imap searchEntry results).

Definition mama_search (config : option PluginConfig) (params : jsval) : M B jsstring :=
  tryCatch
    (initMAMA config ;;
     let query := trim (stringParam params "query") in
     if negb (truthy query) then ret (lit "Error: query required")
     else
       let limit := searchLimit (getField params (lit "limit")) in
       getMAMA ;;
       result <- call (suggestAt query {| se_limit := limit; se_threshold := 1 # 2 |}) ;;
       match result with
       | None => ret (noDecisionsText query)
       | Some found =>
           if length (sr_results found) =? 0 then ret (noDecisionsText query)
           else ret (foundText (sr_results found))
       end)
    toolFailed.

(** ** mama_save *)
Definition savedDecisionText (result : MAMASaveResult) : jsstring :=
  lit "Decision saved (id: " ++ sv_id result ++ lit ")"
  ++ (if truthyOpt (sv_warning result)
      then LF ++ warningGlyph ++ lit " " ++ default [] (sv_warning result)
      else [])
  ++ (if truthyOpt (sv_collaboration_hint result)
      then LF ++ hintGlyph ++ lit " " ++ default [] (sv_collaboration_hint result)
      else []).

Definition mama_save (config : option PluginConfig) (params : jsval) : M B jsstring :=
  tryCatch
    (initMAMA config ;;
     let saveType := stringOf (getField params (lit "type")) in
     if bool_decide (saveType = lit "checkpoint") then
       let summary := stringParam params "summary" in
       if negb (truthy summary) then ret (lit "Error: summary required for checkpoint")
       else
         getMAMA ;;
         checkpointId <- call (saveCheckpoint summary [] (stringParam params "next_steps")) ;;
         ret (lit "Checkpoint saved (id: " ++ showZ checkpointId ++ lit ")")
     else
       let topic := stringParam params "topic" in
       let decision := stringParam params "decision" in
       let reasoning := stringParam params "reasoning" in
       if negb (truthy topic) || negb (truthy decision) || negb (truthy reasoning)
       then ret (lit "Error: topic, decision, and reasoning all required")
       else
         let confidence := confidenceOf (getField params (lit "confidence")) in
         getMAMA ;;
         result <- call (save {| sp_topic := topic; sp_decision := decision;
                                 sp_reasoning := reasoning; sp_confidence := confidence;
                                 sp_type := lit "assistant_insight" |}) ;;
         ret (savedDecisionText result))
    toolFailed.

(** ** mama_load_checkpoint *)
Definition freshStartText (recent : list MAMADecision) : jsstring :=
  lit "No checkpoint found - fresh start."
  ++ (if 0 <? length recent
      then LF ++ LF ++ lit "Recent decisions:" ++ LF
           ++ concat (map (fun d => lit "- " ++ dec_topic d ++ lit ": "
                                    ++ dec_decision d ++ LF) recent)
      else []).

Definition checkpointText (checkpoint : MAMACheckpoint) (iso : jsstring)
    (recent : list MAMADecision) : jsstring :=
  lit "**Checkpoint** (" ++ iso ++ lit ")" ++ LF ++ LF
  ++ lit "**Summary:**" ++ LF ++ cp_summary checkpoint ++ LF ++ LF
  ++ (if truthyOpt (cp_next_steps checkpoint)
      then lit "**Next Steps:**" ++ LF ++ default [] (cp_next_steps checkpoint) ++ LF ++ LF
      else [])
  ++ (if 0 <? length recent
      then lit "**Recent Decisions:**" ++ LF
           ++ concat (map (fun d => lit "- **" ++ dec_topic d ++ lit "**: "
                                    ++ dec_decision d ++ lit " ("
                                    ++ orElse (dec_outcome d) (lit "pending")
                                    ++ lit ")" ++ LF) recent)
      else []).

Definition mama_load_checkpoint (config : option PluginConfig) (_params : jsval)
    : M B jsstring :=
  tryCatch
    (initMAMA config ;;
     getMAMA ;;
     checkpoint <- call loadCheckpoint ;;
     getMAMA ;;
     recent <- call (listDecisions 5) ;;
     match checkpoint with
     | None => ret (freshStartText recent)
     | Some c =>
         iso <- timestampISO (cp_timestamp c) ;;
         ret (checkpointText c iso recent)
     end)
    toolFailed.

(** ** mama_update *)
Definition outcomeUpdate (outcome reason : jsstring) : OutcomeUpdate :=
  {| ou_outcome := outcome;
     ou_failure_reason := if bool_decide (outcome = lit "FAILED") then Some reason else None;
     ou_limitation := if bool_decide (outcome = lit "PARTIAL") then Some reason else None |}.

Definition mama_update (config : option PluginConfig) (params : jsval) : M B jsstring :=
  tryCatch
    (initMAMA config ;;
     let decisionId := stringParam params "id" in
     let outcome := toUpperCase (stringParam params "outcome") in
     let reason := stringParam params "reason" in
     if negb (truthy decisionId) || negb (truthy outcome)
     then ret (lit "Error: id and outcome required")
     else
       getMAMA ;;
       call (updateOutcome decisionId (outcomeUpdate outcome reason)) ;;
       ret (lit "Decision " ++ decisionId ++ lit " updated to " ++ outcome))
    toolFailed.
End Tools.

(** A sample runtime and the remaining operations of the sample backend. *)
Module SampleTools.

Definition upperUnit (c : N) : N :=
  if (97 <=? c)%N && (c <=? 122)%N then (c - 32)%N else c.

Definition sampleString (v : jsval) : jsstring :=
  match v with
  | JString s => s
  | JUndefined => lit "undefined"
  | JNull => lit "null"
  | JBool true => lit "true"
  | JBool false => lit "false"
  | JNumber z => showZ z
  | JArray _ => []
  | JObject _ => lit "[object Object]"
  | JError message => lit "Error: " ++ message
  end.

(** [Number] on the values that the examples use: numbers, missing
    values, booleans and texts of decimal digits. *)
Definition sampleNumber (v : jsval) : jsnum :=
  match v with
  | JNumber z => Finite (inject_Z z)
  | JNull => Finite 0
  | JBool true => Finite 1
  | JBool false => Finite 0
  | JString [] => Finite 0
  | JString s =>
      match Sample.parseMs s with
      | Some z => Finite (inject_Z z)
      | None => NaN
      end
  | _ => NaN
  end.

#[export] Instance runtime : ToolRuntime := {|
  jsnumber := Q;
  stringOf := sampleString;
  stringOf_string := fun _ => eq_refl;
  toUpperCase := map upperUnit;
  toUpperCase_empty := eq_refl;
  confidenceOf := fun _ => (4 # 5)%Q;
  numberOf := sampleNumber;
  numberOf_number := fun _ => eq_refl;
  numberOf_undefined := eq_refl;
|}.

#[export] Instance tools : MAMAToolsApi Sample.Store := {|
  save := fun params b =>
    (Returns {| sv_success := true; sv_id := lit "decision_" ++ sp_topic params;
                sv_similar_decisions := None; sv_warning := None;
                sv_collaboration_hint := None |}, b);
  updateOutcome := fun id update b =>
    if Sample.st_saveFails b then (Throws (JError (lit "database is locked")), b)
    else (Returns tt, b);
  suggestAt := fun query options b =>
    (Returns (Some {| sr_query := query; sr_results := Sample.st_hits b |}), b);
|}.

Definition searchParams (query : string) (limit : jsval) : jsval :=
  JObject [(lit "query", JString (lit query)); (lit "limit", limit)].

Definition updateParams (id outcome reason : string) : jsval :=
  JObject [(lit "id", JString (lit id)); (lit "outcome", JString (lit outcome));
           (lit "reason", JString (lit reason))].

End SampleTools.

Import SampleTools.

(** ** Further sample data *)

Definition synthesisReasoning : jsstring :=
  lit "This synthesizes: [idea_1, idea_2] combining multiple approaches for better results".

Definition failingDbStore : Sample.Store :=
  {| Sample.st_checkpoint := None; Sample.st_decisions := []; Sample.st_hits := [];
     Sample.st_clock := 1705320000000; Sample.st_dbFails := true;
     Sample.st_saveFails := false |}.

(** A backend whose checkpoint carries a timestamp that is not a date. *)
Definition undatedCheckpoint : MAMACheckpoint :=
  {| cp_id := 8; cp_summary := lit "imported"; cp_next_steps := None;
     cp_timestamp := lit "yesterday" |}.

Definition undatedStore : Sample.Store :=
  {| Sample.st_checkpoint := Some undatedCheckpoint;
     Sample.st_decisions := [Sample.cacheDecision];
     Sample.st_hits := [Sample.authDecision];
     Sample.st_clock := 1705320000000; Sample.st_dbFails := false;
     Sample.st_saveFails := false |}.

(** The plugin's variables right after a session has started at [now]. *)
Definition sessionStarted (now : jsstring) (s : PluginState) : PluginState :=
  {| initialized := initialized s; mama := mama s; initialDbPath := initialDbPath s;
     compactionOccurred := false; sessionStartedAt := Some now;
     lastUserPrompt := None; lastCompactionAt := None;
     lastAutoCaptureCandidates := [] |}.

(** The session part of the plugin's variables. *)
Definition sessionFields (s : PluginState)
    : option jsstring * option jsstring * option jsstring * list jsstring * bool :=
  (sessionStartedAt s, lastUserPrompt s, lastCompactionAt s,
   lastAutoCaptureCandidates s, compactionOccurred s).

(** An [agent_end] event with the given messages. *)
Definition agentEndEvent (success : jsval) (messages : jsval) : jsval :=
  JObject [(lit "success", success); (lit "messages", messages)].

Definition userMessage (text : jsstring) : jsval :=
  JObject [(lit "role", JString (lit "user")); (lit "content", JString text)].

(** A world in which the plugin is initialised on the sample backend. *)
Definition started (b : Sample.Store) : World Sample.Store :=
  snd (initMAMA None (Sample.fresh b)).

Definition recentStore : Sample.Store :=
  {| Sample.st_checkpoint :=
       Some {| cp_id := 9; cp_summary := lit "wip"; cp_next_steps := None;
               cp_timestamp := lit "1705319940000" |};
     Sample.st_decisions := [Sample.cacheDecision]; Sample.st_hits := [];
     Sample.st_clock := 1705320000000; Sample.st_dbFails := false;
     Sample.st_saveFails := false |}.


(** ** Who assigns what

    The session variables of the plugin and, for each event, the variables
    that its handler may assign. *)
Inductive SessionVar : Type :=
| VSessionStartedAt
| VLastUserPrompt
| VLastCompactionAt
| VLastAutoCaptureCandidates
| VCompactionOccurred.

Definition assigns (ev : HostEvent) (x : SessionVar) : bool :=
  match ev, x with
  | SessionStart _, _ => true
  | BeforeAgentStart _, (VLastUserPrompt | VCompactionOccurred) => true
  | AgentEnd _, VLastAutoCaptureCandidates => true
  | BeforeCompaction _, (VLastCompactionAt | VCompactionOccurred) => true
  | _, _ => false
  end.

Definition sameVar (x : SessionVar) (s s' : PluginState) : Prop :=
  match x with
  | VSessionStartedAt => sessionStartedAt s = sessionStartedAt s'
  | VLastUserPrompt => lastUserPrompt s = lastUserPrompt s'
  | VLastCompactionAt => lastCompactionAt s = lastCompactionAt s'
  | VLastAutoCaptureCandidates =>
      lastAutoCaptureCandidates s = lastAutoCaptureCandidates s'
  | VCompactionOccurred => compactionOccurred s = compactionOccurred s'
  end.

(** ** The decision keywords

    The alternatives of the three decision patterns that are plain
    keywords, and the one that is not. *)
Definition decisionKeywords : list jsstring :=
  [ lit "decided"; [205; 8804; 8734; 207; 8224; 239]%N;
    [207; 209; 8224; 204; 201; 249]%N; lit "chose"; lit "going with";
    lit "will use"; [207; 199; 168; 207; 246; 169; 204; 239; 8224]%N;
    lit "approach"; [206; 8734; 169; 207; 227; 249]%N; lit "strategy";
    lit "remember"; [205; 8719; 8734; 207; 241; 181]%N; lit "learned";
    [206; 8734; 8734; 207; 245; 8224]%N; lit "lesson" ].

(** [text] contains [kw], written in any letter case. *)
Definition mentions (kw text : jsstring) : Prop :=
  ∃ pre m post, text = pre ++ m ++ post ∧ spelled kw m.

(** [text] contains [use], and later on the same line [instead], each in
    any letter case. *)
Definition mentionsUseInstead (text : jsstring) : Prop :=
  ∃ pre u mid i post,
    text = pre ++ u ++ mid ++ i ++ post
    ∧ spelled (lit "use") u
    ∧ Forall (fun c => dot c = true) mid
    ∧ spelled (lit "instead") i.
(* ===================================================================== *)
(** * Properties of the string helpers                                    *)
(* ===================================================================== *)

Lemma length_ellipsis : length (lit "...") = 3.
Proof. reflexivity. Qed.

Lemma truncateText_short (text : jsstring) (maxLen : nat) :
  length text ≤ maxLen → truncateText text maxLen = text.
Proof.
  intros Hle. unfold truncateText.
  destruct (Nat.leb_spec (length text) maxLen); [done | lia].
Qed.

Lemma truncateText_long (text : jsstring) (maxLen : nat) :
  maxLen < length text → truncateText text maxLen = take maxLen text ++ lit "...".
Proof.
  intros Hlt. unfold truncateText.
  destruct (Nat.leb_spec (length text) maxLen); [lia | done].
Qed.

Lemma truncateText_length_bound (text : jsstring) (maxLen : nat) :
  length (truncateText text maxLen) ≤ maxLen + 3.
Proof.
  destruct (Nat.le_gt_cases (length text) maxLen) as [Hle | Hlt].
  - rewrite truncateText_short by done. lia.
  - rewrite truncateText_long by done.
    rewrite length_app, length_take, length_ellipsis. lia.
Qed.

Lemma truncateText_long_length (text : jsstring) (maxLen : nat) :
  maxLen < length text → length (truncateText text maxLen) = maxLen + 3.
Proof.
  intros Hlt. rewrite truncateText_long by done.
  rewrite length_app, length_take, length_ellipsis. lia.
Qed.

Lemma truncateText_prefix (text : jsstring) (maxLen : nat) :
  take maxLen (truncateText text maxLen) = take maxLen text.
Proof.
  destruct (Nat.le_gt_cases (length text) maxLen) as [Hle | Hlt].
  - by rewrite truncateText_short.
  - rewrite truncateText_long by done.
    rewrite take_app_le by (rewrite length_take; lia).
    by rewrite take_take, Nat.min_id.
Qed.

Lemma truncateText_truthy (text : jsstring) (maxLen : nat) :
  truthy text = true → truthy (truncateText text maxLen) = true.
Proof.
  intros Ht. destruct (Nat.le_gt_cases (length text) maxLen) as [Hle | Hlt].
  - by rewrite truncateText_short.
  - rewrite truncateText_long by done.
    destruct (take maxLen text); reflexivity.
Qed.



(* ===================================================================== *)
(** * Checkpoint staleness                                                *)
(* ===================================================================== *)

Lemma isRecentCheckpoint_spec (N T threshold : Z) :
  isRecentCheckpoint N (Some T) threshold = true ↔ (N - T < threshold)%Z.
Proof. unfold isRecentCheckpoint. apply Z.ltb_lt. Qed.

(** C3, as the claim states it, fails at the boundary: with a checkpoint at
    time 0, the clock at 300000 and a threshold equal to the age of the
    checkpoint, the check answers false. *)
Lemma isRecentCheckpoint_boundary_counterexample :
  let T := 0%Z in
  let N := 300000%Z in
  let threshold := defaultThresholdMs in
  (N >= T)%Z ∧ (threshold >= N - T)%Z
  ∧ isRecentCheckpoint N (Some T) threshold = false.
Proof. vm_compute. repeat split; congruence. Qed.

Section Staleness.
Context `{!Host}.

(** C3, amended: for a checkpoint time [T] and a current time [N], the
    staleness check is true for every threshold strictly above [N - T]
    and false for every threshold at or below it; with the default
    threshold of 300000 ms a checkpoint 600000 ms old is not recent.
    [session_end] skips its auto-save exactly when a checkpoint exists
    and is recent for the default threshold. *)
Theorem isRecentCheckpoint_threshold (N T threshold : Z) :
  ((N - T < threshold)%Z → isRecentCheckpoint N (Some T) threshold = true)
  ∧ ((threshold <= N - T)%Z → isRecentCheckpoint N (Some T) threshold = false)
  ∧ ((N - T = 600000)%Z → isRecentCheckpoint N (Some T) defaultThresholdMs = false)
  ∧ shouldSkip None N = false
  ∧ (∀ c, dateParse (cp_timestamp c) = Some T →
       shouldSkip (Some c) N = isRecentCheckpoint N (Some T) defaultThresholdMs).
Proof.
  unfold shouldSkip, isRecentCheckpoint, defaultThresholdMs.
  repeat split; intros; try apply Z.ltb_lt; try apply Z.ltb_ge; try lia.
  by match goal with Hp : dateParse _ = _ |- _ => rewrite Hp end.
Qed.
End Staleness.

Lemma isRecentCheckpoint_threshold_witness :
  isRecentCheckpoint 1705320000000%Z (Some 1705319820000%Z) 300000%Z = true
  ∧ isRecentCheckpoint 1705320000000%Z (Some 1705319820000%Z) 120000%Z = false
  ∧ isRecentCheckpoint 1705320000000%Z (Some 1705319400000%Z) defaultThresholdMs = false
  ∧ shouldSkip (Some Sample.doneCheckpoint) 1705320000000%Z = false.
Proof.
  split; [| split; [| split]].
  - destruct (isRecentCheckpoint_threshold 1705320000000 1705319820000 300000)
      as (Hrecent & _). apply Hrecent. lia.
  - destruct (isRecentCheckpoint_threshold 1705320000000 1705319820000 120000)
      as (_ & Hstale & _). apply Hstale. lia.
  - destruct (isRecentCheckpoint_threshold 1705320000000 1705319400000 0)
      as (_ & _ & Hdefault & _). apply Hdefault. lia.
  - destruct (isRecentCheckpoint_threshold 1705320000000 1705319400000 0)
      as (_ & _ & Hdefault & _ & Hskip).
    rewrite (Hskip Sample.doneCheckpoint) by reflexivity. apply Hdefault. lia.
Defined.

(* ===================================================================== *)
(** * The auto-capture candidates                                         *)
(* ===================================================================== *)

Lemma insertCandidate_present (c : jsstring) (l : list jsstring) :
  c ∈ l → insertCandidate c l = l.
Proof. intros Hin. unfold insertCandidate. by rewrite bool_decide_eq_true_2. Qed.

Lemma insertCandidate_fresh (c : jsstring) (l : list jsstring) :
  c ∉ l → insertCandidate c l = take 3 (c :: l).
Proof. intros Hin. unfold insertCandidate. by rewrite bool_decide_eq_false_2. Qed.

Lemma insertCandidate_sublist (c : jsstring) (l : list jsstring) :
  insertCandidate c l `sublist_of` c :: l.
Proof.
  unfold insertCandidate. case_bool_decide.
  - by apply sublist_cons.
  - apply sublist_take.
Qed.

Lemma insertCandidate_length (c : jsstring) (l : list jsstring) :
  length l ≤ 3 → length (insertCandidate c l) ≤ 3.
Proof.
  intros Hlen. unfold insertCandidate. case_bool_decide; [done |].
  rewrite length_take. lia.
Qed.

Lemma insertCandidate_NoDup (c : jsstring) (l : list jsstring) :
  NoDup l → NoDup (insertCandidate c l).
Proof.
  intros Hnd. unfold insertCandidate. case_bool_decide; [done |].
  eapply sublist_NoDup; [| apply sublist_take]. by apply NoDup_cons.
Qed.

Lemma insertAll_cons (c : jsstring) (cs l : list jsstring) :
  insertAll (c :: cs) l = insertAll cs (insertCandidate c l).
Proof. reflexivity. Qed.

Lemma insertAll_app (cs1 cs2 l : list jsstring) :
  insertAll (cs1 ++ cs2) l = insertAll cs2 (insertAll cs1 l).
Proof. unfold insertAll. apply foldl_app. Qed.

Lemma insertAll_invariant (cs l : list jsstring) :
  length l ≤ 3 → NoDup l →
  length (insertAll cs l) ≤ 3 ∧ NoDup (insertAll cs l).
Proof.
  revert l. induction cs as [| c cs IH]; intros l Hlen Hnd; [done |].
  rewrite insertAll_cons. apply IH.
  - by apply insertCandidate_length.
  - by apply insertCandidate_NoDup.
Qed.

Lemma insertAll_sublist (cs l : list jsstring) :
  insertAll cs l `sublist_of` rev cs ++ l.
Proof.
  revert l. induction cs as [| c cs IH]; intros l; [done |].
  rewrite insertAll_cons. etrans; [apply IH |].
  simpl. rewrite <- app_assoc. apply sublist_app; [done |].
  apply insertCandidate_sublist.
Qed.

Lemma take_app_take {A : Type} (n : nat) (l1 l2 : list A) :
  take n (l1 ++ take n l2) = take n (l1 ++ l2).
Proof.
  rewrite !take_app, take_take. f_equal. f_equal. lia.
Qed.

Lemma insertAll_distinct (cs l : list jsstring) :
  NoDup cs → (∀ c, c ∈ cs → c ∉ l) → length l ≤ 3 →
  insertAll cs l = take 3 (rev cs ++ l).
Proof.
  revert l. induction cs as [| c cs IH]; intros l Hnd Hfresh Hlen.
  - simpl. by rewrite take_ge.
  - apply NoDup_cons in Hnd as [Hc Hnd].
    rewrite insertAll_cons, insertCandidate_fresh by (apply Hfresh; left).
    rewrite IH; [| done | | rewrite length_take; lia].
    + rewrite take_app_take. simpl. by rewrite <- app_assoc.
    + intros d Hd Hin. apply elem_of_take in Hin as (i & Hin & _).
      apply list_elem_of_lookup_2, elem_of_cons in Hin as [-> | Hin]; [done |].
      eapply Hfresh; [right; exact Hd | done].
Qed.

(* ===================================================================== *)
(** * Reasoning about handlers                                            *)
(* ===================================================================== *)

Section Frame.
Context {B : Type}.

Lemma bind_returns {A C : Type} (m : M B A) (k : A → M B C) w a w1 :
  m w = (Returns a, w1) → bind m k w = k a w1.
Proof. intros Hm. unfold bind. by rewrite Hm. Qed.

Lemma bind_throws {A C : Type} (m : M B A) (k : A → M B C) w e w1 :
  m w = (Throws e, w1) → bind m k w = (Throws e, w1).
Proof. intros Hm. unfold bind. by rewrite Hm. Qed.

Lemma bind_assoc {A C D : Type} (m : M B A) (k : A → M B C) (k' : C → M B D) w :
  bind (bind m k) k' w = bind m (fun a => bind (k a) k') w.
Proof. unfold bind. by destruct (m w) as [[a | e] w1]. Qed.

Lemma tryCatch_returns {A : Type} (m : M B A) (h : jsval → M B A) w a w1 :
  m w = (Returns a, w1) → tryCatch m h w = (Returns a, w1).
Proof. intros Hm. unfold tryCatch. by rewrite Hm. Qed.

Lemma tryCatch_throws {A : Type} (m : M B A) (h : jsval → M B A) w e w1 :
  m w = (Throws e, w1) → tryCatch m h w = h e w1.
Proof. intros Hm. unfold tryCatch. by rewrite Hm. Qed.

Lemma tryCatch_bind_returns {A C : Type} (m : M B A) (k : A → M B C)
    (h : jsval → M B C) w a w1 :
  m w = (Returns a, w1) → tryCatch (bind m k) h w = tryCatch (k a) h w1.
Proof. intros Hm. unfold tryCatch, bind. by rewrite Hm. Qed.

Lemma tryCatch_bind_throws {A C : Type} (m : M B A) (k : A → M B C)
    (h : jsval → M B C) w e w1 :
  m w = (Throws e, w1) → tryCatch (bind m k) h w = h e w1.
Proof. intros Hm. unfold tryCatch, bind. by rewrite Hm. Qed.

Section Rules.
Context (P : PluginState → option jsstring → Prop).

Lemma preserves_ret {A : Type} (a : A) : preserves (B := B) P (ret a).
Proof. by intros w. Qed.

Lemma preserves_throw {A : Type} (e : jsval) : preserves (B := B) P (@throw B A e).
Proof. by intros w. Qed.

Lemma preserves_bind {A C : Type} (m : M B A) (k : A → M B C) :
  preserves (B := B) P m → (∀ a, preserves (B := B) P (k a)) → preserves (B := B) P (bind m k).
Proof.
  intros Hm Hk w HP. specialize (Hm w HP). unfold bind.
  destruct (m w) as [[a | e] w1]; simpl in *; [by apply Hk | done].
Qed.

Lemma preserves_tryCatch {A : Type} (m : M B A) (h : jsval → M B A) :
  preserves (B := B) P m → (∀ e, preserves (B := B) P (h e)) → preserves (B := B) P (tryCatch m h).
Proof.
  intros Hm Hh w HP. specialize (Hm w HP). unfold tryCatch.
  destruct (m w) as [[a | e] w1]; simpl in *; [done | by apply Hh].
Qed.

Lemma preserves_gets {A : Type} (f : PluginState → A) : preserves (B := B) P (gets f).
Proof. by intros w. Qed.

Lemma preserves_getEnv : preserves (B := B) P getEnv.
Proof. by intros w. Qed.

Lemma preserves_emit (l : LogLevel) (a : list jsstring) : preserves (B := B) P (emit l a).
Proof. by intros w. Qed.

Lemma preserves_call {A : Type} (op : B → outcome A * B) : preserves (B := B) P (call op).
Proof. intros w HP. unfold call. by destruct (op (backend w)). Qed.

Lemma preserves_read {A : Type} (f : World B → A) :
  preserves (B := B) P (fun w => (Returns (f w), w)).
Proof. by intros w. Qed.

Lemma preserves_modify (f : PluginState → PluginState) :
  (∀ s env, P s env → P (f s) env) → preserves (B := B) P (modify f).
Proof. intros Hf w HP. by apply Hf. Qed.

Lemma preserves_setEnv (v : jsstring) :
  (∀ s env, P s env → P s (Some v)) → preserves (B := B) P (setEnv v).
Proof. intros Hf w HP. by eapply Hf. Qed.

Lemma preserves_forEach {A : Type} (xs : list A) (body : A → M B unit) :
  (∀ x, preserves (B := B) P (body x)) → preserves (B := B) P (forEach xs body).
Proof.
  intros Hbody. induction xs as [| x xs IH]; simpl.
  - apply preserves_ret.
  - apply preserves_bind; [apply Hbody | intros _; apply IH].
Qed.
End Rules.
End Frame.

(** Decompose a handler along its control structure; what remains are the
    assignments to the plugin's variables and the calls of [initMAMA]. *)
Ltac frame_step :=
  lazymatch goal with
  | |- preserves _ (bind _ _) => apply preserves_bind; [| intros ?]
  | |- preserves _ (tryCatch _ _) => apply preserves_tryCatch; [| intros ?]
  | |- preserves _ (forEach _ _) => apply preserves_forEach; intros ?
  | |- preserves _ (ret _) => apply preserves_ret
  | |- preserves _ (throw _) => apply preserves_throw
  | |- preserves _ (gets _) => apply preserves_gets
  | |- preserves _ getEnv => apply preserves_getEnv
  | |- preserves _ (emit _ _) => apply preserves_emit
  | |- preserves _ (call _) => apply preserves_call
  | |- preserves _ (fun w => (Returns _, w)) => apply preserves_read
  | |- preserves _ (if ?b then _ else _) => destruct b
  | |- preserves _ (match ?o with _ => _ end) => destruct o
  end.

Ltac frame := repeat frame_step.

Section InitFacts.
Context {B : Type} `{!MAMAApi B} `{!Host}.

Lemma orElse_truthy (a : option jsstring) (b : jsstring) :
  truthy b = true → truthy (orElse a b) = true.
Proof.
  intros Hb. unfold orElse. destruct a as [s |]; [| done].
  by destruct (truthy s) eqn:Hs.
Qed.

Lemma resolveDbPath_truthy (config : option PluginConfig) (env : option jsstring) :
  truthy (resolveDbPath config env) = true.
Proof. unfold resolveDbPath. apply orElse_truthy, orElse_truthy, defaultDbPath_truthy. Qed.

(** Once initialised, a call changes nothing but the console, where it
    leaves a warning exactly when it asks for another path. *)
Lemma initMAMA_again (config : option PluginConfig) (p : jsstring) (w : World B) :
  initializedWith p (vars w) (envMamaDbPath w) →
  initMAMA config w =
    (Returns tt,
     {| vars := vars w; envMamaDbPath := envMamaDbPath w;
        console := console w ++ reinitLog p config; backend := backend w |}).
Proof.
  intros (Hinit & _ & Hpath & Henv & Hp).
  destruct w as [s env out b]. simpl in *. subst env.
  unfold initMAMA, bind, getEnv, gets, reinitLog. simpl.
  rewrite Hinit. simpl. rewrite Hpath. simpl. rewrite Hp. simpl.
  case_bool_decide as Hreq.
  - rewrite bool_decide_eq_true_2 by congruence. simpl.
    by rewrite app_nil_r.
  - rewrite bool_decide_eq_false_2 by congruence. reflexivity.
Qed.

(** A call that finds the plugin uninitialised and returns has loaded the
    backend and fixed the storage path it resolved. *)
Lemma initMAMA_first (config : option PluginConfig) (w w1 : World B) :
  initialized (vars w) = false →
  initMAMA config w = (Returns tt, w1) →
  initializedWith (resolveDbPath config (envMamaDbPath w)) (vars w1) (envMamaDbPath w1).
Proof.
  intros Hinit. unfold initMAMA, bind, getEnv, gets, setEnv, tryCatch, call, modify,
    consoleLog, consoleError, emit, throw. simpl. rewrite Hinit. simpl.
  destruct (requireMamaApi (backend w)) as [[[] | e1] b1]; simpl; [| done].
  destruct (requireMemoryStore b1) as [[[] | e2] b2]; simpl; [| done].
  destruct (initDB b2) as [[[] | e3] b3]; simpl; [| done].
  intros [= <-]. simpl. repeat split. apply resolveDbPath_truthy.
Qed.

(** [initMAMA] only writes [initialized], [mama] and [initialDbPath]. *)
Lemma initMAMA_keeps {X : Type} (g : PluginState → X) (Q : X → Prop)
    (config : option PluginConfig) :
  (∀ v s, g (set_mama v s) = g s) →
  (∀ v s, g (set_initialized v s) = g s) →
  (∀ v s, g (set_initialDbPath v s) = g s) →
  preserves (B := B) (fun s _ => Q (g s)) (initMAMA config).
Proof.
  intros Hmama Hinit Hpath. unfold initMAMA, consoleWarn, consoleLog, consoleError.
  frame.
  all: try (apply preserves_setEnv; by intros).
  all: apply preserves_modify; intros s _;
    by rewrite ?Hmama, ?Hinit, ?Hpath.
Qed.
End InitFacts.

(* ===================================================================== *)
(** * Invariants of the event handlers                                    *)
(* ===================================================================== *)

Section Lifetime.
Context {B : Type} `{!MAMAApi B} `{!Host}.

Ltac assignment HP :=
  apply preserves_modify; intros ? ? ?;
  first [ by apply (inv_sessionStartedAt _ HP)
        | by apply (inv_promptCleared _ HP)
        | by apply (inv_lastCompactionAt _ HP)
        | by apply (inv_candidatesCleared _ HP)
        | by apply (inv_candidateInserted _ HP)
        | by apply (inv_compactionOccurred _ HP) ].

Ltac handler HP :=
  frame; first [ apply (inv_init _ HP) | assignment HP ].

Section Handlers.
Context (P : PluginState → option jsstring → Prop).
Context (config : option PluginConfig) (event : jsval).

Lemma session_start_invariant :
  PluginInvariant (B := B) P → preserves P (session_start config event).
Proof.
  intros HP.
  unfold session_start, getMAMA, nowISO, consoleLog, consoleError. handler HP.
Qed.

Lemma before_agent_start_invariant :
  PluginInvariant (B := B) P → preserves P (before_agent_start config event).
Proof.
  intros HP.
  unfold before_agent_start, recallPrelude, getMAMA, gatherRecall, recallSearch,
    takeCompactionNote, injectContext, renderContext, timestampISO, recallFailed,
    consoleError, consoleLog.
  frame.
  - apply (inv_init _ HP).
  - apply preserves_modify. intros s env Hs.
    destruct (truthy (eventPrompt event)) eqn:Hprompt.
    + by apply (inv_promptRecorded _ HP).
    + by apply (inv_promptCleared _ HP).
  - assignment HP.
Qed.

Lemma agent_end_invariant :
  PluginInvariant (B := B) P → preserves P (agent_end config event).
Proof.
  intros HP.
  unfold agent_end, captureStep, consoleError, consoleLog. handler HP.
Qed.

Lemma session_end_invariant :
  PluginInvariant (B := B) P → preserves P (session_end config event).
Proof.
  intros HP.
  unfold session_end, getMAMA, nowISO, consoleError, consoleLog. handler HP.
Qed.

Lemma before_compaction_invariant :
  PluginInvariant (B := B) P → preserves P (before_compaction config event).
Proof.
  intros HP.
  unfold before_compaction, getMAMA, nowISO, consoleError, consoleLog. handler HP.
Qed.

Lemma after_compaction_invariant :
  PluginInvariant (B := B) P → preserves P (after_compaction config event).
Proof.
  intros HP.
  unfold after_compaction, getMAMA, consoleError, consoleLog. handler HP.
Qed.
End Handlers.

Lemma deliver_invariant (P : PluginState → option jsstring → Prop)
    (config : option PluginConfig) (ev : HostEvent) (w : World B) :
  PluginInvariant (B := B) P →
  P (vars w) (envMamaDbPath w) →
  P (vars (deliver config ev w)) (envMamaDbPath (deliver config ev w)).
Proof.
  intros HP. destruct ev as [event | event | event | event | event | event]; simpl.
  - by apply session_start_invariant.
  - by apply before_agent_start_invariant.
  - by apply agent_end_invariant.
  - by apply session_end_invariant.
  - by apply before_compaction_invariant.
  - by apply after_compaction_invariant.
Qed.

Lemma deliverAll_invariant (P : PluginState → option jsstring → Prop)
    (config : option PluginConfig) (events : list HostEvent) (w : World B) :
  PluginInvariant (B := B) P →
  P (vars w) (envMamaDbPath w) →
  P (vars (deliverAll config events w)) (envMamaDbPath (deliverAll config events w)).
Proof.
  intros HP. revert w. induction events as [| ev events IH]; intros w Hw; [done |].
  simpl. apply IH. by apply deliver_invariant.
Qed.

(** Once initialised with [p], initialised with [p] for good. *)
Lemma initializedWith_invariant (p : jsstring) :
  PluginInvariant (B := B) (initializedWith p).
Proof.
  split; try (intros; assumption).
  intros config w Hw. by rewrite (initMAMA_again config p w Hw).
Qed.

Lemma promptOk_invariant :
  PluginInvariant (B := B) (fun s _ => promptOk (lastUserPrompt s)).
Proof.
  split; try (intros; assumption).
  - intros config. apply (initMAMA_keeps lastUserPrompt promptOk); done.
  - intros s env _ stored [=].
  - intros prompt s env Hprompt _ stored [= <-]. split.
    + by apply truncateText_truthy.
    + apply truncateText_length_bound.
Qed.

Lemma candidatesOk_invariant :
  PluginInvariant (B := B) (fun s _ => candidatesOk (lastAutoCaptureCandidates s)).
Proof.
  split; try (intros; assumption).
  - intros config. apply (initMAMA_keeps lastAutoCaptureCandidates candidatesOk); done.
  - intros s env _. split; [simpl; lia | constructor].
  - intros c s env [Hlen Hnd]. split.
    + by apply insertCandidate_length.
    + by apply insertCandidate_NoDup.
Qed.

End Lifetime.

Section InitOnce.
Context {B : Type} `{!MAMAApi B} `{!Host}.

Lemma initCalls_again (p : jsstring) (configs : list (option PluginConfig))
    (w : World B) :
  initializedWith p (vars w) (envMamaDbPath w) →
  initCalls configs w =
    {| vars := vars w; envMamaDbPath := envMamaDbPath w;
       console := console w ++ flat_map (reinitLog p) configs;
       backend := backend w |}.
Proof.
  revert w. induction configs as [| config configs IH]; intros w Hw.
  - simpl. rewrite app_nil_r. by destruct w.
  - simpl. rewrite (initMAMA_again config p w Hw). simpl.
    rewrite IH by done. simpl. by rewrite <- app_assoc.
Qed.

(** C2: when a call of [initMAMA] finds the plugin uninitialised and
    succeeds, the storage path [p] it resolved is recorded, and through
    every later sequence of calls, whatever path each asks for, the
    plugin's variables, the environment variable and the backend stay as
    that first call left them: no later call initialises again, every
    later call returns, and a later call leaves a warning on the console
    exactly when the path it asks for differs from [p]; the events that
    the host delivers afterwards do not change the recorded path either. *)
Theorem initMAMA_once (config : option PluginConfig)
    (configs : list (option PluginConfig)) (w : World B) :
  initialized (vars w) = false →
  fst (initMAMA config w) = Returns tt →
  let p := resolveDbPath config (envMamaDbPath w) in
  let w1 := snd (initMAMA config w) in
  let wn := initCalls configs w1 in
  (initialized (vars w1) = true ∧ initialDbPath (vars w1) = Some p
   ∧ envMamaDbPath w1 = Some p)
  ∧ (vars wn = vars w1 ∧ envMamaDbPath wn = Some p ∧ backend wn = backend w1)
  ∧ console wn = console w1 ++ flat_map (reinitLog p) configs
  ∧ (∀ later,
       initMAMA later wn =
         (Returns tt,
          {| vars := vars w1; envMamaDbPath := Some p;
             console := console wn ++ reinitLog p later; backend := backend w1 |}))
  ∧ (∀ later,
       (resolveDbPath later (Some p) = p → reinitLog p later = [])
       ∧ (resolveDbPath later (Some p) ≠ p →
          reinitLog p later =
            [{| level := LevelWarn;
                args := [reinitWarning (resolveDbPath later (Some p)) p] |}]))
  ∧ (∀ registered events,
       let wl := deliverAll registered events wn in
       initialized (vars wl) = true ∧ initialDbPath (vars wl) = Some p
       ∧ envMamaDbPath wl = Some p).
Proof.
  intros Hfresh Hret p w1 wn.
  assert (Hw1 : initializedWith p (vars w1) (envMamaDbPath w1)).
  { apply (initMAMA_first config w w1 Hfresh).
    subst w1. destruct (initMAMA config w) as [r w']. simpl in *. by subst r. }
  assert (Hwn : wn = {| vars := vars w1; envMamaDbPath := envMamaDbPath w1;
                        console := console w1 ++ flat_map (reinitLog p) configs;
                        backend := backend w1 |})
    by apply (initCalls_again p configs w1 Hw1).
  assert (Hlife : ∀ registered events,
            initializedWith p (vars (deliverAll registered events wn))
              (envMamaDbPath (deliverAll registered events wn))).
  { intros registered events.
    apply deliverAll_invariant; [apply initializedWith_invariant |].
    by rewrite Hwn. }
  destruct Hw1 as (Hinit & Hmama & Hpath & Henv & Hp).
  split; [done |]. rewrite Hwn. simpl. split; [done |]. split; [done |].
  split; [| split].
  - intros later. rewrite initMAMA_again with (p := p); [by rewrite Henv |].
    by repeat split.
  - intros later. unfold reinitLog. split; intros Hreq.
    + by rewrite bool_decide_eq_true_2.
    + by rewrite bool_decide_eq_false_2.
  - intros registered events. rewrite <- Hwn.
    by destruct (Hlife registered events) as (? & _ & ? & ? & _).
Qed.
End InitOnce.

Lemma initMAMA_once_witness :
  let w := Sample.fresh Sample.emptyStore in
  let first := Sample.configWith "/data/a.db" in
  let later := [Sample.configWith "/data/b.db"; None; Sample.configWith "/data/a.db"] in
  let w1 := snd (initMAMA first w) in
  let wn := initCalls later w1 in
  initialDbPath (vars wn) = Some (lit "/data/a.db")
  ∧ envMamaDbPath wn = Some (lit "/data/a.db")
  ∧ console wn =
      console w1
      ++ [{| level := LevelWarn;
             args := [reinitWarning (lit "/data/b.db") (lit "/data/a.db")] |}].
Proof.
  intros w first later w1 wn.
  assert (Hfresh : initialized (vars w) = false) by reflexivity.
  assert (Hret : fst (initMAMA first w) = Returns tt) by (vm_compute; reflexivity).
  destruct (initMAMA_once first later w Hfresh Hret)
    as ((_ & Hpath & _) & (Hvars & Henv & _) & Hconsole & _).
  fold w1 in Hpath, Hvars, Henv, Hconsole. fold wn in Hvars, Henv, Hconsole.
  split; [| split].
  - rewrite Hvars. exact Hpath.
  - exact Henv.
  - rewrite Hconsole. reflexivity.
Defined.

(* ===================================================================== *)
(** * Auto-recall: [before_agent_start]                                   *)
(* ===================================================================== *)

Section AutoRecall.
Context {B : Type} `{!MAMAApi B} `{!Host}.

(** The handler along its three phases. *)
Lemma before_agent_start_phases (config : option PluginConfig) (event : jsval)
    (w : World B) :
  before_agent_start config event w =
    match recallPrelude config event w with
    | (Throws e, w1) => recallFailed e w1
    | (Returns prompt, w1) =>
        match gatherRecall prompt w1 with
        | (Throws e, w2) => recallFailed e w2
        | (Returns inp, w2) => tryCatch (injectContext inp) recallFailed w2
        end
    end.
Proof.
  unfold before_agent_start.
  destruct (recallPrelude config event w) as [[prompt | e] w1] eqn:Hpre.
  - rewrite (tryCatch_bind_returns _ _ _ _ _ _ Hpre).
    destruct (gatherRecall prompt w1) as [[inp | e] w2] eqn:Hgather.
    + by rewrite (tryCatch_bind_returns _ _ _ _ _ _ Hgather).
    + by rewrite (tryCatch_bind_throws _ _ _ _ _ _ Hgather).
  - by rewrite (tryCatch_bind_throws _ _ _ _ _ _ Hpre).
Qed.

Lemma recallFailed_returns (e : jsval) (w : World B) :
  fst (recallFailed e w) = Returns None.
Proof. reflexivity. Qed.

Lemma hasMemories_true (inp : RecallInputs) :
  hasMemories inp = true →
  is_Some (checkpoint inp) ∨ semanticResults inp ≠ [] ∨ recentDecisions inp ≠ [].
Proof.
  unfold hasMemories. intros Hm.
  apply orb_true_iff in Hm as [Hm | Hm]; [apply orb_true_iff in Hm as [Hm | Hm] |].
  - left. destruct (checkpoint inp); [by eexists | done].
  - right; left. by destruct (semanticResults inp).
  - right; right. by destruct (recentDecisions inp).
Qed.

Lemma hasMemories_false (inp : RecallInputs) :
  checkpoint inp = None → semanticResults inp = [] → recentDecisions inp = [] →
  hasMemories inp = false.
Proof. unfold hasMemories. by intros -> -> ->. Qed.

(** What step 5 returns. *)
Lemma injectContext_result (inp : RecallInputs) (w2 : World B) :
  (hasMemories inp = false ∧ tryCatch (injectContext inp) recallFailed w2 = (Returns None, w2))
  ∨ (hasMemories inp = true
     ∧ fst (tryCatch (injectContext inp) recallFailed w2) = Returns None)
  ∨ (hasMemories inp = true
     ∧ ∃ cpText, checkpointTextOf (checkpoint inp) cpText
         ∧ fst (tryCatch (injectContext inp) recallFailed w2) =
             Returns (Some (contextHeader ++ semanticSection (semanticResults inp)
                            ++ cpText ++ recentSection (recentDecisions inp)
                            ++ compactionNote inp ++ contextFooter))).
Proof.
  unfold injectContext. fold (hasMemories inp).
  destruct (hasMemories inp) eqn:Hm; [right | by left].
  unfold renderContext, checkpointTextOf.
  destruct (checkpoint inp) as [c |].
  - unfold timestampISO. destruct (dateParse (cp_timestamp c)) as [t |] eqn:Ht.
    + right. split; [done |]. eexists. split; [by exists t |]. reflexivity.
    + left. by split.
  - right. split; [done |]. by exists [].
Qed.

(** Step 3 lists the recent decisions only when the search found nothing. *)
Lemma gatherRecall_exclusive (prompt : jsstring) (w1 w2 : World B) (inp : RecallInputs) :
  gatherRecall prompt w1 = (Returns inp, w2) →
  semanticResults inp ≠ [] → recentDecisions inp = [].
Proof.
  unfold gatherRecall, bind.
  destruct (recallSearch prompt w1) as [[semantic | e] wa]; [| done].
  destruct (call loadCheckpoint wa) as [[cp | e] wb]; [| done].
  destruct semantic as [| r semantic]; simpl.
  - destruct (call (listDecisions 3) wb) as [[recent | e] wc]; [| done].
    destruct (takeCompactionNote wc) as [[note | e] wd]; [| done].
    by intros [= <- <-].
  - destruct (takeCompactionNote wb) as [[note | e] wd]; [| done].
    by intros [= <- <-].
Qed.

(** C1: every invocation of the [before_agent_start] handler completes
    without throwing; it returns a context only if the checkpoint it
    loaded, the semantic results or the recent decisions it collected are
    not all empty; and when it has collected no checkpoint and two empty
    lists it returns nothing. *)
Theorem before_agent_start_injects_only_memories (config : option PluginConfig)
    (event : jsval) (w : World B) :
  ∃ r, fst (before_agent_start config event w) = Returns r
  ∧ (∀ content, r = Some content →
       ∃ prompt w1 inp w2,
         recallPrelude config event w = (Returns prompt, w1)
         ∧ gatherRecall prompt w1 = (Returns inp, w2)
         ∧ (is_Some (checkpoint inp) ∨ semanticResults inp ≠ []
            ∨ recentDecisions inp ≠ []))
  ∧ (∀ prompt w1 inp w2,
       recallPrelude config event w = (Returns prompt, w1) →
       gatherRecall prompt w1 = (Returns inp, w2) →
       checkpoint inp = None → semanticResults inp = [] → recentDecisions inp = [] →
       r = None).
Proof.
  rewrite before_agent_start_phases.
  destruct (recallPrelude config event w) as [[prompt | e] w1] eqn:Hpre.
  2: { exists None. split; [done |]. split; [done | by intros]. }
  destruct (gatherRecall prompt w1) as [[inp | e] w2] eqn:Hgather.
  2: { exists None. split; [done |]. split; [done | by intros]. }
  destruct (injectContext_result inp w2) as [[Hm Hr] | [[Hm Hr] | [Hm (cpText & Hcp & Hr)]]].
  - exists None. rewrite Hr. split; [done |]. split; [done | by intros].
  - exists None. rewrite Hr. split; [done |]. split; [done | by intros].
  - eexists. split; [exact Hr |]. split.
    + intros content _. exists prompt, w1, inp, w2.
      repeat split; [done.. |]. by apply hasMemories_true.
    + intros prompt' w1' inp' w2' [= <- <-] Hg. rewrite Hgather in Hg.
      injection Hg as <- <-. intros Hc Hs Hrec.
      by rewrite hasMemories_false in Hm.
Qed.

(** C4: the context that [before_agent_start] returns is the header, the
    section of the semantic matches, the section of the checkpoint, the
    section of the recent decisions, the compaction note and the footer,
    in this order; when the search returned a match the list of recent
    decisions was not requested, is empty and has no section, whatever
    the backend holds, so a recent-decisions section is present only with
    an empty list of semantic matches. *)
Theorem recent_section_excluded_by_semantic_matches (config : option PluginConfig)
    (event : jsval) (w : World B) (content : jsstring) :
  fst (before_agent_start config event w) = Returns (Some content) →
  ∃ prompt w1 inp w2 cpText,
    recallPrelude config event w = (Returns prompt, w1)
    ∧ gatherRecall prompt w1 = (Returns inp, w2)
    ∧ checkpointTextOf (checkpoint inp) cpText
    ∧ content = contextHeader ++ semanticSection (semanticResults inp) ++ cpText
                ++ recentSection (recentDecisions inp) ++ compactionNote inp
                ++ contextFooter
    ∧ (semanticResults inp ≠ [] →
       recentDecisions inp = [] ∧ recentSection (recentDecisions inp) = []
       ∧ content = contextHeader ++ semanticSection (semanticResults inp) ++ cpText
                   ++ compactionNote inp ++ contextFooter)
    ∧ (recentSection (recentDecisions inp) ≠ [] → semanticResults inp = []).
Proof.
  rewrite before_agent_start_phases.
  destruct (recallPrelude config event w) as [[prompt | e] w1] eqn:Hpre; [| done].
  destruct (gatherRecall prompt w1) as [[inp | e] w2] eqn:Hgather; [| done].
  destruct (injectContext_result inp w2) as [[Hm Hr] | [[Hm Hr] | [Hm (cpText & Hcp & Hr)]]].
  - by rewrite Hr.
  - by rewrite Hr.
  - rewrite Hr. intros [= <-]. exists prompt, w1, inp, w2, cpText.
    pose proof (gatherRecall_exclusive prompt w1 w2 inp Hgather) as Hexcl.
    do 4 (split; [done |]). split.
    + intros Hsem. rewrite (Hexcl Hsem). by repeat split.
    + intros Hrecent. destruct (semanticResults inp) as [| r rs] eqn:Hsem; [done |].
      rewrite Hexcl in Hrecent; done.
Qed.
End AutoRecall.

Lemma before_agent_start_injects_only_memories_witness :
  fst (before_agent_start None (Sample.promptEvent (lit "auth strategy"))
         (Sample.fresh Sample.emptyStore)) = Returns None.
Proof.
  destruct (before_agent_start_injects_only_memories None
              (Sample.promptEvent (lit "auth strategy")) (Sample.fresh Sample.emptyStore))
    as (r & Hr & _ & Hnone).
  rewrite Hr. f_equal.
  eapply Hnone; [vm_compute; reflexivity | vm_compute; reflexivity | reflexivity..].
Defined.

Lemma recent_section_excluded_by_semantic_matches_witness :
  sampleRecall = Returns (Some sampleContent)
  ∧ (∃ inp cpText,
       sampleContent = contextHeader ++ semanticSection (semanticResults inp) ++ cpText
                       ++ recentSection (recentDecisions inp) ++ compactionNote inp
                       ++ contextFooter
       ∧ (recentSection (recentDecisions inp) ≠ [] → semanticResults inp = []))
  ∧ includes sampleContent semanticHeading = true
  ∧ includes sampleContent (lit "## Last Checkpoint") = true
  ∧ includes sampleContent recentHeading = false.
Proof.
  assert (Hrun : sampleRecall = Returns (Some sampleContent)) by (vm_compute; reflexivity).
  split; [exact Hrun |]. split.
  - destruct (recent_section_excluded_by_semantic_matches None
                (Sample.promptEvent (lit "auth strategy")) (Sample.fresh Sample.fullStore)
                sampleContent Hrun)
      as (prompt & w1 & inp & w2 & cpText & _ & _ & _ & Hcontent & _ & Hrecent).
    exists inp, cpText. split; [exact Hcontent | exact Hrecent].
  - split; [| split]; vm_compute; reflexivity.
Defined.

(* ===================================================================== *)
(** * The recorded prompt and the compaction flag                         *)
(* ===================================================================== *)

Section SessionState.
Context {B : Type} `{!MAMAApi B} `{!Host}.

(** Steps 1 to 5 of [before_agent_start] and its [catch] block write none
    of the plugin's variables but [compactionOccurred]. *)
Lemma recall_rest_keeps {X : Type} (g : PluginState → X) (Q : X → Prop)
    (prompt : jsstring) :
  (∀ v s, g (set_compactionOccurred v s) = g s) →
  preserves (B := B) (fun s _ => Q (g s))
    (tryCatch
       (userPrompt <- (getMAMA ;; ret prompt) ;;
        inp <- gatherRecall userPrompt ;;
        injectContext inp)
       recallFailed).
Proof.
  intros Hflag.
  unfold getMAMA, gatherRecall, recallSearch, takeCompactionNote, injectContext,
    renderContext, timestampISO, recallFailed, consoleError, consoleLog.
  frame.
  all: apply preserves_modify; intros s _; by rewrite Hflag.
Qed.

Lemma before_agent_start_after_init (config : option PluginConfig) (event : jsval)
    (w w1 : World B) :
  initMAMA config w = (Returns tt, w1) →
  let stored := if truthy (eventPrompt event)
                then Some (truncateText (eventPrompt event) 200) else None in
  before_agent_start config event w =
    tryCatch
      (userPrompt <- (getMAMA ;; ret (eventPrompt event)) ;;
       inp <- gatherRecall userPrompt ;;
       injectContext inp)
      recallFailed
      {| vars := set_lastUserPrompt stored (vars w1);
         envMamaDbPath := envMamaDbPath w1; console := console w1;
         backend := backend w1 |}.
Proof.
  intros Hinit stored. unfold before_agent_start, recallPrelude, tryCatch.
  rewrite !bind_assoc. rewrite (bind_returns _ _ _ _ _ Hinit). cbv beta.
  rewrite !bind_assoc.
  rewrite (bind_returns (modify (set_lastUserPrompt stored)) _ w1 tt _ eq_refl).
  cbv beta. by rewrite !bind_assoc.
Qed.

Lemma before_agent_start_init_failed (config : option PluginConfig) (event : jsval)
    (w w1 : World B) (e : jsval) :
  initMAMA config w = (Throws e, w1) →
  before_agent_start config event w = recallFailed e w1.
Proof.
  intros Hinit. unfold before_agent_start, recallPrelude, tryCatch.
  rewrite !bind_assoc. by rewrite (bind_throws _ _ _ _ _ Hinit).
Qed.

(** C8, amended: after a [before_agent_start] event whose initialisation
    succeeds, [lastUserPrompt] is absent when the event carries no
    non-empty prompt string and is otherwise [truncateText(prompt, 200)]:
    the prompt itself when it has at most 200 characters, else its first
    200 characters followed by the three-character ellipsis, so a stored
    prompt has at most 203 characters; when initialisation fails the event
    leaves [lastUserPrompt] as it was.  Hence after any sequence of events a
    recorded prompt is not empty and has at most 203 characters. *)
Theorem lastUserPrompt_after_before_agent_start (config : option PluginConfig)
    (event : jsval) (w : World B) :
  let w' := snd (before_agent_start config event w) in
  let prompt := eventPrompt event in
  (∀ w1, initMAMA config w = (Returns tt, w1) →
     lastUserPrompt (vars w') =
       if truthy prompt then Some (truncateText prompt 200) else None)
  ∧ (∀ e w1, initMAMA config w = (Throws e, w1) →
       lastUserPrompt (vars w') = lastUserPrompt (vars w))
  ∧ length (truncateText prompt 200) ≤ 203
  ∧ (length prompt ≤ 200 → truncateText prompt 200 = prompt)
  ∧ (200 < length prompt →
     truncateText prompt 200 = take 200 prompt ++ lit "..."
     ∧ length (truncateText prompt 200) = 203)
  ∧ (∀ registered events env b stored,
       lastUserPrompt (vars (deliverAll registered events (loaded env b))) = Some stored →
       truthy stored = true ∧ length stored ≤ 203).
Proof.
  intros w' prompt. split; [| split; [| split; [| split; [| split]]]].
  - intros w1 Hinit. subst w'.
    rewrite (before_agent_start_after_init config event w w1 Hinit).
    set (stored := if truthy prompt then _ else _).
    apply (recall_rest_keeps lastUserPrompt (fun v => v = stored)); done.
  - intros e w1 Hinit. subst w'.
    rewrite (before_agent_start_init_failed config event w w1 e Hinit). simpl.
    pose proof (initMAMA_keeps (B := B) lastUserPrompt
                  (fun v => v = lastUserPrompt (vars w)) config) as Hkeep.
    specialize (Hkeep (fun _ _ => eq_refl) (fun _ _ => eq_refl) (fun _ _ => eq_refl) w eq_refl).
    by rewrite Hinit in Hkeep.
  - apply truncateText_length_bound.
  - apply truncateText_short.
  - intros Hlong. split; [by apply truncateText_long |].
    by apply truncateText_long_length.
  - intros registered events env b.
    apply (deliverAll_invariant (fun s _ => promptOk (lastUserPrompt s)));
      [apply promptOk_invariant |].
    by intros stored.
Qed.

(** C10: in [before_compaction], when initialisation succeeds and the
    backend's [saveCheckpoint] throws, the handler still returns, the
    error is logged, [lastCompactionAt] holds the current time and
    [compactionOccurred] is what it was before the event (false if it was
    false); when [saveCheckpoint] returns, the flag is set. *)
Theorem before_compaction_failed_save (config : option PluginConfig) (event : jsval)
    (w w1 : World B) :
  initMAMA config w = (Returns tt, w1) →
  mama (vars w1) = true →
  let now := toISOString (dateNow (backend w1)) in
  let summary := lit "Pre-compaction checkpoint: " ++ now
                 ++ lit ". Context will be compressed." in
  let save := saveCheckpoint summary []
                (lit "Resume after compaction - check previous context") (backend w1) in
  let w' := snd (before_compaction config event w) in
  fst (before_compaction config event w) = Returns tt
  ∧ lastCompactionAt (vars w') = Some now
  ∧ (∀ e b', save = (Throws e, b') →
       compactionOccurred (vars w') = compactionOccurred (vars w)
       ∧ (compactionOccurred (vars w) = false → compactionOccurred (vars w') = false)
       ∧ console w' =
           console w1 ++ [{| level := LevelError;
                             args := [lit "[MAMA] Before compaction error:"; errorText e] |}])
  ∧ (∀ id b', save = (Returns id, b') → compactionOccurred (vars w') = true).
Proof.
  intros Hinit Hmama now summary save w'.
  assert (Hflag : compactionOccurred (vars w1) = compactionOccurred (vars w)).
  { pose proof (initMAMA_keeps (B := B) compactionOccurred
                  (fun v => v = compactionOccurred (vars w)) config) as Hkeep.
    specialize (Hkeep (fun _ _ => eq_refl) (fun _ _ => eq_refl) (fun _ _ => eq_refl) w eq_refl).
    by rewrite Hinit in Hkeep. }
  assert (Hloaded : ∀ w2 : World B, vars w2 = set_lastCompactionAt (Some now) (vars w1) →
                    getMAMA w2 = (Returns tt, w2)).
  { intros w2 Hw2. unfold getMAMA, bind, gets. rewrite Hw2. simpl. by rewrite Hmama. }
  subst w'. unfold before_compaction.
  rewrite (tryCatch_bind_returns _ _ _ _ _ _ Hinit). cbv beta.
  rewrite (tryCatch_bind_returns nowISO _ _ w1 now w1 eq_refl). cbv beta.
  rewrite (tryCatch_bind_returns (modify _) _ _ w1 tt _ eq_refl). cbv beta.
  set (w2 := {| vars := set_lastCompactionAt (Some now) (vars w1);
                envMamaDbPath := envMamaDbPath w1; console := console w1;
                backend := backend w1 |}).
  rewrite (tryCatch_bind_returns getMAMA _ _ w2 tt w2 (Hloaded w2 eq_refl)). cbv beta.
  fold summary. unfold tryCatch, bind, call. simpl. fold save.
  destruct save as [[id | e] b'] eqn:Hsave; simpl.
  - split; [done |]. split; [done |]. split; [by intros e b'' [=] | done].
  - split; [done |]. split; [done |]. split; [| by intros id b'' [=]].
    intros e' b'' [= <- <-]. split; [done |]. split; [congruence | done].
Qed.
End SessionState.

(** C8, as the claim states it, fails: a prompt of 201 characters is stored
    as its first 200 characters and the ellipsis, 203 characters. *)
Lemma lastUserPrompt_longer_than_200_counterexample :
  let event := Sample.promptEvent (replicate 201 97%N) in
  let w' := snd (before_agent_start None event (Sample.fresh Sample.emptyStore)) in
  ∃ stored, lastUserPrompt (vars w') = Some stored
            ∧ stored = replicate 200 97%N ++ lit "..."
            ∧ ¬ length stored ≤ 200.
Proof.
  eexists. split; [vm_compute; reflexivity |]. split; [vm_compute; reflexivity |].
  vm_compute. lia.
Qed.

Lemma lastUserPrompt_after_before_agent_start_witness :
  let w := Sample.fresh Sample.emptyStore in
  let event := Sample.promptEvent (lit "which auth strategy did we pick?") in
  lastUserPrompt (vars (snd (before_agent_start None event w)))
  = Some (lit "which auth strategy did we pick?").
Proof.
  intros w event.
  destruct (lastUserPrompt_after_before_agent_start None event w) as (Hstored & _).
  rewrite (Hstored (snd (initMAMA None w))) by (vm_compute; reflexivity).
  vm_compute. reflexivity.
Defined.

Lemma before_compaction_failed_save_witness :
  let w := Sample.fresh Sample.failingSaveStore in
  let w' := snd (before_compaction None JUndefined w) in
  fst (before_compaction None JUndefined w) = Returns tt
  ∧ lastCompactionAt (vars w') = Some (lit "1705320000000")
  ∧ compactionOccurred (vars w') = false.
Proof.
  intros w w'.
  assert (Hinit : initMAMA None w = (Returns tt, snd (initMAMA None w)))
    by (vm_compute; reflexivity).
  assert (Hmama : mama (vars (snd (initMAMA None w))) = true) by (vm_compute; reflexivity).
  destruct (before_compaction_failed_save None JUndefined w _ Hinit Hmama)
    as (Hret & Hat & Hfail & _).
  split; [exact Hret |]. split; [exact Hat |].
  edestruct Hfail as (_ & Hfalse & _); [vm_compute; reflexivity |].
  apply Hfalse. reflexivity.
Defined.

(* ===================================================================== *)
(** * Auto-capture: [agent_end]                                           *)
(* ===================================================================== *)

Lemma insertCandidate_elem (c : jsstring) (l : list jsstring) :
  c ∈ insertCandidate c l.
Proof.
  unfold insertCandidate. case_bool_decide; [done |]. simpl. left.
Qed.

Lemma isCandidate_true (text : jsstring) :
  isCandidate text = true ↔
    20 ≤ length text ≤ 500
    ∧ includes text (lit "<relevant-memories>") = false
    ∧ (startsWith text (lit "<") && includes text (lit "</")) = false
    ∧ isDecision text = true.
Proof.
  unfold isCandidate.
  destruct (Nat.ltb_spec (length text) 20), (Nat.ltb_spec 500 (length text)); simpl;
    try (split; [done | intros (? & _); lia]).
  destruct (includes text (lit "<relevant-memories>")); [by split; [| intros (_ & ? & _)] |].
  destruct (startsWith text (lit "<") && includes text (lit "</"));
    [by split; [| intros (_ & _ & ? & _)] |].
  split; [intros ->; repeat split; lia | by intros (_ & _ & _ & ->)].
Qed.

Section AutoCapture.
Context {B : Type} `{!MAMAApi B} `{!Host}.

Lemma captureStep_rejected (text : jsstring) (w : World B) :
  isCandidate text = false → captureStep text w = (Returns tt, w).
Proof. intros Hc. unfold captureStep. by rewrite Hc. Qed.

Lemma captureStep_accepted (text : jsstring) (w : World B) :
  isCandidate text = true →
  captureStep text w =
    (Returns tt,
     {| vars := set_lastAutoCaptureCandidates
                  (insertCandidate (truncateText text 160)
                     (lastAutoCaptureCandidates (vars w))) (vars w);
        envMamaDbPath := envMamaDbPath w;
        console := console w
                   ++ [{| level := LevelLog;
                          args := [lit "[MAMA] Auto-capture candidate: "
                                   ++ truncateText text 160] |}];
        backend := backend w |}).
Proof. intros Hc. unfold captureStep. by rewrite Hc. Qed.

(** C5, amended: a text that matches one of the decision patterns is
    rejected when it has 19 characters (or fewer than 20) and when it has
    501 characters (or more than 500); with 500 characters (or any length
    from 20 to 500) it is accepted provided it does not contain the
    [<relevant-memories>] marker and is not markup (starting with [<] and
    containing [</]).  A rejected text changes nothing; an accepted text
    is logged and its 160-character truncation is among the candidates
    afterwards. *)
Theorem isCandidate_length_bounds (text : jsstring) :
  isDecision text = true →
  (length text = 19 → isCandidate text = false)
  ∧ (length text < 20 → isCandidate text = false)
  ∧ (length text = 501 → isCandidate text = false)
  ∧ (500 < length text → isCandidate text = false)
  ∧ (includes text (lit "<relevant-memories>") = false →
     (startsWith text (lit "<") && includes text (lit "</")) = false →
     (length text = 500 → isCandidate text = true)
     ∧ (20 ≤ length text ≤ 500 → isCandidate text = true))
  ∧ (∀ w : World B, isCandidate text = false → captureStep text w = (Returns tt, w))
  ∧ (∀ w : World B, isCandidate text = true →
       let w' := snd (captureStep text w) in
       truncateText text 160 ∈ lastAutoCaptureCandidates (vars w')
       ∧ console w' =
           console w ++ [{| level := LevelLog;
                            args := [lit "[MAMA] Auto-capture candidate: "
                                     ++ truncateText text 160] |}]).
Proof.
  intros Hdec.
  assert (Hshort : length text < 20 → isCandidate text = false).
  { intros Hlen. destruct (isCandidate text) eqn:Hc; [| done].
    apply isCandidate_true in Hc. lia. }
  assert (Hlong : 500 < length text → isCandidate text = false).
  { intros Hlen. destruct (isCandidate text) eqn:Hc; [| done].
    apply isCandidate_true in Hc. lia. }
  split; [intros Hlen; apply Hshort; lia |]. split; [done |].
  split; [intros Hlen; apply Hlong; lia |]. split; [done |].
  split; [| split].
  - intros Hmarker Hmarkup.
    split; intros Hlen; apply isCandidate_true; repeat split; done || lia.
  - apply captureStep_rejected.
  - intros w Hc w'. subst w'. rewrite (captureStep_accepted text w Hc). simpl.
    split; [apply insertCandidate_elem | done].
Qed.

Lemma forEach_captureStep (texts : list jsstring) (w : World B) :
  fst (forEach texts captureStep w) = Returns tt
  ∧ lastAutoCaptureCandidates (vars (snd (forEach texts captureStep w))) =
      insertAll (map (fun t => truncateText t 160) (filter isCandidate texts))
        (lastAutoCaptureCandidates (vars w)).
Proof.
  revert w. induction texts as [| text texts IH]; intros w; [done |].
  simpl. destruct (isCandidate text) eqn:Hc.
  - rewrite (bind_returns _ _ _ _ _ (captureStep_accepted text w Hc)). cbv beta.
    rewrite filter_cons_True by (by rewrite Hc).
    match goal with |- context [forEach texts captureStep ?w2] =>
      destruct (IH w2) as [Hret Hcands] end.
    split; [exact Hret |]. rewrite Hcands. reflexivity.
  - rewrite (bind_returns _ _ _ _ _ (captureStep_rejected text w Hc)). cbv beta.
    rewrite filter_cons_False by (rewrite Hc; intros []). apply IH.
Qed.

Lemma agent_end_candidatesOk (config : option PluginConfig) (event : jsval) :
  preserves (B := B) (fun s _ => candidatesOk (lastAutoCaptureCandidates s))
    (agent_end config event).
Proof.
  unfold agent_end, captureStep, consoleError, consoleLog.
  frame.
  - apply (initMAMA_keeps lastAutoCaptureCandidates candidatesOk); done.
  - apply preserves_modify. intros s _ [Hlen Hnd]. simpl. split.
    + by apply insertCandidate_length.
    + by apply insertCandidate_NoDup.
Qed.

(** C6: inserting a candidate that the list already holds leaves the list
    as it is; inserting a new one puts it first and keeps the first three
    entries; from the empty list, inserting pairwise different candidates
    leaves the three most recent, newest first; after any sequence of
    insertions the list has at most three entries, no duplicates, and its
    entries stand in the reverse of the order in which they were inserted;
    the loop of [agent_end] performs exactly these insertions, for the
    160-character truncations of the accepted texts, and after any
    sequence of events the list has at most three entries and no
    duplicates. *)
Theorem autoCaptureCandidates_bounded_distinct_newest_first :
  (∀ c l, c ∈ l → insertCandidate c l = l)
  ∧ (∀ c l, c ∉ l → insertCandidate c l = take 3 (c :: l))
  ∧ (∀ cs, NoDup cs → insertAll cs [] = take 3 (rev cs))
  ∧ (∀ cs, length (insertAll cs []) ≤ 3 ∧ NoDup (insertAll cs [])
           ∧ insertAll cs [] `sublist_of` rev cs)
  ∧ (∀ (texts : list jsstring) (w : World B),
       lastAutoCaptureCandidates (vars (snd (forEach texts captureStep w))) =
         insertAll (map (fun t => truncateText t 160) (filter isCandidate texts))
           (lastAutoCaptureCandidates (vars w)))
  ∧ (∀ config event (w : World B),
       candidatesOk (lastAutoCaptureCandidates (vars w)) →
       candidatesOk (lastAutoCaptureCandidates (vars (snd (agent_end config event w)))))
  ∧ (∀ registered events env (b : B),
       candidatesOk
         (lastAutoCaptureCandidates (vars (deliverAll registered events (loaded env b))))).
Proof.
  split; [exact insertCandidate_present |].
  split; [exact insertCandidate_fresh |].
  split; [| split; [| split; [| split]]].
  - intros cs Hnd. rewrite insertAll_distinct; [by rewrite app_nil_r | done | | simpl; lia].
    intros c _. apply not_elem_of_nil.
  - intros cs.
    destruct (insertAll_invariant cs []) as [Hlen Hnd]; [simpl; lia | constructor |].
    split; [done |]. split; [done |].
    pose proof (insertAll_sublist cs []) as Hsub. by rewrite app_nil_r in Hsub.
  - intros texts w. apply forEach_captureStep.
  - intros config event w. apply agent_end_candidatesOk.
  - intros registered events env b.
    apply (deliverAll_invariant (fun s _ => candidatesOk (lastAutoCaptureCandidates s)));
      [apply candidatesOk_invariant |].
    split; [simpl; lia | constructor].
Qed.
End AutoCapture.

(** C5, as the claim states it, fails: a 500-character text that matches a
    decision pattern is rejected when it carries the injected-context
    marker. *)
Lemma isCandidate_rejects_injected_counterexample :
  length injectedText = 500
  ∧ isDecision injectedText = true
  ∧ isCandidate injectedText = false.
Proof. vm_compute. done. Qed.

Lemma isCandidate_length_bounds_witness :
  (length shortText = 19 ∧ isCandidate shortText = false)
  ∧ (length boundaryText = 500 ∧ isCandidate boundaryText = true)
  ∧ (length longText = 501 ∧ isCandidate longText = false).
Proof.
  assert (H19 : length shortText = 19) by reflexivity.
  assert (H500 : length boundaryText = 500) by (vm_compute; reflexivity).
  assert (H501 : length longText = 501) by (vm_compute; reflexivity).
  split; [| split].
  - split; [exact H19 |].
    destruct (isCandidate_length_bounds (B := Sample.Store) shortText) as (Hshort & _);
      [vm_compute; reflexivity |].
    exact (Hshort H19).
  - split; [exact H500 |].
    destruct (isCandidate_length_bounds (B := Sample.Store) boundaryText)
      as (_ & _ & _ & _ & Hok & _); [vm_compute; reflexivity |].
    destruct Hok as [Hboundary _]; [vm_compute; reflexivity.. |].
    exact (Hboundary H500).
  - split; [exact H501 |].
    destruct (isCandidate_length_bounds (B := Sample.Store) longText)
      as (_ & _ & Hlong & _); [vm_compute; reflexivity |].
    exact (Hlong H501).
Defined.

Lemma autoCaptureCandidates_bounded_distinct_newest_first_witness :
  let a := lit "decided on a" in
  let b := lit "decided on b" in
  let c := lit "decided on c" in
  let d := lit "decided on d" in
  insertAll [a; a] [] = [a]
  ∧ insertAll [a; b; c; d] [] = [d; c; b]
  ∧ insertAll [a; b; a] [] = [b; a].
Proof.
  intros a b c d.
  destruct (autoCaptureCandidates_bounded_distinct_newest_first (B := Sample.Store))
    as (Hsame & _ & Hdistinct & _).
  split; [| split].
  - change (insertAll [a; a] []) with (insertCandidate a [a]).
    apply Hsame. left.
  - rewrite Hdistinct; [reflexivity |].
    apply (bool_decide_unpack _). vm_compute. exact I.
  - change (insertAll [a; b; a] []) with (insertCandidate a [b; a]).
    apply Hsame. right. left.
Defined.

(* ===================================================================== *)
(** * Link annotations: [formatReasoning]                                 *)
(* ===================================================================== *)

Lemma starMatch_greedy {A : Type} (p : N → bool) (run rest : jsstring)
    (k : jsstring → option A) (x : A) :
  Forall (fun c => p c = true) run → stopsRun p rest → k rest = Some x →
  starMatch p (run ++ rest) k = Some x.
Proof.
  intros Hrun Hstop Hk. induction Hrun as [| c run Hc _ IH]; simpl.
  - destruct rest as [| c rest]; [done |]. simpl in *. by rewrite Hstop.
  - by rewrite Hc, IH.
Qed.

Lemma rmatch_rlit {A : Type} (kw text rest : jsstring) (k : jsstring → option A) :
  spelled kw text → rmatch (rlit kw) (text ++ rest) k = k rest.
Proof.
  intros Hsp. induction Hsp as [| c d kw text Hcd _ IH]; simpl; [done |].
  by rewrite Hcd.
Qed.

Lemma rmatch_rlit_mismatch {A : Type} (c : N) (kw : jsstring) (d : N) (text : jsstring)
    (k : jsstring → option A) :
  charMatches c d = false → rmatch (rlit (c :: kw)) (d :: text) k = None.
Proof. intros Hcd. simpl. by rewrite Hcd. Qed.

Lemma isLinkIdChar_not_space (c : N) : isLinkIdChar c = true → isWhiteSpace c = false.
Proof.
  unfold isLinkIdChar, isWhiteSpace. intros Hid.
  repeat (apply orb_true_iff in Hid as [Hid | Hid]);
    try (apply andb_true_iff in Hid as [Hlo Hhi]; apply N.leb_le in Hlo, Hhi);
    try apply N.eqb_eq in Hid;
    repeat (apply orb_false_iff; split); try apply andb_false_iff;
    rewrite ?N.leb_gt, ?N.eqb_neq; lia.
Qed.

Lemma take_length_prefix {A : Type} (m rest : list A) :
  take (length (m ++ rest) - length rest) (m ++ rest) = m.
Proof.
  rewrite length_app. replace (length m + length rest - length rest) with (length m) by lia.
  by rewrite take_app_length.
Qed.

(** At the start of an annotation [keyword: identifier] the pattern matches
    the annotation and nothing after it. *)
Lemma matchAt_link_annotation (kw ws ident rest : jsstring) :
  spelled (lit "builds_on") kw ∨ spelled (lit "debates") kw →
  Forall (fun c => isWhiteSpace c = true) ws →
  ident ≠ [] → Forall (fun c => isLinkIdChar c = true) ident →
  stopsRun isLinkIdChar rest →
  matchAt linkPattern ((kw ++ lit ":" ++ ws ++ ident) ++ rest)
  = Some (kw ++ lit ":" ++ ws ++ ident).
Proof.
  intros Hkw Hws Hne Hident Hstop.
  destruct ident as [| i0 ident]; [done |]. apply Forall_cons in Hident as [Hi0 Hident].
  unfold matchAt. set (s := (kw ++ lit ":" ++ ws ++ i0 :: ident) ++ rest).
  set (k := fun rest' : jsstring => Some (take (length s - length rest') s)).
  assert (Hk : k rest = Some (kw ++ lit ":" ++ ws ++ i0 :: ident)).
  { unfold k, s. by rewrite take_length_prefix. }
  assert (Htail : rmatch (RSeq (RChar 58) (RSeq (RStar isWhiteSpace) (RPlus isLinkIdChar)))
                    (lit ":" ++ ws ++ (i0 :: ident) ++ rest) k
                  = Some (kw ++ lit ":" ++ ws ++ i0 :: ident)).
  { change (lit ":") with [58%N]. simpl.
    apply starMatch_greedy; [done | | ].
    - simpl. by apply isLinkIdChar_not_space.
    - simpl. rewrite Hi0. by apply starMatch_greedy. }
  assert (Hs : s = kw ++ lit ":" ++ ws ++ (i0 :: ident) ++ rest).
  { unfold s. by rewrite <- !app_assoc. }
  rewrite Hs. unfold linkPattern.
  change (rmatch (RAlt ?a ?b) ?t ?k) with
    (match rmatch a t k with Some x => Some x | None => rmatch b t k end).
  change (rmatch (RSeq ?a ?b) ?t ?k) with (rmatch a t (fun t' => rmatch b t' k)) at 1.
  change (rmatch (RAlt ?a ?b) ?t ?k) with
    (match rmatch a t k with Some x => Some x | None => rmatch b t k end) at 1.
  destruct Hkw as [Hkw | Hkw].
  - rewrite (rmatch_rlit _ _ _ _ Hkw). by rewrite Htail.
  - assert (Hfirst : ∃ d kw', kw = d :: kw' ∧ charMatches 100 d = true).
    { change (lit "debates") with (100%N :: lit "ebates") in Hkw.
      inversion Hkw; subst. eauto. }
    destruct Hfirst as (d & kw' & -> & Hd).
    change (lit "builds_on") with (98%N :: lit "uilds_on").
    rewrite <- app_comm_cons. rewrite rmatch_rlit_mismatch.
    + rewrite app_comm_cons. rewrite (rmatch_rlit _ _ _ _ Hkw). by rewrite Htail.
    + unfold charMatches in *. apply N.eqb_eq in Hd. apply N.eqb_neq.
      rewrite <- Hd. by vm_compute.
Qed.

Lemma regexMatch_skip (r : regex) (pre s m : jsstring) :
  (∀ i, i < length pre → matchAt r (drop i (pre ++ s)) = None) →
  matchAt r s = Some m →
  regexMatch r (pre ++ s) = Some m.
Proof.
  intros Hpre Hm. induction pre as [| c pre IH].
  - simpl. destruct s; simpl; by rewrite Hm.
  - assert (H0 : matchAt r (c :: pre ++ s) = None) by (apply (Hpre 0); simpl; lia).
    simpl. rewrite H0. apply IH.
    intros i Hi. apply (Hpre (S i)). simpl. lia.
Qed.

Lemma formatReasoning_with_link (reasoning : jsstring) (maxLen : nat) (m : jsstring) :
  regexMatch linkPattern reasoning = Some m →
  formatReasoning reasoning maxLen =
    if includes (truncatedReasoning reasoning maxLen) m
    then truncatedReasoning reasoning maxLen
    else truncatedReasoning reasoning maxLen ++ linkLine m.
Proof.
  intros Hm. unfold formatReasoning, truncatedReasoning, linkLine.
  destruct reasoning as [| c reasoning]; [by vm_compute in Hm |].
  cbn [truthy negb]. rewrite Hm.
  by destruct (includes _ m).
Qed.

(** ** What a match of the link pattern looks like *)

Lemma starMatch_sound {A : Type} (p : N → bool) (s : jsstring)
    (k : jsstring → option A) (x : A) :
  starMatch p s k = Some x →
  ∃ run rest, s = run ++ rest ∧ Forall (fun c => p c = true) run ∧ k rest = Some x.
Proof.
  induction s as [| c s IH]; simpl; intros Hm.
  - by exists [], [].
  - destruct (p c) eqn:Hc; [| by exists [], (c :: s)].
    destruct (starMatch p s k) as [y |] eqn:Hs.
    + injection Hm as ->. destruct (IH eq_refl) as (run & rest & -> & Hrun & Hk).
      exists (c :: run), rest. repeat split; [by constructor | done].
    + by exists [], (c :: s).
Qed.

Lemma rmatch_sound {A : Type} (r : regex) (s : jsstring) (k : jsstring → option A) (x : A) :
  rmatch r s k = Some x →
  ∃ m rest, s = m ++ rest ∧ denotes r m ∧ k rest = Some x.
Proof.
  revert s k. induction r as [| c | p | r1 IH1 r2 IH2 | r1 IH1 r2 IH2 | p];
    intros s k; simpl; intros Hm.
  - exists [], s. repeat split; [constructor | done].
  - destruct s as [| d s]; [done |]. destruct (charMatches c d) eqn:Hcd; [| done].
    exists [d], s. repeat split; [by constructor | done].
  - destruct s as [| d s]; [done |]. destruct (p d) eqn:Hpd; [| done].
    exists [d], s. repeat split; [by constructor | done].
  - apply IH1 in Hm as (m1 & rest1 & -> & Hd1 & Hm).
    apply IH2 in Hm as (m2 & rest2 & -> & Hd2 & Hk).
    exists (m1 ++ m2), rest2. rewrite <- app_assoc. repeat split; [by constructor | done].
  - destruct (rmatch r1 s k) as [y |] eqn:H1.
    + injection Hm as ->. apply IH1 in H1 as (m & rest & -> & Hd & Hk).
      exists m, rest. repeat split; [by apply denotes_alt_l | done].
    + apply IH2 in Hm as (m & rest & -> & Hd & Hk).
      exists m, rest. repeat split; [by apply denotes_alt_r | done].
  - apply starMatch_sound in Hm as (run & rest & -> & Hrun & Hk).
    exists run, rest. repeat split; [by constructor | done].
Qed.

Lemma matchAt_sound (r : regex) (s m : jsstring) :
  matchAt r s = Some m → denotes r m ∧ ∃ rest, s = m ++ rest.
Proof.
  unfold matchAt. intros Hm.
  apply rmatch_sound in Hm as (m' & rest & -> & Hd & Hk).
  injection Hk as <-. rewrite take_length_prefix. split; [done | by exists rest].
Qed.

Lemma regexMatch_sound (r : regex) (s m : jsstring) :
  regexMatch r s = Some m → denotes r m ∧ ∃ pre rest, s = pre ++ m ++ rest.
Proof.
  induction s as [| c s IH]; simpl.
  - destruct (matchAt r []) as [m' |] eqn:Hm; [| done]. intros [= ->].
    apply matchAt_sound in Hm as [Hd [rest Hs]]. split; [done |]. by exists [], rest.
  - destruct (matchAt r (c :: s)) as [m' |] eqn:Hm.
    + intros [= ->]. apply matchAt_sound in Hm as [Hd [rest Hs]].
      split; [done |]. by exists [], rest.
    + intros Hrec. destruct (IH Hrec) as [Hd (pre & rest & ->)].
      split; [done |]. by exists (c :: pre), rest.
Qed.

Lemma denotes_rlit (kw s : jsstring) : denotes (rlit kw) s → spelled kw s.
Proof.
  revert s. induction kw as [| c kw IH]; intros s Hd; simpl in Hd.
  - inversion Hd. constructor.
  - inversion Hd as [| | | r1 r2 s1 s2 Hc Hrest | | |]; subst.
    inversion Hc; subst. simpl. constructor; [done | by apply IH].
Qed.

Lemma denotes_punct (c : N) (s : jsstring) :
  c = 58%N ∨ c = 91%N ∨ c = 93%N → denotes (RChar c) s → s = [c].
Proof.
  intros Hc Hd. inversion Hd as [| c' d Hcd | | | | |]; subst. f_equal.
  unfold charMatches in Hcd. apply N.eqb_eq in Hcd.
  assert (Hcanon : canonicalize c = c) by (by destruct Hc as [-> | [-> | ->]]).
  rewrite Hcanon in Hcd. unfold canonicalize in Hcd.
  repeat match type of Hcd with
         | context [if ?b then _ else _] => destruct b eqn:?
         end;
    repeat match goal with
           | H : (_ && _) = true |- _ => apply andb_true_iff in H as [? ?]
           | H : (_ || _) = true |- _ => apply orb_true_iff in H as [? | ?]
           | H : (_ <=? _)%N = true |- _ => apply N.leb_le in H
           | H : (_ =? _)%N = true |- _ => apply N.eqb_eq in H
           end;
    lia.
Qed.

Lemma denotes_plus (p : N → bool) (s : jsstring) :
  denotes (RPlus p) s → s ≠ [] ∧ Forall (fun c => p c = true) s.
Proof.
  unfold RPlus. intros Hd.
  inversion Hd as [| | | r1 r2 s1 s2 H1 H2 | | |]; subst.
  inversion H1; subst. inversion H2; subst. split; [done | by constructor].
Qed.

Lemma denotes_linkPattern (m : jsstring) : denotes linkPattern m → isLinkAnnotation m.
Proof.
  unfold linkPattern.
  remember (rlit (lit "builds_on")) as rb eqn:Hrb.
  remember (rlit (lit "debates")) as rd eqn:Hrd.
  remember (rlit (lit "synthesizes:")) as rs eqn:Hrs.
  intros Hd.
  inversion Hd as [| | | | r1 r2 s Ha | r1 r2 s Ha |]; subst r1 r2 s; clear Hd.
  - left. inversion Ha as [| | | r1 r2 kw s1 Hkw Hrest | | |]; subst r1 r2 m; clear Ha.
    inversion Hrest as [| | | r1 r2 colon s2 Hcolon Hrest' | | |]; subst r1 r2 s1; clear Hrest.
    inversion Hrest' as [| | | r1 r2 ws ident Hws Hident | | |]; subst r1 r2 s2; clear Hrest'.
    apply denotes_punct in Hcolon as ->; [| by left].
    inversion Hws; subst. apply denotes_plus in Hident as [Hne Hident].
    exists kw, ws, ident. repeat split; [| done..].
    inversion Hkw; subst; [left | right]; by apply denotes_rlit.
  - right. inversion Ha as [| | | r1 r2 kw s1 Hkw Hrest | | |]; subst r1 r2 m; clear Ha.
    inversion Hrest as [| | | r1 r2 ws s2 Hws Hrest' | | |]; subst r1 r2 s1; clear Hrest.
    inversion Hrest' as [| | | r1 r2 open s3 Hopen Hrest'' | | |]; subst r1 r2 s2; clear Hrest'.
    inversion Hrest'' as [| | | r1 r2 ids close Hids Hclose | | |]; subst r1 r2 s3;
      clear Hrest''.
    apply denotes_punct in Hopen as ->; [| by right; left].
    apply denotes_punct in Hclose as ->; [| by right; right].
    inversion Hws; subst. apply denotes_plus in Hids as [Hne Hids].
    apply denotes_rlit in Hkw.
    change (lit "synthesizes:") with (lit "synthesizes" ++ [58%N]) in Hkw.
    apply Forall2_app_inv_l in Hkw as (kw1 & colon & Hkw1 & Hcolon & ->).
    assert (colon = [58%N]) as ->.
    { apply (denotes_punct 58); [by left |].
      inversion Hcolon as [| c d l l' Hcd Hnil]; subst. inversion Hnil; subst.
      by constructor. }
    exists kw1, ws, ids. rewrite <- !app_assoc. by repeat split.
Qed.

(** Whatever [formatReasoning] takes for the link is a link annotation
    that occurs in the reasoning. *)
Lemma linkMatch_shape (reasoning m : jsstring) :
  regexMatch linkPattern reasoning = Some m →
  isLinkAnnotation m ∧ ∃ pre rest, reasoning = pre ++ m ++ rest.
Proof.
  intros Hm. apply regexMatch_sound in Hm as [Hd Hocc].
  split; [by apply denotes_linkPattern | done].
Qed.

(** C7: for the reasoning of the example and a budget of 30 characters
    [formatReasoning] appends exactly [builds_on: base_idea]; in general,
    for a reasoning that holds a [builds_on] or [debates] annotation with a
    single identifier followed by prose and has no earlier link, the link it
    takes is the annotation up to the end of the identifier; the link is
    appended, on a line of its own, only when the truncated text does not
    already contain it, and is never appended when it does; and whatever
    link is taken has the shape of an annotation. *)
Theorem formatReasoning_appends_exact_link :
  formatReasoning exampleReasoning 30
  = lit "Some long preamble text that w..." ++ linkLine (lit "builds_on: base_idea")
  ∧ (∀ (pre kw ws ident rest : jsstring) (maxLen : nat),
       let annotation := kw ++ lit ":" ++ ws ++ ident in
       let reasoning := pre ++ annotation ++ rest in
       let truncated := truncatedReasoning reasoning maxLen in
       spelled (lit "builds_on") kw ∨ spelled (lit "debates") kw →
       Forall (fun c => isWhiteSpace c = true) ws →
       ident ≠ [] → Forall (fun c => isLinkIdChar c = true) ident →
       stopsRun isLinkIdChar rest →
       (∀ i, i < length pre → matchAt linkPattern (drop i reasoning) = None) →
       regexMatch linkPattern reasoning = Some annotation
       ∧ formatReasoning reasoning maxLen =
           if includes truncated annotation then truncated
           else truncated ++ linkLine annotation)
  ∧ (∀ (reasoning : jsstring) (maxLen : nat) (link : jsstring),
       let truncated := truncatedReasoning reasoning maxLen in
       regexMatch linkPattern reasoning = Some link →
       isLinkAnnotation link
       ∧ (includes truncated link = true → formatReasoning reasoning maxLen = truncated)
       ∧ (includes truncated link = false →
          formatReasoning reasoning maxLen = truncated ++ linkLine link))
  ∧ (∀ (reasoning : jsstring) (maxLen : nat),
       regexMatch linkPattern reasoning = None →
       formatReasoning reasoning maxLen = truncatedReasoning reasoning maxLen).
Proof.
  split; [by vm_compute |]. split; [| split].
  - intros pre kw ws ident rest maxLen annotation reasoning truncated
      Hkw Hws Hne Hident Hstop Hpre.
    assert (Hm : regexMatch linkPattern reasoning = Some annotation).
    { apply regexMatch_skip; [exact Hpre |]. by apply matchAt_link_annotation. }
    split; [exact Hm |]. by apply formatReasoning_with_link.
  - intros reasoning maxLen link truncated Hm.
    split; [by apply (linkMatch_shape reasoning) |].
    rewrite (formatReasoning_with_link reasoning maxLen link Hm). fold truncated.
    by split; intros ->.
  - intros reasoning maxLen Hm. unfold formatReasoning, truncatedReasoning.
    rewrite Hm. destruct reasoning; [| done]. simpl. by destruct maxLen.
Qed.

Lemma formatReasoning_appends_exact_link_witness :
  regexMatch linkPattern exampleReasoning = Some (lit "builds_on: base_idea")
  ∧ formatReasoning exampleReasoning 30
    = lit "Some long preamble text that w..." ++ linkLine (lit "builds_on: base_idea").
Proof.
  destruct formatReasoning_appends_exact_link as (_ & Hgeneral & _).
  destruct (Hgeneral (lit "Some long preamble text that will be truncated. ")
              (lit "builds_on") (lit " ") (lit "base_idea") (lit " and then more text") 30)
    as [Hmatch Hformat].
  - left. unfold spelled. vm_compute. repeat constructor.
  - apply (bool_decide_unpack _). by vm_compute.
  - discriminate.
  - apply (bool_decide_unpack _). by vm_compute.
  - reflexivity.
  - intros i Hi. do 48 (destruct i as [| i]; [vm_compute; reflexivity |]).
    vm_compute in Hi. lia.
  - assert (Hexample : exampleReasoning
                       = lit "Some long preamble text that will be truncated. "
                         ++ (lit "builds_on" ++ lit ":" ++ lit " " ++ lit "base_idea")
                         ++ lit " and then more text") by (vm_compute; reflexivity).
    rewrite Hexample. split; [exact Hmatch |]. rewrite Hformat. vm_compute. reflexivity.
Defined.

(* ===================================================================== *)
(** * Further properties of the text helpers                              *)
(* ===================================================================== *)

Lemma startsWith_app (p rest : jsstring) : startsWith (p ++ rest) p = true.
Proof.
  induction p as [| c p IH]; simpl; [by destruct rest |]. by rewrite N.eqb_refl.
Qed.

Lemma includes_unfold (s p : jsstring) :
  includes s p = startsWith s p || match s with [] => false | _ :: s' => includes s' p end.
Proof. by destruct s. Qed.

Lemma includes_occurrence (pre p rest : jsstring) : includes (pre ++ p ++ rest) p = true.
Proof.
  induction pre as [| c pre IH].
  - simpl. rewrite includes_unfold. by rewrite startsWith_app.
  - simpl. rewrite IH. apply orb_true_r.
Qed.

Lemma truncatedReasoning_truncateText (reasoning : jsstring) (maxLen : nat) :
  truncatedReasoning reasoning maxLen = truncateText reasoning maxLen.
Proof.
  unfold truncatedReasoning, truncateText.
  destruct (Nat.ltb_spec maxLen (length reasoning)), (Nat.leb_spec (length reasoning) maxLen);
    done || lia.
Qed.

(** X1: [truncateText] is idempotent on every text, whatever its length:
    truncating a truncated text with the same limit changes nothing; the
    result has at most [maxLen + 3] characters and agrees with the text on
    its first [maxLen] characters. *)
Theorem truncateText_fixed_point (text : jsstring) (maxLen : nat) :
  truncateText (truncateText text maxLen) maxLen = truncateText text maxLen
  ∧ length (truncateText text maxLen) ≤ maxLen + 3
  ∧ take maxLen (truncateText text maxLen) = take maxLen text.
Proof.
  split; [| split; [apply truncateText_length_bound | apply truncateText_prefix]].
  destruct (Nat.le_gt_cases (length text) maxLen) as [Hle | Hlt].
  - rewrite (truncateText_short text maxLen Hle). by apply truncateText_short.
  - pose proof (truncateText_long_length text maxLen Hlt) as Hlen.
    rewrite (truncateText_long (truncateText text maxLen)) by lia.
    by rewrite truncateText_prefix, <- truncateText_long.
Qed.

Lemma formatReasoning_without_link (reasoning : jsstring) (maxLen : nat) :
  regexMatch linkPattern reasoning = None →
  formatReasoning reasoning maxLen = truncateText reasoning maxLen.
Proof.
  intros Hm. rewrite <- truncatedReasoning_truncateText.
  unfold formatReasoning, truncatedReasoning. rewrite Hm.
  destruct reasoning; [| done]. simpl. by destruct maxLen.
Qed.

(** X2: [formatReasoning] returns what [truncateText] returns, followed at
    most by one link line; the link line is there only if the reasoning
    was truncated and the truncated text does not contain the link, which
    is an annotation that occurs in the reasoning.  Hence a reasoning
    within the budget is returned as it is. *)
Theorem formatReasoning_extends_truncateText (reasoning : jsstring) (maxLen : nat) :
  (length reasoning ≤ maxLen → formatReasoning reasoning maxLen = reasoning)
  ∧ (formatReasoning reasoning maxLen = truncateText reasoning maxLen
     ∨ (maxLen < length reasoning
        ∧ ∃ link pre rest,
            reasoning = pre ++ link ++ rest
            ∧ isLinkAnnotation link
            ∧ includes (truncateText reasoning maxLen) link = false
            ∧ formatReasoning reasoning maxLen
              = truncateText reasoning maxLen ++ linkLine link)).
Proof.
  assert (Hcases : formatReasoning reasoning maxLen = truncateText reasoning maxLen
     ∨ (maxLen < length reasoning
        ∧ ∃ link pre rest,
            reasoning = pre ++ link ++ rest
            ∧ isLinkAnnotation link
            ∧ includes (truncateText reasoning maxLen) link = false
            ∧ formatReasoning reasoning maxLen
              = truncateText reasoning maxLen ++ linkLine link)).
  { destruct (regexMatch linkPattern reasoning) as [link |] eqn:Hm.
    - rewrite (formatReasoning_with_link reasoning maxLen link Hm).
      rewrite truncatedReasoning_truncateText.
      destruct (includes (truncateText reasoning maxLen) link) eqn:Hinc; [by left | right].
      destruct (linkMatch_shape reasoning link Hm) as [Hshape (pre & rest & Hocc)].
      split.
      + destruct (Nat.le_gt_cases (length reasoning) maxLen) as [Hle | Hlt]; [| done].
        rewrite truncateText_short in Hinc by done.
        rewrite Hocc, includes_occurrence in Hinc. done.
      + by exists link, pre, rest.
    - left. by apply formatReasoning_without_link. }
  split; [| exact Hcases].
  intros Hle. destruct Hcases as [-> | [Hlt _]]; [by apply truncateText_short | lia].
Qed.

Lemma formatReasoning_extends_truncateText_witness :
  formatReasoning (lit "builds_on: base_idea and then we added more features") 200
  = lit "builds_on: base_idea and then we added more features".
Proof.
  apply (formatReasoning_extends_truncateText
           (lit "builds_on: base_idea and then we added more features") 200).
  vm_compute. lia.
Defined.

Lemma spelled_first (c : N) (kw text : jsstring) :
  spelled (c :: kw) text → ∃ d text', text = d :: text' ∧ charMatches c d = true.
Proof. intros Hsp. inversion Hsp; subst. eauto. Qed.

Lemma linkKeyword_mismatch {A : Type} (X : regex) (d : N) (t : jsstring)
    (k : jsstring → option A) :
  charMatches 98 d = false → charMatches 100 d = false →
  rmatch (RSeq (RAlt (rlit (lit "builds_on")) (rlit (lit "debates"))) X) (d :: t) k = None.
Proof.
  intros Hb Hd.
  change (match rmatch (rlit (98%N :: lit "uilds_on")) (d :: t) (fun t' => rmatch X t' k) with
          | Some x => Some x
          | None => rmatch (rlit (100%N :: lit "ebates")) (d :: t) (fun t' => rmatch X t' k)
          end = None).
  by rewrite !rmatch_rlit_mismatch.
Qed.

(** At the start of an annotation [synthesizes: [ids]] the pattern matches
    the annotation up to its first closing bracket. *)
Lemma matchAt_synthesizes (kw ws ids rest : jsstring) :
  spelled (lit "synthesizes") kw →
  Forall (fun c => isWhiteSpace c = true) ws →
  ids ≠ [] → Forall (fun c => notCloseBracket c = true) ids →
  matchAt linkPattern ((kw ++ lit ":" ++ ws ++ lit "[" ++ ids ++ lit "]") ++ rest)
  = Some (kw ++ lit ":" ++ ws ++ lit "[" ++ ids ++ lit "]").
Proof.
  intros Hkw Hws Hne Hids.
  destruct ids as [| i0 ids]; [done |]. apply Forall_cons in Hids as [Hi0 Hids].
  unfold matchAt.
  set (s := (kw ++ lit ":" ++ ws ++ lit "[" ++ (i0 :: ids) ++ lit "]") ++ rest).
  set (k := fun rest' : jsstring => Some (take (length s - length rest') s)).
  set (Y := RSeq (RStar isWhiteSpace)
              (RSeq (RChar 91) (RSeq (RPlus notCloseBracket) (RChar 93)))).
  set (tail := ws ++ lit "[" ++ (i0 :: ids) ++ lit "]" ++ rest).
  assert (Hk : k rest = Some (kw ++ lit ":" ++ ws ++ lit "[" ++ (i0 :: ids) ++ lit "]")).
  { unfold k, s. by rewrite take_length_prefix. }
  assert (Htail : rmatch Y tail k
                  = Some (kw ++ lit ":" ++ ws ++ lit "[" ++ (i0 :: ids) ++ lit "]")).
  { unfold Y, tail. change (lit "[") with [91%N]. change (lit "]") with [93%N]. simpl.
    apply starMatch_greedy; [done | done |].
    simpl. rewrite Hi0. apply starMatch_greedy; [done | done |]. by simpl. }
  assert (Hkw' : spelled (lit "synthesizes:") (kw ++ lit ":")).
  { change (lit "synthesizes:") with (lit "synthesizes" ++ [58%N]).
    apply Forall2_app; [done |]. by repeat constructor. }
  assert (Hs : s = (kw ++ lit ":") ++ tail).
  { unfold s, tail. by rewrite <- !app_assoc. }
  destruct (spelled_first 115 (lit "ynthesizes") kw Hkw) as (d & kw' & Hkweq & Hd).
  assert (Hnot : ∀ c, c = 98%N ∨ c = 100%N → charMatches c d = false).
  { intros c Hc. unfold charMatches in *. apply N.eqb_eq in Hd. apply N.eqb_neq.
    rewrite <- Hd. by destruct Hc as [-> | ->]. }
  unfold linkPattern. fold Y.
  change (rmatch (RAlt ?a ?b) s k) with
    (match rmatch a s k with Some x => Some x | None => rmatch b s k end).
  assert (Hfirst : ∃ t, s = d :: t).
  { rewrite Hs, Hkweq. by eexists. }
  destruct Hfirst as [t Ht].
  rewrite Ht at 1. rewrite linkKeyword_mismatch by (apply Hnot; auto).
  change (rmatch (rlit (lit "synthesizes:")) s (fun t' => rmatch Y t' k)
          = Some (kw ++ lit ":" ++ ws ++ lit "[" ++ (i0 :: ids) ++ lit "]")).
  rewrite Hs. rewrite (rmatch_rlit _ _ _ _ Hkw'). exact Htail.
Qed.

(** X3: for a reasoning that holds a [synthesizes: [ids]] annotation and
    no earlier link, the link that [formatReasoning] takes is the
    annotation up to its first closing bracket, whatever follows; it is
    appended on a line of its own unless the truncated text contains it. *)
Theorem formatReasoning_synthesizes_link
    (pre kw ws ids rest : jsstring) (maxLen : nat) :
  let annotation := kw ++ lit ":" ++ ws ++ lit "[" ++ ids ++ lit "]" in
  let reasoning := pre ++ annotation ++ rest in
  spelled (lit "synthesizes") kw →
  Forall (fun c => isWhiteSpace c = true) ws →
  ids ≠ [] → Forall (fun c => notCloseBracket c = true) ids →
  (∀ i, i < length pre → matchAt linkPattern (drop i reasoning) = None) →
  regexMatch linkPattern reasoning = Some annotation
  ∧ formatReasoning reasoning maxLen =
      if includes (truncateText reasoning maxLen) annotation
      then truncateText reasoning maxLen
      else truncateText reasoning maxLen ++ linkLine annotation.
Proof.
  intros annotation reasoning Hkw Hws Hne Hids Hpre.
  assert (Hm : regexMatch linkPattern reasoning = Some annotation).
  { apply regexMatch_skip; [exact Hpre |]. by apply matchAt_synthesizes. }
  split; [exact Hm |].
  rewrite (formatReasoning_with_link reasoning maxLen annotation Hm).
  by rewrite truncatedReasoning_truncateText.
Qed.

Lemma formatReasoning_synthesizes_link_witness :
  formatReasoning synthesisReasoning 20
  = lit "This synthesizes: [i..." ++ linkLine (lit "synthesizes: [idea_1, idea_2]").
Proof.
  assert (Hexample : synthesisReasoning
                     = lit "This "
                       ++ (lit "synthesizes" ++ lit ":" ++ lit " " ++ lit "["
                           ++ lit "idea_1, idea_2" ++ lit "]")
                       ++ lit " combining multiple approaches for better results")
    by (vm_compute; reflexivity).
  rewrite Hexample.
  destruct (formatReasoning_synthesizes_link (lit "This ") (lit "synthesizes") (lit " ")
              (lit "idea_1, idea_2")
              (lit " combining multiple approaches for better results") 20)
    as [_ Hformat].
  - unfold spelled. vm_compute. repeat constructor.
  - apply (bool_decide_unpack _). by vm_compute.
  - discriminate.
  - apply (bool_decide_unpack _). by vm_compute.
  - intros i Hi. do 5 (destruct i as [| i]; [vm_compute; reflexivity |]).
    vm_compute in Hi. lia.
  - rewrite Hformat. vm_compute. reflexivity.
Defined.

(* ===================================================================== *)
(** * Failure and recovery of the initialisation                          *)
(* ===================================================================== *)

Section InitFailure.
Context {B : Type} `{!MAMAApi B} `{!Host}.

Lemma initMAMA_initialized_returns (config : option PluginConfig) (w : World B) :
  initialized (vars w) = true →
  fst (initMAMA config w) = Returns tt ∧ vars (snd (initMAMA config w)) = vars w.
Proof.
  intros Hinit. unfold initMAMA, bind, getEnv, gets. simpl. rewrite Hinit. simpl.
  by destruct (truthyOpt (initialDbPath (vars w)) && _).
Qed.

Lemma resolveDbPath_from_env (p : jsstring) :
  truthy p = true → resolveDbPath None (Some p) = p.
Proof. intros Hp. unfold resolveDbPath. simpl. by rewrite Hp. Qed.

(** X4: [initMAMA] throws only on a plugin that is not initialised, and
    then leaves it uninitialised, so that the next call tries again; the
    value thrown is an Error whose message is the one logged after
    [Init failed:]; the recorded path is untouched, but the environment
    variable [MAMA_DB_PATH] already holds the path of the failed attempt,
    so a later call without a configured path resolves to that path. *)
Theorem initMAMA_failure (config : option PluginConfig) (w w1 : World B) (e : jsval) :
  initMAMA config w = (Throws e, w1) →
  let p := resolveDbPath config (envMamaDbPath w) in
  initialized (vars w) = false
  ∧ initialized (vars w1) = false
  ∧ initialDbPath (vars w1) = initialDbPath (vars w)
  ∧ envMamaDbPath w1 = Some p
  ∧ resolveDbPath None (envMamaDbPath w1) = p
  ∧ ∃ msg, e = JError msg
           ∧ console w1 = console w ++ [{| level := LevelError;
                                           args := [lit "[MAMA Plugin] Init failed:"; msg] |}].
Proof.
  intros Hthrow p.
  destruct (initialized (vars w)) eqn:Hinit.
  { destruct (initMAMA_initialized_returns config w Hinit) as [Hret _].
    by rewrite Hthrow in Hret. }
  split; [done |].
  assert (Hp : resolveDbPath None (Some p) = p)
    by apply resolveDbPath_from_env, resolveDbPath_truthy.
  revert Hthrow.
  unfold initMAMA, bind, getEnv, gets, setEnv, tryCatch, call, modify,
    consoleLog, consoleError, emit, throw. simpl. rewrite Hinit. simpl.
  fold p.
  destruct (requireMamaApi (backend w)) as [[[] | e1] b1]; simpl.
  - destruct (requireMemoryStore b1) as [[[] | e2] b2]; simpl.
    + destruct (initDB b2) as [[[] | e3] b3]; simpl; [done |].
      intros [= <- <-]. simpl. rewrite Hinit. repeat split; [done |].
      destruct e3; eexists; split; reflexivity.
    + intros [= <- <-]. simpl. rewrite Hinit. repeat split; [done |].
      destruct e2; eexists; split; reflexivity.
  - intros [= <- <-]. simpl. rewrite Hinit. repeat split; [done |].
    destruct e1; eexists; split; reflexivity.
Qed.

Lemma initMAMA_thrown (config : option PluginConfig) (w w1 : World B) (e : jsval) :
  initMAMA config w = (Throws e, w1) → ∃ msg, e = JError msg.
Proof.
  intros Hthrow.
  destruct (initialized (vars w)) eqn:Hinit.
  { destruct (initMAMA_initialized_returns config w Hinit) as [Hret _].
    by rewrite Hthrow in Hret. }
  revert Hthrow.
  unfold initMAMA, bind, getEnv, gets, setEnv, tryCatch, call, modify,
    consoleLog, consoleError, emit, throw. simpl. rewrite Hinit. simpl.
  destruct (requireMamaApi (backend w)) as [[[] | e1] b1]; simpl.
  - destruct (requireMemoryStore b1) as [[[] | e2] b2]; simpl.
    + destruct (initDB b2) as [[[] | e3] b3]; simpl; [done |].
      intros [= <- <-]. destruct e3; by eexists.
    + intros [= <- <-]. destruct e2; by eexists.
  - intros [= <- <-]. destruct e1; by eexists.
Qed.

Lemma initMAMA_returns_initialized (config : option PluginConfig) (w w1 : World B) :
  initMAMA config w = (Returns tt, w1) → initialized (vars w1) = true.
Proof.
  intros Hret. destruct (initialized (vars w)) eqn:Hinit.
  - destruct (initMAMA_initialized_returns config w Hinit) as [_ Hvars].
    rewrite Hret in Hvars. simpl in Hvars. by rewrite Hvars.
  - by destruct (initMAMA_first config w w1 Hinit Hret) as (? & _).
Qed.

(** Whenever the plugin is initialised, the backend module is loaded. *)
Lemma moduleLoaded_invariant :
  PluginInvariant (B := B) (fun s _ => initialized s = true → mama s = true).
Proof.
  split; try (simpl; intros; auto; fail).
  intros config w HP.
  destruct (initialized (vars w)) eqn:Hinit.
  - destruct (initMAMA_initialized_returns config w Hinit) as [_ Hvars].
    rewrite Hvars. by rewrite Hinit.
  - clear HP. unfold initMAMA, bind, getEnv, gets, setEnv, tryCatch, call, modify,
      consoleLog, consoleError, emit, throw. simpl. rewrite Hinit. simpl.
    destruct (requireMamaApi (backend w)) as [[[] | e1] b1]; simpl;
      [| by rewrite Hinit].
    destruct (requireMemoryStore b1) as [[[] | e2] b2]; simpl; [| by rewrite Hinit].
    destruct (initDB b2) as [[[] | e3] b3]; simpl; [done | by rewrite Hinit].
Qed.

(** X5: in every world that a freshly loaded plugin reaches through
    events, a successful [initMAMA] is followed by a successful
    [getMAMA()]: inside the handlers the guard of [getMAMA] never throws
    [MAMA not initialized]. *)
Theorem getMAMA_after_initMAMA (registered config : option PluginConfig)
    (events : list HostEvent) (env : option jsstring) (b : B) (w1 : World B) :
  initMAMA config (deliverAll registered events (loaded env b)) = (Returns tt, w1) →
  getMAMA w1 = (Returns tt, w1).
Proof.
  intros Hret. set (w := deliverAll registered events (loaded env b)) in *.
  assert (Hw : initialized (vars w) = true → mama (vars w) = true).
  { apply (deliverAll_invariant (fun s _ => initialized s = true → mama s = true));
      [apply moduleLoaded_invariant | done]. }
  pose proof (inv_init _ moduleLoaded_invariant config w Hw) as Hw1.
  rewrite Hret in Hw1. simpl in Hw1.
  unfold getMAMA, bind, gets. simpl.
  by rewrite (Hw1 (initMAMA_returns_initialized config w w1 Hret)).
Qed.

Lemma tryCatch_total {A : Type} (m : M B A) (h : jsval → M B A) (w : World B) :
  (∀ e w', ∃ a, fst (h e w') = Returns a) → ∃ a, fst (tryCatch m h w) = Returns a.
Proof.
  intros Hh. unfold tryCatch. destruct (m w) as [[a | e] w']; [by exists a | apply Hh].
Qed.

Lemma tryCatch_total_unit (m : M B unit) (h : jsval → M B unit) (w : World B) :
  (∀ e w', ∃ a, fst (h e w') = Returns a) → fst (tryCatch m h w) = Returns tt.
Proof.
  intros Hh. destruct (tryCatch_total m h w Hh) as [[] Ha]. exact Ha.
Qed.

(** X6: no event handler throws into the host: whatever the event is and
    whatever the backend does, whether it returns or throws, each of the
    six handlers returns. *)
Theorem handlers_never_throw (config : option PluginConfig) (event : jsval) (w : World B) :
  fst (session_start config event w) = Returns tt
  ∧ (∃ r, fst (before_agent_start config event w) = Returns r)
  ∧ fst (agent_end config event w) = Returns tt
  ∧ fst (session_end config event w) = Returns tt
  ∧ fst (before_compaction config event w) = Returns tt
  ∧ fst (after_compaction config event w) = Returns tt.
Proof.
  repeat split.
  - apply tryCatch_total_unit. intros e w'. by exists tt.
  - apply tryCatch_total. intros e w'. by exists None.
  - unfold agent_end. destruct (negb (isRecord event)); [done |].
    destruct (negb _ || _); [done |].
    apply tryCatch_total_unit. intros e w'. by exists tt.
  - apply tryCatch_total_unit. intros e w'. by exists tt.
  - apply tryCatch_total_unit. intros e w'. by exists tt.
  - apply tryCatch_total_unit. intros e w'. by exists tt.
Qed.
End InitFailure.

Lemma initMAMA_failure_witness :
  let w := Sample.fresh failingDbStore in
  let w1 := snd (initMAMA (Sample.configWith "/data/a.db") w) in
  initialized (vars w1) = false
  ∧ envMamaDbPath w1 = Some (lit "/data/a.db")
  ∧ resolveDbPath None (envMamaDbPath w1) = lit "/data/a.db".
Proof.
  intros w w1.
  assert (Hthrow : initMAMA (Sample.configWith "/data/a.db") w
                   = (Throws (JError (lit "unable to open database file")), w1))
    by (vm_compute; reflexivity).
  destruct (initMAMA_failure _ _ _ _ Hthrow) as (_ & Hinit & _ & Henv & Hnext & _).
  split; [exact Hinit |]. split; [exact Henv | exact Hnext].
Defined.

Lemma getMAMA_after_initMAMA_witness :
  let w := deliverAll None [SessionStart JUndefined; BeforeCompaction JUndefined]
             (loaded None Sample.fullStore) in
  getMAMA (snd (initMAMA None w)) = (Returns tt, snd (initMAMA None w)).
Proof.
  intros w.
  apply (getMAMA_after_initMAMA None None
           [SessionStart JUndefined; BeforeCompaction JUndefined] None Sample.fullStore).
  vm_compute. reflexivity.
Defined.

(* ===================================================================== *)
(** * Further properties of the event handlers                            *)
(* ===================================================================== *)

Section HandlerEffects.
Context {B : Type} `{!MAMAApi B} `{!Host}.

Lemma getMAMA_loaded (w : World B) : mama (vars w) = true → getMAMA w = (Returns tt, w).
Proof. intros Hm. unfold getMAMA, bind, gets. simpl. by rewrite Hm. Qed.

Lemma initMAMA_sessionFields (config : option PluginConfig) (w : World B) :
  sessionFields (vars (snd (initMAMA config w))) = sessionFields (vars w).
Proof.
  by apply (initMAMA_keeps (B := B) sessionFields (fun v => v = sessionFields (vars w))
              config).
Qed.

Lemma vars_unchanged {A : Type} (m : M B A) (w : World B) :
  (∀ s0, preserves (B := B) (fun s _ => s = s0) m) → vars (snd (m w)) = vars w.
Proof. intros Hm. by apply (Hm (vars w) w). Qed.

Lemma session_start_rest_vars (w2 : World B) :
  vars (snd (tryCatch
               (getMAMA ;;
                checkpoint <- call loadCheckpoint ;;
                getMAMA ;;
                recentDecisions <- call (listDecisions 5) ;;
                match checkpoint with
                | Some c => consoleLog (lit "[MAMA] Session start: Loaded checkpoint from "
                                        ++ cp_timestamp c)
                | None => ret tt
                end ;;
                if 0 <? length recentDecisions
                then consoleLog (lit "[MAMA] Session start: "
                                 ++ showNat (length recentDecisions)
                                 ++ lit " recent decisions available")
                else ret tt)
               (fun err => consoleError (lit "[MAMA] Session start error:")
                             (errorText err)) w2))
  = vars w2.
Proof.
  apply vars_unchanged. intros s0. unfold getMAMA, consoleLog, consoleError. frame.
Qed.

(** X7: a [session_start] event whose initialisation succeeds resets the
    session: the start time is the current time, the last prompt and the
    last compaction time are cleared, the candidate list is emptied and the
    compaction flag is lowered, also when loading the checkpoint or listing
    the decisions fails afterwards; when initialisation fails, nothing of
    the session is reset. *)
Theorem session_start_resets (config : option PluginConfig) (event : jsval)
    (w : World B) :
  let w' := snd (session_start config event w) in
  (∀ w1, initMAMA config w = (Returns tt, w1) →
     vars w' = sessionStarted (toISOString (dateNow (backend w1))) (vars w1))
  ∧ (∀ e w1, initMAMA config w = (Throws e, w1) →
       sessionFields (vars w') = sessionFields (vars w)).
Proof.
  intros w'. split.
  - intros w1 Hinit. subst w'. unfold session_start.
    rewrite (tryCatch_bind_returns _ _ _ _ _ _ Hinit). cbv beta.
    rewrite (tryCatch_bind_returns nowISO _ _ w1 _ w1 eq_refl). cbv beta.
    do 5 (rewrite (tryCatch_bind_returns (modify _) _ _ _ tt _ eq_refl); cbv beta).
    etrans; [apply session_start_rest_vars |]. reflexivity.
  - intros e w1 Hinit. subst w'. unfold session_start.
    rewrite (tryCatch_bind_throws _ _ _ _ _ _ Hinit). simpl.
    pose proof (initMAMA_sessionFields config w) as Hkeep.
    by rewrite Hinit in Hkeep.
Qed.
Lemma vars_recallSearch (prompt : jsstring) (w : World B) :
  vars (snd (recallSearch prompt w)) = vars w.
Proof.
  apply vars_unchanged. intros s0. unfold recallSearch, consoleError. frame.
Qed.

Lemma vars_call {A : Type} (op : B → outcome A * B) (w : World B) :
  vars (snd (call op w)) = vars w.
Proof. unfold call. by destruct (op (backend w)). Qed.

(** What [gatherRecall] does to the compaction flag. *)
Lemma gatherRecall_flag (prompt : jsstring) (w1 : World B) :
  match gatherRecall prompt w1 with
  | (Returns inp, w2) =>
      compactionNote inp = (if compactionOccurred (vars w1) then compactionNoteText else [])
      ∧ vars w2 = set_compactionOccurred false (vars w1)
  | (Throws e, w2) => vars w2 = vars w1
  end.
Proof.
  unfold gatherRecall, bind.
  pose proof (vars_recallSearch prompt w1) as Hsearch.
  destruct (recallSearch prompt w1) as [[semantic | e] wa]; simpl in Hsearch; [| done].
  pose proof (vars_call loadCheckpoint wa) as Hload.
  destruct (call loadCheckpoint wa) as [[cp | e] wb]; simpl in Hload; [| congruence].
  assert (Hnote : ∀ wc : World B, vars wc = vars w1 →
            match takeCompactionNote wc with
            | (Returns note, wd) =>
                note = (if compactionOccurred (vars w1) then compactionNoteText else [])
                ∧ vars wd = set_compactionOccurred false (vars w1)
            | (Throws e, wd) => False
            end).
  { intros wc Hwc. unfold takeCompactionNote, bind, gets, modify, ret. simpl.
    rewrite Hwc. destruct (compactionOccurred (vars w1)) eqn:Hflag; simpl.
    - by rewrite Hwc.
    - split; [done |]. rewrite Hwc. destruct (vars w1). simpl in *. by subst. }
  destruct (length semantic =? 0).
  - pose proof (vars_call (listDecisions 3) wb) as Hlist.
    destruct (call (listDecisions 3) wb) as [[recent | e] wc]; simpl in Hlist;
      [| congruence].
    specialize (Hnote wc ltac:(congruence)).
    by destruct (takeCompactionNote wc) as [[note | e] wd].
  - simpl. specialize (Hnote wb ltac:(congruence)).
    by destruct (takeCompactionNote wb) as [[note | e] wd].
Qed.

Lemma inject_keeps_flag (inp : RecallInputs) (w2 : World B) :
  vars (snd (tryCatch (injectContext inp) recallFailed w2)) = vars w2.
Proof.
  apply vars_unchanged. intros s0.
  unfold injectContext, renderContext, timestampISO, recallFailed, consoleError, consoleLog.
  frame.
Qed.

(** X8: the compaction flag is consumed by the first [before_agent_start]
    that gets as far as step 4: the note it collects is the recovery note
    if the flag was raised and empty otherwise, and the flag is lowered
    whether or not a context is injected, so that with nothing to inject
    the note is lost; when loading the checkpoint or listing the decisions
    throws before step 4, the flag stays as it was. *)
Theorem compaction_flag_consumed (config : option PluginConfig) (event : jsval)
    (w w1 : World B) (prompt : jsstring) :
  recallPrelude config event w = (Returns prompt, w1) →
  let w' := snd (before_agent_start config event w) in
  (∀ inp w2, gatherRecall prompt w1 = (Returns inp, w2) →
     compactionNote inp = (if compactionOccurred (vars w1) then compactionNoteText else [])
     ∧ compactionOccurred (vars w') = false
     ∧ (hasMemories inp = false → fst (before_agent_start config event w) = Returns None))
  ∧ (∀ e w2, gatherRecall prompt w1 = (Throws e, w2) →
       compactionOccurred (vars w') = compactionOccurred (vars w1)).
Proof.
  intros Hpre w'. subst w'. rewrite before_agent_start_phases, Hpre.
  pose proof (gatherRecall_flag prompt w1) as Hflag.
  split.
  - intros inp w2 Hgather. rewrite Hgather in Hflag |- *. destruct Hflag as [Hnote Hvars].
    split; [done |]. split.
    + by rewrite inject_keeps_flag, Hvars.
    + intros Hnone. destruct (injectContext_result inp w2)
        as [[_ Hr] | [[Hm _] | [Hm _]]]; [by rewrite Hr | congruence..].
  - intros e w2 Hgather. rewrite Hgather in Hflag |- *. simpl. by rewrite Hflag.
Qed.

(** X9: the semantic search of [before_agent_start] never throws: a prompt
    of fewer than 5 characters is not searched at all, a search that throws
    is logged and counts as no result, and so does a search that returns
    nothing. *)
Theorem recallSearch_contained (prompt : jsstring) (w : World B) :
  let options := {| so_limit := 3; so_threshold := 1 # 2 |} in
  (∃ results, fst (recallSearch prompt w) = Returns results)
  ∧ (length prompt < 5 → recallSearch prompt w = (Returns [], w))
  ∧ (5 ≤ length prompt →
     (∀ e b', suggest prompt options (backend w) = (Throws e, b') →
        recallSearch prompt w =
          (Returns [],
           {| vars := vars w; envMamaDbPath := envMamaDbPath w;
              console := console w
                         ++ [{| level := LevelError;
                                args := [lit "[MAMA] Semantic search error:"; errorText e] |}];
              backend := b' |}))
     ∧ (∀ b', suggest prompt options (backend w) = (Returns None, b') →
          fst (recallSearch prompt w) = Returns [])
     ∧ (∀ found b', suggest prompt options (backend w) = (Returns (Some found), b') →
          fst (recallSearch prompt w) = Returns (sr_results found))).
Proof.
  intros options. unfold recallSearch.
  destruct (Nat.leb_spec 5 (length prompt)) as [Hlong | Hshort].
  - assert (Ht : truthy prompt = true) by (destruct prompt; [simpl in Hlong; lia | done]).
    rewrite Ht. simpl. fold options.
    unfold tryCatch, bind, call, consoleError, emit, ret. simpl.
    destruct (suggest prompt options (backend w)) as [[[found |] | e] b'] eqn:Hs; simpl.
    + split; [by eexists |]. split; [lia |]. intros _.
      split; [by intros ? ? [=] |]. split; [by intros ? [=] |]. by intros ? ? [= <- <-].
    + split; [by eexists |]. split; [lia |]. intros _.
      split; [by intros ? ? [=] |]. split; [done |]. by intros ? ? [=].
    + split; [by eexists |]. split; [lia |]. intros _.
      split; [by intros ? ? [= <- <-] |]. split; [by intros ? [=] |]. by intros ? ? [=].
  - rewrite andb_false_r. split; [by eexists |]. split; [done | lia].
Qed.

(** X10: a loaded checkpoint whose timestamp is not a valid date makes
    [before_agent_start] inject nothing, whatever else it has collected:
    formatting the date throws, the handler logs the error and returns
    nothing. *)
Theorem undated_checkpoint_blocks_recall (config : option PluginConfig) (event : jsval)
    (w w1 w2 : World B) (prompt : jsstring) (inp : RecallInputs) (c : MAMACheckpoint) :
  recallPrelude config event w = (Returns prompt, w1) →
  gatherRecall prompt w1 = (Returns inp, w2) →
  checkpoint inp = Some c →
  dateParse (cp_timestamp c) = None →
  before_agent_start config event w =
    (Returns None,
     {| vars := vars w2; envMamaDbPath := envMamaDbPath w2;
        console := console w2
                   ++ [{| level := LevelError;
                          args := [lit "[MAMA] Auto-recall error:";
                                   lit "Invalid time value"] |}];
        backend := backend w2 |}).
Proof.
  intros Hpre Hgather Hcp Hdate.
  rewrite before_agent_start_phases, Hpre, Hgather.
  unfold injectContext, renderContext, timestampISO. rewrite Hcp, Hdate. simpl.
  reflexivity.
Qed.

(** X11: a context that [before_agent_start] has injected is never taken
    for a decision by [agent_end], neither alone nor inside a longer
    message: the marker it starts with makes the detection loop skip the
    text. *)
Theorem injected_context_never_captured (config : option PluginConfig) (event : jsval)
    (w : World B) (content pre post : jsstring) :
  fst (before_agent_start config event w) = Returns (Some content) →
  includes (pre ++ content ++ post) (lit "<relevant-memories>") = true
  ∧ isCandidate (pre ++ content ++ post) = false
  ∧ ∀ w' : World B, captureStep (pre ++ content ++ post) w' = (Returns tt, w').
Proof.
  rewrite before_agent_start_phases.
  destruct (recallPrelude config event w) as [[prompt | e] w1]; [| done].
  destruct (gatherRecall prompt w1) as [[inp | e] w2]; [| done].
  destruct (injectContext_result inp w2) as [[_ Hr] | [[_ Hr] | [_ (cpText & _ & Hr)]]];
    rewrite Hr; [done | done |]. intros [= <-].
  assert (Hinc : includes (pre ++ (contextHeader ++ semanticSection (semanticResults inp)
                            ++ cpText ++ recentSection (recentDecisions inp)
                            ++ compactionNote inp ++ contextFooter) ++ post)
                   (lit "<relevant-memories>") = true).
  { unfold contextHeader. rewrite <- !app_assoc. apply includes_occurrence. }
  assert (Hrej : isCandidate (pre ++ (contextHeader ++ semanticSection (semanticResults inp)
                            ++ cpText ++ recentSection (recentDecisions inp)
                            ++ compactionNote inp ++ contextFooter) ++ post) = false).
  { unfold isCandidate. rewrite Hinc. by destruct (_ || _). }
  split; [exact Hinc |]. split; [exact Hrej |].
  intros w'. by apply captureStep_rejected.
Qed.
End HandlerEffects.

Lemma compaction_flag_consumed_witness :
  let w := snd (before_compaction None JUndefined (Sample.fresh Sample.emptyStore)) in
  let event := Sample.promptEvent (lit "hi") in
  compactionOccurred (vars w) = true
  ∧ fst (before_agent_start None event w) = Returns None
  ∧ compactionOccurred (vars (snd (before_agent_start None event w))) = false.
Proof.
  intros w event.
  split; [vm_compute; reflexivity |].
  assert (Hpre : recallPrelude None event w
                 = (Returns (lit "hi"), snd (recallPrelude None event w)))
    by (vm_compute; reflexivity).
  destruct (compaction_flag_consumed None event w _ _ Hpre) as [Hgathered _].
  edestruct Hgathered as (_ & Hflag & Hnone); [vm_compute; reflexivity |].
  split; [apply Hnone; reflexivity | exact Hflag].
Defined.

Lemma recallSearch_contained_witness :
  recallSearch (lit "auth") (Sample.fresh Sample.fullStore)
  = (Returns [], Sample.fresh Sample.fullStore).
Proof.
  apply (recallSearch_contained (lit "auth") (Sample.fresh Sample.fullStore)).
  vm_compute. lia.
Defined.

Lemma undated_checkpoint_blocks_recall_witness :
  fst (before_agent_start None (Sample.promptEvent (lit "auth strategy"))
         (Sample.fresh undatedStore)) = Returns None.
Proof.
  erewrite undated_checkpoint_blocks_recall; [reflexivity | ..].
  - vm_compute. reflexivity.
  - vm_compute. reflexivity.
  - reflexivity.
  - reflexivity.
Defined.

Lemma injected_context_never_captured_witness :
  isCandidate (lit "Earlier you told me: " ++ sampleContent ++ lit " so we decided") = false.
Proof.
  apply (injected_context_never_captured None (Sample.promptEvent (lit "auth strategy"))
           (Sample.fresh Sample.fullStore) sampleContent).
  vm_compute. reflexivity.
Defined.

Lemma session_start_resets_witness :
  let w := snd (before_compaction None JUndefined (Sample.fresh Sample.emptyStore)) in
  let w' := snd (session_start None JUndefined w) in
  compactionOccurred (vars w) = true
  ∧ lastCompactionAt (vars w) = Some (lit "1705320000000")
  ∧ compactionOccurred (vars w') = false
  ∧ lastCompactionAt (vars w') = None
  ∧ sessionStartedAt (vars w') = Some (lit "1705320000000").
Proof.
  intros w w'.
  split; [vm_compute; reflexivity |]. split; [vm_compute; reflexivity |].
  destruct (session_start_resets None JUndefined w) as [Hreset _].
  fold w' in Hreset.
  rewrite (Hreset (snd (initMAMA None w))) by (vm_compute; reflexivity).
  repeat split.
Defined.

Section SessionEnd.
Context {B : Type} `{!MAMAApi B} `{!Host}.

Lemma shouldSkip_true (existing : option MAMACheckpoint) (now : Z) :
  shouldSkip existing now = true ↔
    ∃ c t, existing = Some c ∧ dateParse (cp_timestamp c) = Some t
           ∧ (now - t < 300000)%Z.
Proof.
  unfold shouldSkip, isRecentCheckpoint, defaultThresholdMs. split.
  - destruct existing as [c |]; [| done].
    destruct (dateParse (cp_timestamp c)) as [t |] eqn:Ht; [| done].
    intros Hlt. exists c, t. repeat split; [done |]. apply Z.ltb_lt in Hlt. lia.
  - intros (c & t & -> & -> & Hlt). apply Z.ltb_lt. lia.
Qed.

(** X12: [session_end] skips its auto-save exactly when a checkpoint
    exists, its timestamp is a valid date and it is less than 300000 ms
    old; a checkpoint with an invalid timestamp does not prevent the save.
    When it skips, it only logs: nothing is listed and nothing is saved.
    When it does not skip, it lists up to 10 decisions and saves one
    checkpoint, with the composed summary, no open files and the composed
    next steps.  In both cases the plugin's variables stay as they are:
    ending a session clears nothing. *)
Theorem session_end_skips_or_saves (config : option PluginConfig) (event : jsval)
    (w w1 : World B) (existing : option MAMACheckpoint) (b1 : B) :
  initMAMA config w = (Returns tt, w1) →
  mama (vars w1) = true →
  loadCheckpoint (backend w1) = (Returns existing, b1) →
  let now := dateNow b1 in
  let w' := snd (session_end config event w) in
  (shouldSkip existing now = true ↔
     ∃ c t, existing = Some c ∧ dateParse (cp_timestamp c) = Some t
            ∧ (now - t < 300000)%Z)
  ∧ (shouldSkip existing now = true →
     session_end config event w =
       (Returns tt,
        {| vars := vars w1; envMamaDbPath := envMamaDbPath w1;
           console := console w1
                      ++ [{| level := LevelLog;
                             args := [lit "[MAMA] Session end: Skipping auto-save (recent checkpoint exists)"] |}];
           backend := b1 |}))
  ∧ (shouldSkip existing now = false →
     ∀ recent b2 r b3,
       listDecisions 10 b1 = (Returns recent, b2) →
       saveCheckpoint (sessionSummary (toISOString now) (vars w1) recent) []
         (sessionNextSteps (vars w1) recent) b2 = (r, b3) →
       backend w' = b3 ∧ vars w' = vars w1).
Proof.
  intros Hinit Hmama Hload now w'.
  split; [apply shouldSkip_true |].
  assert (Hstart : session_end config event w =
            tryCatch
              (if shouldSkip existing now then
                 consoleLog (lit "[MAMA] Session end: Skipping auto-save (recent checkpoint exists)")
               else
                 endedAt <- nowISO ;;
                 getMAMA ;;
                 recent <- call (listDecisions 10) ;;
                 s <- gets (fun s => s) ;;
                 getMAMA ;;
                 checkpointId <- call (saveCheckpoint (sessionSummary endedAt s recent) []
                                         (sessionNextSteps s recent)) ;;
                 consoleLog (lit "[MAMA] Session end: Auto-saved checkpoint (id: "
                             ++ showZ checkpointId ++ lit ", decisions: "
                             ++ showNat (length recent) ++ lit ")"))
              (fun err => consoleError (lit "[MAMA] Session end error:") (errorText err))
              {| vars := vars w1; envMamaDbPath := envMamaDbPath w1;
                 console := console w1; backend := b1 |}).
  { unfold session_end.
    rewrite (tryCatch_bind_returns _ _ _ _ _ _ Hinit). cbv beta.
    rewrite (tryCatch_bind_returns getMAMA _ _ w1 tt w1 (getMAMA_loaded w1 Hmama)). cbv beta.
    assert (Hcall : call loadCheckpoint w1
                    = (Returns existing,
                       {| vars := vars w1; envMamaDbPath := envMamaDbPath w1;
                          console := console w1; backend := b1 |}))
      by (unfold call; by rewrite Hload).
    rewrite (tryCatch_bind_returns _ _ _ _ _ _ Hcall). cbv beta.
    by rewrite (tryCatch_bind_returns (fun w0 : World B => (Returns (dateNow (backend w0)), w0))
                  _ _ {| vars := vars w1; envMamaDbPath := envMamaDbPath w1;
                         console := console w1; backend := b1 |} now
                  {| vars := vars w1; envMamaDbPath := envMamaDbPath w1;
                     console := console w1; backend := b1 |} eq_refl). }
  split.
  - intros Hskip. rewrite Hstart, Hskip. reflexivity.
  - intros Hskip recent b2 r b3 Hlist Hsave. subst w'. rewrite Hstart, Hskip.
    set (wa := {| vars := vars w1; envMamaDbPath := envMamaDbPath w1;
                  console := console w1; backend := b1 |}).
    rewrite (tryCatch_bind_returns nowISO _ _ wa (toISOString now) wa eq_refl). cbv beta.
    rewrite (tryCatch_bind_returns getMAMA _ _ wa tt wa (getMAMA_loaded wa Hmama)). cbv beta.
    set (wb := {| vars := vars w1; envMamaDbPath := envMamaDbPath w1;
                  console := console w1; backend := b2 |}).
    assert (Hcall : call (listDecisions 10) wa = (Returns recent, wb))
      by (unfold call; simpl; by rewrite Hlist).
    rewrite (tryCatch_bind_returns _ _ _ _ _ _ Hcall). cbv beta.
    rewrite (tryCatch_bind_returns (gets (fun s => s)) _ _ wb (vars w1) wb eq_refl). cbv beta.
    rewrite (tryCatch_bind_returns getMAMA _ _ wb tt wb (getMAMA_loaded wb Hmama)). cbv beta.
    unfold tryCatch, bind, call. simpl. rewrite Hsave.
    by destruct r.
Qed.
End SessionEnd.

Lemma session_end_skips_or_saves_witness :
  let w := started recentStore in
  session_end None JUndefined w =
    (Returns tt,
     {| vars := vars w; envMamaDbPath := envMamaDbPath w;
        console := console w
                   ++ [{| level := LevelLog;
                          args := [lit "[MAMA] Session end: Skipping auto-save (recent checkpoint exists)"] |}];
        backend := recentStore |}).
Proof.
  intros w.
  assert (Hinit : initMAMA None w = (Returns tt, w)) by (vm_compute; reflexivity).
  assert (Hmama : mama (vars w) = true) by (vm_compute; reflexivity).
  assert (Hload : loadCheckpoint (backend w)
                  = (Returns (Sample.st_checkpoint recentStore), recentStore))
    by (vm_compute; reflexivity).
  destruct (session_end_skips_or_saves None JUndefined w w _ _ Hinit Hmama Hload)
    as (_ & Hskip & _).
  apply Hskip. vm_compute. reflexivity.
Defined.

Section CaptureEffects.
Context {B : Type} `{!MAMAApi B} `{!Host}.

Lemma set_candidates_twice (l l' : list jsstring) (s : PluginState) :
  set_lastAutoCaptureCandidates l (set_lastAutoCaptureCandidates l' s)
  = set_lastAutoCaptureCandidates l s.
Proof. reflexivity. Qed.

Lemma set_candidates_same (s : PluginState) :
  set_lastAutoCaptureCandidates (lastAutoCaptureCandidates s) s = s.
Proof. by destruct s. Qed.

Lemma forEach_captureStep_frame (texts : list jsstring) (w : World B) :
  let w' := snd (forEach texts captureStep w) in
  backend w' = backend w ∧ envMamaDbPath w' = envMamaDbPath w
  ∧ vars w' = set_lastAutoCaptureCandidates (lastAutoCaptureCandidates (vars w')) (vars w).
Proof.
  revert w. induction texts as [| text texts IH]; intros w; simpl.
  - by rewrite set_candidates_same.
  - destruct (isCandidate text) eqn:Hc.
    + rewrite (bind_returns _ _ _ _ _ (captureStep_accepted text w Hc)). cbv beta.
      match goal with |- context [forEach texts captureStep ?w2] =>
        destruct (IH w2) as (Hb & He & Hv) end.
      simpl in *. split; [done |]. split; [done |].
      rewrite Hv at 1. apply set_candidates_twice.
    + rewrite (bind_returns _ _ _ _ _ (captureStep_rejected text w Hc)). cbv beta.
      apply IH.
Qed.

(** X13: [agent_end] ignores an event that is not a record, whose
    [success] is not the boolean [true] or whose [messages] are missing or
    empty: it does not even initialise.  On an initialised plugin a
    successful event with messages makes no backend call and changes, of
    the plugin's variables, only the candidate list, into which it inserts
    the 160-character truncations of the accepted texts of the user and
    assistant messages, in order. *)
Theorem agent_end_effect (config : option PluginConfig) (event : jsval) (w : World B) :
  (isRecord event = false
   ∨ getField event (lit "success") ≠ JBool true
   ∨ (∀ items, getField event (lit "messages") = JArray items → items = []) →
   agent_end config event w = (Returns tt, w))
  ∧ (∀ p items,
       initializedWith p (vars w) (envMamaDbPath w) →
       isRecord event = true →
       getField event (lit "success") = JBool true →
       getField event (lit "messages") = JArray items →
       items ≠ [] →
       let w' := snd (agent_end config event w) in
       backend w' = backend w ∧ envMamaDbPath w' = envMamaDbPath w
       ∧ vars w' =
           set_lastAutoCaptureCandidates
             (insertAll (map (fun t => truncateText t 160)
                           (filter isCandidate (extractTexts items)))
                (lastAutoCaptureCandidates (vars w)))
             (vars w)).
Proof.
  split.
  - intros Hignored. unfold agent_end.
    destruct (isRecord event) eqn:Hrec; [| done]. simpl.
    destruct Hignored as [Hrec' | [Hsuccess | Hmessages]]; [done | |].
    + destruct (getField event (lit "success")) as [| | [|] | | | | |]; done.
    + destruct (getField event (lit "success")) as [| | [|] | | | | |]; try done.
      destruct (getField event (lit "messages")) as [| | | | | items | |]; try done.
      by rewrite (Hmessages items eq_refl).
  - intros p items Hw Hrec Hsuccess Hmessages Hne w'. subst w'.
    unfold agent_end. rewrite Hrec, Hsuccess, Hmessages. simpl.
    destruct items as [| item items]; [done |].
    change (length (item :: items) =? 0) with false. cbv iota.
    rewrite (tryCatch_bind_returns _ _ _ _ _ _ (initMAMA_again config p w Hw)). cbv beta.
    set (wi := {| vars := vars w; envMamaDbPath := envMamaDbPath w;
                  console := console w ++ reinitLog p config; backend := backend w |}).
    destruct (forEach_captureStep (extractTexts (item :: items)) wi) as [Hret Hcands].
    destruct (forEach_captureStep_frame (extractTexts (item :: items)) wi)
      as (Hb & He & Hv).
    unfold tryCatch.
    destruct (forEach (extractTexts (item :: items)) captureStep wi) as [[[] | e] wf];
      [| done].
    simpl in *. by rewrite Hb, He, Hv, Hcands.
Qed.

(** X14: candidates are compared after truncation: two accepted texts of
    more than 160 characters that agree on their first 160 characters give
    the same candidate, and the second one is not recorded again. *)
Theorem candidates_compared_after_truncation (t1 t2 : jsstring) (w : World B) :
  160 < length t1 → 160 < length t2 → take 160 t1 = take 160 t2 →
  isCandidate t1 = true → isCandidate t2 = true →
  truncateText t1 160 = truncateText t2 160
  ∧ lastAutoCaptureCandidates (vars (snd (forEach [t1; t2] captureStep w)))
    = lastAutoCaptureCandidates (vars (snd (captureStep t1 w))).
Proof.
  intros Hl1 Hl2 Hprefix Hc1 Hc2.
  assert (Hsame : truncateText t1 160 = truncateText t2 160).
  { rewrite !truncateText_long by done. by rewrite Hprefix. }
  split; [exact Hsame |].
  destruct (forEach_captureStep [t1; t2] w) as [_ ->].
  rewrite (captureStep_accepted t1 w Hc1). simpl.
  rewrite !filter_cons_True by (by rewrite ?Hc1, ?Hc2). rewrite filter_nil. simpl.
  rewrite <- Hsame. unfold insertAll. simpl.
  apply insertCandidate_present, insertCandidate_elem.
Qed.
End CaptureEffects.

Lemma agent_end_effect_witness :
  let w := started Sample.fullStore in
  let event := agentEndEvent (JBool true)
                 (JArray [userMessage (lit "I decided that we will use sqlite")]) in
  agent_end None (agentEndEvent (JString (lit "true")) (JArray [])) w = (Returns tt, w)
  ∧ backend (snd (agent_end None event w)) = Sample.fullStore
  ∧ lastAutoCaptureCandidates (vars (snd (agent_end None event w)))
    = [lit "I decided that we will use sqlite"].
Proof.
  intros w event.
  destruct (agent_end_effect None (agentEndEvent (JString (lit "true")) (JArray [])) w)
    as [Hignored _].
  split; [apply Hignored; right; left; discriminate |].
  destruct (agent_end_effect None event w) as [_ Heffect].
  assert (Hw : initializedWith (lit "/home/user/.claude/mama-memory.db")
                 (vars w) (envMamaDbPath w)) by (by vm_compute).
  assert (Hne : [userMessage (lit "I decided that we will use sqlite")] ≠ [])
    by discriminate.
  destruct (Heffect _ _ Hw eq_refl eq_refl eq_refl Hne) as (Hb & _ & Hv).
  split; [exact Hb |]. rewrite Hv. vm_compute. reflexivity.
Defined.

Lemma candidates_compared_after_truncation_witness :
  let t1 := lit "we decided to use sqlite " ++ replicate 150 120%N ++ lit " for now" in
  let t2 := lit "we decided to use sqlite " ++ replicate 150 120%N ++ lit " forever" in
  t1 ≠ t2
  ∧ lastAutoCaptureCandidates
      (vars (snd (forEach [t1; t2] captureStep (started Sample.emptyStore))))
    = [truncateText t1 160].
Proof.
  intros t1 t2. split; [by vm_compute |].
  assert (Hl1 : 160 < length t1) by (vm_compute; lia).
  assert (Hl2 : 160 < length t2) by (vm_compute; lia).
  assert (Hprefix : take 160 t1 = take 160 t2) by (vm_compute; reflexivity).
  assert (Hc1 : isCandidate t1 = true) by (vm_compute; reflexivity).
  assert (Hc2 : isCandidate t2 = true) by (vm_compute; reflexivity).
  destruct (candidates_compared_after_truncation t1 t2 (started Sample.emptyStore)
              Hl1 Hl2 Hprefix Hc1 Hc2) as [_ Hsame].
  etrans; [exact Hsame |]. vm_compute. reflexivity.
Defined.

(* ===================================================================== *)
(** * The tools                                                           *)
(* ===================================================================== *)

Section ToolProperties.
Context {B : Type} `{!MAMAApi B} `{!Host} `{!ToolRuntime} `{!MAMAToolsApi B}.

Lemma stringParam_falsy (params : jsval) (key : string) :
  jsTruthy (getField params (lit key)) = false → stringParam params key = [].
Proof.
  intros Hf. unfold stringParam, orEmpty. rewrite Hf. apply stringOf_string.
Qed.

Lemma tool_total (m : M B jsstring) (w : World B) :
  ∃ text, fst (tryCatch m toolFailed w) = Returns text.
Proof.
  unfold tryCatch. destruct (m w) as [[text | e] w']; by eexists.
Qed.

(** X15: no tool throws: when initialisation or a backend call throws, the
    tool returns the text [MAMA error: ] followed by the message of the
    error; in particular, when initialisation fails each tool answers with
    the message of the initialisation error and calls nothing else. *)
Theorem tools_never_throw (config : option PluginConfig) (params : jsval) (w : World B) :
  (∃ text, fst (mama_search config params w) = Returns text)
  ∧ (∃ text, fst (mama_save config params w) = Returns text)
  ∧ (∃ text, fst (mama_load_checkpoint config params w) = Returns text)
  ∧ (∃ text, fst (mama_update config params w) = Returns text)
  ∧ (∀ e w1, initMAMA config w = (Throws e, w1) →
       ∃ msg, e = JError msg
         ∧ mama_search config params w = (Returns (lit "MAMA error: " ++ msg), w1)
         ∧ mama_save config params w = (Returns (lit "MAMA error: " ++ msg), w1)
         ∧ mama_load_checkpoint config params w = (Returns (lit "MAMA error: " ++ msg), w1)
         ∧ mama_update config params w = (Returns (lit "MAMA error: " ++ msg), w1)).
Proof.
  do 4 (split; [apply tool_total |]).
  intros e w1 Hinit.
  destruct (initMAMA_thrown config w w1 e Hinit) as [msg ->].
  exists msg. split; [done |].
  unfold mama_search, mama_save, mama_load_checkpoint, mama_update.
  by rewrite !(tryCatch_bind_throws _ _ _ _ _ _ Hinit).
Qed.



(** X18: [mama_load_checkpoint] loads the checkpoint and then lists up to
    5 decisions.  Without a checkpoint it answers with the fresh-start
    text; with a checkpoint whose timestamp is a valid date, with the
    checkpoint text; with a checkpoint whose timestamp is not a valid date,
    with an error text instead of the checkpoint; and when listing the
    decisions throws, with that error, although a checkpoint was loaded. *)
Theorem mama_load_checkpoint_answers (config : option PluginConfig) (params : jsval)
    (w w1 : World B) (loadedCheckpoint : option MAMACheckpoint) (b1 : B) :
  initMAMA config w = (Returns tt, w1) →
  mama (vars w1) = true →
  loadCheckpoint (backend w1) = (Returns loadedCheckpoint, b1) →
  (∀ recent b2, listDecisions 5 b1 = (Returns recent, b2) →
     mama_load_checkpoint config params w =
       (Returns (match loadedCheckpoint with
                 | None => freshStartText recent
                 | Some c =>
                     match dateParse (cp_timestamp c) with
                     | Some t => checkpointText c (toISOString t) recent
                     | None => lit "MAMA error: " ++ lit "Invalid time value"
                     end
                 end),
        {| vars := vars w1; envMamaDbPath := envMamaDbPath w1;
           console := console w1; backend := b2 |}))
  ∧ (∀ e b2, listDecisions 5 b1 = (Throws e, b2) →
       fst (mama_load_checkpoint config params w)
       = Returns (lit "MAMA error: " ++ errorText e)).
Proof.
  intros Hinit Hmama Hload.
  set (wa := {| vars := vars w1; envMamaDbPath := envMamaDbPath w1;
                console := console w1; backend := b1 |}).
  assert (Hcall : call loadCheckpoint w1 = (Returns loadedCheckpoint, wa))
    by (unfold call; by rewrite Hload).
  unfold mama_load_checkpoint.
  rewrite (tryCatch_bind_returns _ _ _ _ _ _ Hinit). cbv beta.
  rewrite (tryCatch_bind_returns getMAMA _ _ w1 tt w1 (getMAMA_loaded w1 Hmama)). cbv beta.
  rewrite (tryCatch_bind_returns _ _ _ _ _ _ Hcall). cbv beta.
  rewrite (tryCatch_bind_returns getMAMA _ _ wa tt wa (getMAMA_loaded wa Hmama)). cbv beta.
  split.
  - intros recent b2 Hlist.
    unfold tryCatch, bind, call, toolFailed, timestampISO, ret, throw. simpl.
    rewrite Hlist. destruct loadedCheckpoint as [c |]; [| done].
    by destruct (dateParse (cp_timestamp c)).
  - intros e b2 Hlist. unfold tryCatch, bind, call, toolFailed, ret. simpl.
    by rewrite Hlist.
Qed.
Lemma trimStart_head (s : jsstring) :
  match trimStart s with
  | [] => True
  | c :: _ => isWhiteSpace c = false
  end.
Proof.
  induction s as [| c s IH]; simpl; [done |].
  by destruct (isWhiteSpace c) eqn:Hc; [| simpl].
Qed.

Lemma trimStart_blank (s : jsstring) :
  trimStart s = [] ↔ Forall (fun c => isWhiteSpace c = true) s.
Proof.
  induction s as [| c s IH]; simpl; [done |].
  destruct (isWhiteSpace c) eqn:Hc.
  - rewrite IH. split; [by constructor | by inversion 1].
  - split; [done |]. inversion 1 as [| c' t' Hc' _]. simpl in Hc'. congruence.
Qed.

(** A text trims to the empty text exactly when it is blank. *)
Lemma trim_blank (s : jsstring) :
  trim s = [] ↔ Forall (fun c => isWhiteSpace c = true) s.
Proof.
  unfold trim, trimEnd. split.
  - intros Hempty. apply trimStart_blank.
    assert (Hrev : trimStart (reverse (trimStart s)) = []).
    { apply (f_equal reverse) in Hempty. by rewrite reverse_involutive in Hempty. }
    apply trimStart_blank in Hrev. rewrite Forall_reverse in Hrev.
    pose proof (trimStart_head s) as Hhead.
    destruct (trimStart s) as [| c t]; [done |].
    inversion Hrev as [| c' t' Hc _]. simpl in Hc, Hhead. congruence.
  - intros Hblank. apply trimStart_blank in Hblank. by rewrite Hblank.
Qed.

(** X22: the limit that [mama_search] passes to the backend is never more
    than 20; it is 5 when no limit is given or the limit is 0; a number
    other than 0 is passed as it is up to 20, so that a negative limit
    reaches the backend unchanged. *)
Theorem mama_search_limit :
  (∀ v, searchLimit v = NegInfinity
        ∨ ∃ q, searchLimit v = Finite q ∧ (q <= inject_Z 20)%Q)
  ∧ searchLimit JUndefined = Finite (inject_Z 5)
  ∧ searchLimit (JNumber 0) = Finite (inject_Z 5)
  ∧ (∀ z, z ≠ 0%Z → searchLimit (JNumber z) = Finite (inject_Z (Z.min z 20))).
Proof.
  unfold searchLimit, numOr. repeat split.
  - intros v. destruct (numberOf v) as [q | | |]; simpl.
    + destruct (Qeq_bool q 0); simpl.
      * right. by eexists.
      * destruct (Qle_bool q (inject_Z 20)) eqn:Hle; right; eexists; (split; [done |]);
          [by apply Qle_bool_iff | done].
    + right. by eexists.
    + right. by eexists.
    + by left.
  - by rewrite numberOf_undefined.
  - by rewrite numberOf_number.
  - intros z Hz. rewrite numberOf_number. simpl.
    assert (Hnz : Qeq_bool (inject_Z z) 0 = false).
    { unfold Qeq_bool, inject_Z. simpl. apply Z.eqb_neq. lia. }
    rewrite Hnz. simpl. unfold Qle_bool, inject_Z. simpl.
    destruct (Z.leb_spec (z * 1) (20 * 1)).
    + rewrite Z.min_l by lia. reflexivity.
    + rewrite Z.min_r by lia. reflexivity.
Qed.

End ToolProperties.

Lemma tools_never_throw_witness :
  fst (mama_search (Sample.configWith "/data/a.db") (searchParams "auth" JUndefined)
         (Sample.fresh failingDbStore))
  = Returns (lit "MAMA error: unable to open database file").
Proof.
  destruct (tools_never_throw (Sample.configWith "/data/a.db")
              (searchParams "auth" JUndefined) (Sample.fresh failingDbStore))
    as (_ & _ & _ & _ & Hfailed).
  edestruct Hfailed as (msg & Hmsg & Hsearch & _); [vm_compute; reflexivity |].
  rewrite Hsearch. injection Hmsg as <-. reflexivity.
Defined.

Lemma mama_search_limit_witness :
  searchLimit (JNumber (-3)) = Finite (inject_Z (-3))
  ∧ searchLimit (JNumber 50) = Finite (inject_Z 20).
Proof.
  destruct mama_search_limit as (_ & _ & _ & Hnumber).
  split; [apply (Hnumber (-3)%Z) | apply (Hnumber 50%Z)]; lia.
Defined.




Lemma mama_load_checkpoint_answers_witness :
  fst (mama_load_checkpoint None JUndefined (started undatedStore))
  = Returns (lit "MAMA error: Invalid time value").
Proof.
  assert (Hinit : initMAMA None (started undatedStore) = (Returns tt, started undatedStore))
    by (vm_compute; reflexivity).
  assert (Hmama : mama (vars (started undatedStore)) = true) by (vm_compute; reflexivity).
  assert (Hload : loadCheckpoint (backend (started undatedStore))
                  = (Returns (Some undatedCheckpoint), undatedStore))
    by (vm_compute; reflexivity).
  destruct (mama_load_checkpoint_answers None JUndefined _ _ _ _ Hinit Hmama Hload)
    as [Hanswer _].
  erewrite Hanswer; [| vm_compute; reflexivity]. vm_compute. reflexivity.
Defined.

(* ===================================================================== *)
(** * Which handler assigns which variable                                *)
(* ===================================================================== *)

Section Writers.
Context {B : Type} `{!MAMAApi B} `{!Host}.

Ltac keeps :=
  frame;
  first [ by apply (initMAMA_keeps (B := B) _ (fun x => x = _))
        | apply preserves_modify; by intros ].

Lemma kept {A X : Type} (g : PluginState → X) (m : M B A) (w : World B) :
  (∀ v, preserves (B := B) (fun s _ => g s = v) m) →
  g (vars (snd (m w))) = g (vars w).
Proof. intros Hm. by apply (Hm (g (vars w)) w). Qed.

(** X19: each session variable is assigned only by the handlers that the
    table [assigns] lists for it: the start time only by [session_start],
    the last prompt only by [session_start] and [before_agent_start], the
    compaction time only by [session_start] and [before_compaction], the
    candidates only by [session_start] and [agent_end], the compaction
    flag only by [session_start], [before_agent_start] and
    [before_compaction].  In particular [session_end] and
    [after_compaction] assign none of them. *)
Theorem session_variable_writers (config : option PluginConfig) (ev : HostEvent)
    (x : SessionVar) (w : World B) :
  assigns ev x = false → sameVar x (vars (deliver config ev w)) (vars w).
Proof.
  destruct ev as [event | event | event | event | event | event], x;
    simpl; try discriminate; intros _; apply kept; intros v.
  all: unfold before_agent_start, recallPrelude, gatherRecall, recallSearch,
         takeCompactionNote, injectContext, renderContext, timestampISO, recallFailed,
         agent_end, captureStep, session_end, before_compaction, after_compaction,
         getMAMA, nowISO, consoleError, consoleLog.
  all: keeps.
Qed.
End Writers.

Lemma session_variable_writers_witness :
  let w := deliverAll None [SessionStart JUndefined; BeforeCompaction JUndefined]
             (loaded None Sample.fullStore) in
  compactionOccurred (vars w) = true
  ∧ compactionOccurred (vars (deliver None (AfterCompaction JUndefined) w)) = true.
Proof.
  intros w. split; [vm_compute; reflexivity |].
  etrans; [apply (session_variable_writers None (AfterCompaction JUndefined)
                    VCompactionOccurred w); reflexivity |].
  vm_compute. reflexivity.
Defined.

Section ToolFrame.
Context {B : Type} `{!MAMAApi B} `{!Host} `{!ToolRuntime} `{!MAMAToolsApi B}.

Lemma tool_keeps (m : M B jsstring) (w : World B) :
  (∀ v, preserves (B := B) (fun s _ => sessionFields s = v) m) →
  sessionFields (vars (snd (m w))) = sessionFields (vars w).
Proof. intros Hm. by apply (Hm (sessionFields (vars w)) w). Qed.

(** X20: the tools assign no session variable: whatever the parameters
    and whatever the backend does, the start time, the last prompt, the
    compaction time, the candidates and the compaction flag are after a
    tool call what they were before. *)
Theorem tools_keep_session (config : option PluginConfig) (params : jsval) (w : World B) :
  sessionFields (vars (snd (mama_search config params w))) = sessionFields (vars w)
  ∧ sessionFields (vars (snd (mama_save config params w))) = sessionFields (vars w)
  ∧ sessionFields (vars (snd (mama_load_checkpoint config params w)))
    = sessionFields (vars w)
  ∧ sessionFields (vars (snd (mama_update config params w))) = sessionFields (vars w).
Proof.
  repeat split; apply tool_keeps; intros v;
    unfold mama_search, mama_save, mama_load_checkpoint, mama_update, toolFailed,
      timestampISO, getMAMA;
    frame; by apply (initMAMA_keeps (B := B) sessionFields (fun x => x = v)).
Qed.
End ToolFrame.

(* ===================================================================== *)
(** * What the decision patterns detect                                   *)
(* ===================================================================== *)

Lemma starMatch_complete {A : Type} (p : N → bool) (m rest : jsstring)
    (k : jsstring → option A) :
  Forall (fun c => p c = true) m → is_Some (k rest) → is_Some (starMatch p (m ++ rest) k).
Proof.
  intros Hm Hk. induction Hm as [| c m Hc _ IH]; simpl.
  - destruct rest as [| c rest]; [done |]. simpl.
    destruct (p c); [| done]. by destruct (starMatch p rest k).
  - rewrite Hc. destruct IH as [x ->]. by eexists.
Qed.

(** The matcher finds a match whenever there is one. *)
Lemma rmatch_complete {A : Type} (r : regex) (m : jsstring) :
  denotes r m →
  ∀ (rest : jsstring) (k : jsstring → option A),
    is_Some (k rest) → is_Some (rmatch r (m ++ rest) k).
Proof.
  induction 1 as [| c d Hcd | p d Hpd | r1 r2 s1 s2 _ IH1 _ IH2 | r1 r2 s _ IH
                  | r1 r2 s _ IH | p s Hs]; intros rest k Hk; simpl.
  - done.
  - by rewrite Hcd.
  - by rewrite Hpd.
  - rewrite <- app_assoc. apply IH1, IH2, Hk.
  - destruct (IH rest k Hk) as [x ->]. by eexists.
  - destruct (rmatch r1 (s ++ rest) k); [by eexists | by apply IH].
  - by apply starMatch_complete.
Qed.

Lemma regexMatch_complete (r : regex) (pre m post : jsstring) :
  denotes r m → is_Some (regexMatch r (pre ++ m ++ post)).
Proof.
  intros Hd.
  assert (Hat : is_Some (matchAt r (m ++ post)))
    by (unfold matchAt; apply rmatch_complete; [done | by eexists]).
  induction pre as [| c pre IH].
  - simpl. destruct Hat as [x Hx]. destruct (m ++ post); simpl; rewrite Hx; by eexists.
  - simpl. destruct (matchAt r (c :: pre ++ m ++ post)); [by eexists | exact IH].
Qed.

(** [r.test(s)] holds exactly when [s] contains a text that [r] can
    match. *)
Lemma regexTest_denotes (r : regex) (s : jsstring) :
  regexTest r s = true ↔ ∃ pre m post, s = pre ++ m ++ post ∧ denotes r m.
Proof.
  unfold regexTest. split.
  - destruct (regexMatch r s) as [m |] eqn:Hm; [| done]. intros _.
    apply regexMatch_sound in Hm as [Hd (pre & post & ->)]. by exists pre, m, post.
  - intros (pre & m & post & -> & Hd).
    by destruct (regexMatch_complete r pre m post Hd) as [x ->].
Qed.

Lemma denotes_fold_alt (rs : list regex) (r0 : regex) (m : jsstring) :
  denotes (fold_left RAlt rs r0) m ↔ denotes r0 m ∨ ∃ r, r ∈ rs ∧ denotes r m.
Proof.
  revert r0. induction rs as [| r rs IH]; intros r0; simpl.
  - split; [by left | intros [H | (r & Hr & _)]; [done | by apply elem_of_nil in Hr]].
  - rewrite IH. split.
    + intros [Hd | (r' & Hr' & Hd)].
      * inversion Hd; subst; [by left | right; exists r; split; [left | done]].
      * right. exists r'. split; [by right | done].
    + intros [Hd | (r' & Hr' & Hd)].
      * left. by apply denotes_alt_l.
      * apply elem_of_cons in Hr' as [-> | Hr'].
        -- left. by apply denotes_alt_r.
        -- right. by exists r'.
Qed.

Lemma denotes_alternatives (r0 : regex) (rs : list regex) (m : jsstring) :
  denotes (alternatives (r0 :: rs)) m ↔ ∃ r, r ∈ r0 :: rs ∧ denotes r m.
Proof.
  unfold alternatives. rewrite denotes_fold_alt. split.
  - intros [Hd | (r & Hr & Hd)]; [exists r0 | exists r]; (split; [| done]);
      [left | by right].
  - intros (r & Hr & Hd). apply elem_of_cons in Hr as [-> | Hr]; [by left |].
    right. by exists r.
Qed.

Ltac member := repeat (apply elem_of_cons; first [ by left | right ]).

Lemma spelled_denotes (kw m : jsstring) : spelled kw m → denotes (rlit kw) m.
Proof.
  induction 1 as [| c d kw m Hcd _ IH]; simpl; [constructor |].
  change (d :: m) with ([d] ++ m). constructor; [by constructor | done].
Qed.

Lemma denotes_useInstead (m : jsstring) :
  denotes (RSeq (rlit (lit "use")) (RSeq (RStar dot) (rlit (lit "instead")))) m ↔
  ∃ u mid i, m = u ++ mid ++ i ∧ spelled (lit "use") u
             ∧ Forall (fun c => dot c = true) mid ∧ spelled (lit "instead") i.
Proof.
  remember (rlit (lit "use")) as ru eqn:Hru.
  remember (rlit (lit "instead")) as ri eqn:Hri.
  split.
  - intros Hd.
    inversion Hd as [| | | r1 r2 u s Hu Hrest | | |]; subst r1 r2 m; clear Hd.
    inversion Hrest as [| | | r1 r2 mid i Hmid Hi | | |]; subst r1 r2 s; clear Hrest.
    inversion Hmid; subst. exists u, mid, i.
    repeat split; [by apply denotes_rlit | done | by apply denotes_rlit].
  - intros (u & mid & i & -> & Hu & Hmid & Hi). subst ru ri.
    constructor; [by apply spelled_denotes |].
    constructor; [by constructor | by apply spelled_denotes].
Qed.


(* ===================================================================== *)
(** * The age of a checkpoint                                             *)
(* ===================================================================== *)

(** X24: a checkpoint whose timestamp is not a valid date is never recent;
    one whose timestamp lies in the future is recent for every positive
    threshold; and a checkpoint that is not recent at some time is not
    recent at any later time. *)
Theorem isRecentCheckpoint_clock (now : Z) (checkpointTime : option Z) (thresholdMs : Z) :
  (checkpointTime = None → isRecentCheckpoint now checkpointTime thresholdMs = false)
  ∧ (∀ t, checkpointTime = Some t → (now ≤ t)%Z → (0 < thresholdMs)%Z →
       isRecentCheckpoint now checkpointTime thresholdMs = true)
  ∧ (∀ later, (now ≤ later)%Z →
       isRecentCheckpoint now checkpointTime thresholdMs = false →
       isRecentCheckpoint later checkpointTime thresholdMs = false).
Proof.
  unfold isRecentCheckpoint. repeat split.
  - by intros ->.
  - intros t -> Hfuture Hpos. apply Z.ltb_lt. lia.
  - intros later Hlater. destruct checkpointTime as [t |]; [| done].
    rewrite !Z.ltb_ge. lia.
Qed.

Lemma isRecentCheckpoint_clock_witness :
  isRecentCheckpoint 1705320000000%Z (Some 1705320060000%Z) defaultThresholdMs = true
  ∧ isRecentCheckpoint 1705320000000%Z (Sample.parseMs (lit "yesterday")) defaultThresholdMs
    = false.
Proof.
  split.
  - destruct (isRecentCheckpoint_clock 1705320000000%Z (Some 1705320060000%Z)
                defaultThresholdMs) as (_ & Hfuture & _).
    apply (Hfuture 1705320060000%Z); [reflexivity | lia | reflexivity].
  - destruct (isRecentCheckpoint_clock 1705320000000%Z (Sample.parseMs (lit "yesterday"))
                defaultThresholdMs) as (Hinvalid & _).
    apply Hinvalid. vm_compute. reflexivity.
Defined.

